(** * Altium library analysers: a shallow embedding of
      [scripts/analyze_schlib.py] and [scripts/analyze_pcblib.py].

    The two scripts walk the byte streams of a schematic library (SchLib)
    and of a footprint library (PcbLib).  The embedding keeps the values the
    scripts compute (offsets, blocks, decoded fields, property maps); of
    the OLE container it keeps the listing and the two operations that
    the footprint loop uses; it leaves out the formatting of the report
    lines, [hex_dump] apart, but keeps a conversion made for a report line
    that can raise ([int(x)] on a vertex coordinate).  Python exceptions
    are explicit: every operation that can raise returns a [result].  The
    two [while] loops run on fuel, and are proved to end before it runs
    out. *)

From Stdlib Require Import String Ascii DecimalString.
From Stdlib Require Import ZArith List Lia Bool.
From Stdlib Require Import Strings.Byte.
From Stdlib Require DecimalPos DecimalZ.
Import ListNotations.

Local Open Scope Z_scope.

(** ** The Python values and built-ins the scripts rely on *)
Module Py.

(** [bytes] objects and [str] objects (sequences of Unicode code points). *)
Definition bytes := list byte.
Definition str := list N.

(** A [str] literal written in ASCII. *)
Definition u (s : string) : str := map N_of_ascii (list_ascii_of_string s).

(** A [bytes] literal written in ASCII. *)
Definition ascii_bytes (s : string) : bytes := list_byte_of_string s.

Inductive exn : Set :=
| UnicodeDecodeError
| StructError
| IndexError
| ValueError
| OverflowError.

Inductive result (A : Type) : Type :=
| Ok (a : A)
| Raise (e : exn).
Arguments Ok {A} a.
Arguments Raise {A} e.

Definition bind {A B} (m : result A) (k : A -> result B) : result B :=
  match m with
  | Ok a => k a
  | Raise e => Raise e
  end.

(** [try: body / except Exception: handler]. *)
Definition try_except {A} (body : result A) (handler : exn -> result A)
  : result A :=
  match body with
  | Ok a => Ok a
  | Raise e => handler e
  end.

Definition returns {A} (m : result A) : bool :=
  match m with Ok _ => true | Raise _ => false end.

(** *** Sequences: [len], indexing and slicing with non-negative bounds.
    No index or slice bound of the two scripts is ever negative. *)
Definition len {A} (l : list A) : Z := Z.of_nat (length l).

Definition slice {A} (l : list A) (a b : Z) : list A :=
  firstn (Z.to_nat (b - a)) (skipn (Z.to_nat a) l).

Definition slice_from {A} (l : list A) (a : Z) : list A :=
  skipn (Z.to_nat a) l.

Definition byte_val (b : byte) : Z := Z.of_N (Byte.to_N b).

(** [data[i]] on a bytes object. *)
Definition index (data : bytes) (i : Z) : result Z :=
  if (0 <=? i) && (i <? len data)
  then match nth_error data (Z.to_nat i) with
       | Some b => Ok (byte_val b)
       | None => Raise IndexError
       end
  else Raise IndexError.

(** *** [int.from_bytes] *)
Inductive byteorder : Set := little | big.

Fixpoint le_combine (bs : bytes) : Z :=
  match bs with
  | [] => 0
  | b :: t => byte_val b + 256 * le_combine t
  end.

Definition to_signed (nbits v : Z) : Z :=
  if v >=? 2 ^ (nbits - 1) then v - 2 ^ nbits else v.

Definition int_from_bytes (bs : bytes) (order : byteorder) (signed : bool) : Z :=
  let v := match order with
           | little => le_combine bs
           | big => le_combine (rev bs)
           end in
  match bs with
  | [] => 0
  | _ => if signed then to_signed (8 * len bs) v else v
  end.

(** *** [struct.unpack_from] for the three formats in use.  A double is
    kept as its 64-bit IEEE-754 pattern. *)
Inductive fmt : Set := fmt_I | fmt_i | fmt_d.

Definition calcsize (f : fmt) : Z :=
  match f with fmt_I | fmt_i => 4 | fmt_d => 8 end.

Definition unpack_from (f : fmt) (buf : bytes) (off : Z) : result Z :=
  if (off <? 0) || (len buf <? off + calcsize f) then Raise StructError
  else
    let raw := slice buf off (off + calcsize f) in
    Ok (match f with
        | fmt_I => int_from_bytes raw little false
        | fmt_i => int_from_bytes raw little true
        | fmt_d => int_from_bytes raw little false
        end).

(** [int(x)] on a double given by its bit pattern: truncation toward zero;
    NaN raises [ValueError], an infinity raises [OverflowError]. *)
Definition int_of_double (bits : Z) : result Z :=
  let sign := Z.testbit bits 63 in
  let e := Z.land (Z.shiftr bits 52) 2047 in
  let m := Z.land bits (2 ^ 52 - 1) in
  if e =? 2047 then
    if m =? 0 then Raise OverflowError else Raise ValueError
  else if e =? 0 then Ok 0
  else
    let mant := m + 2 ^ 52 in
    let mag := if 1075 <=? e then Z.shiftl mant (e - 1075)
               else Z.shiftr mant (1075 - e) in
    Ok (if sign then - mag else mag).

(** *** Codecs *)

(** The decoding table of Python's [cp1252] codec: five byte values are
    left undefined. *)
Definition cp1252_char (b : byte) : option N :=
  let n := Byte.to_N b in
  if (n <? 128)%N then Some n
  else if (160 <=? n)%N then Some n
  else match n with
       | 128 => Some 8364 | 129 => None     | 130 => Some 8218
       | 131 => Some 402  | 132 => Some 8222 | 133 => Some 8230
       | 134 => Some 8224 | 135 => Some 8225 | 136 => Some 710
       | 137 => Some 8240 | 138 => Some 352  | 139 => Some 8249
       | 140 => Some 338  | 141 => None     | 142 => Some 381
       | 143 => None     | 144 => None     | 145 => Some 8216
       | 146 => Some 8217 | 147 => Some 8220 | 148 => Some 8221
       | 149 => Some 8226 | 150 => Some 8211 | 151 => Some 8212
       | 152 => Some 732  | 153 => Some 8482 | 154 => Some 353
       | 155 => Some 8250 | 156 => Some 339  | 157 => None
       | 158 => Some 382  | _ => Some 376
       end%N.

Fixpoint decode_charmap (table : byte -> option N) (bs : bytes) : result str :=
  match bs with
  | [] => Ok []
  | b :: t =>
      match table b with
      | None => Raise UnicodeDecodeError
      | Some c => bind (decode_charmap table t) (fun s => Ok (c :: s))
      end
  end.

(** [bs.decode('windows-1252')] *)
Definition decode_cp1252 (bs : bytes) : result str :=
  decode_charmap cp1252_char bs.

(** [bs.decode('latin1')] *)
Definition decode_latin1 (bs : bytes) : str := map Byte.to_N bs.

(** [bs.decode('ascii')] and [bs.decode('ascii', errors='replace')] *)
Definition decode_ascii (bs : bytes) : result str :=
  decode_charmap
    (fun b => if (Byte.to_N b <? 128)%N then Some (Byte.to_N b) else None) bs.

Definition decode_ascii_replace (bs : bytes) : str :=
  map (fun b => if (Byte.to_N b <? 128)%N then Byte.to_N b else 65533%N) bs.

(** [bs.decode('utf-8')]: well-formed sequences only (no overlong form, no
    surrogate, nothing above U+10FFFF). *)
Definition is_cont (n : N) : bool := ((128 <=? n) && (n <=? 191))%N.
Definition in_range (lo hi n : N) : bool := ((lo <=? n) && (n <=? hi))%N.

Fixpoint decode_utf8 (bs : bytes) : result str :=
  match bs with
  | [] => Ok []
  | b0 :: t0 =>
      let n0 := Byte.to_N b0 in
      if (n0 <? 128)%N then
        bind (decode_utf8 t0) (fun s => Ok (n0 :: s))
      else
        match t0 with
        | [] => Raise UnicodeDecodeError
        | b1 :: t1 =>
            let n1 := Byte.to_N b1 in
            if in_range 194 223 n0 then
              if is_cont n1 then
                bind (decode_utf8 t1)
                     (fun s => Ok (((n0 - 192) * 64 + (n1 - 128)) :: s)%N)
              else Raise UnicodeDecodeError
            else
              match t1 with
              | [] => Raise UnicodeDecodeError
              | b2 :: t2 =>
                  let n2 := Byte.to_N b2 in
                  if in_range 224 239 n0 then
                    if (if (n0 =? 224)%N then in_range 160 191 n1
                        else if (n0 =? 237)%N then in_range 128 159 n1
                        else is_cont n1) && is_cont n2
                    then
                      bind (decode_utf8 t2)
                           (fun s => Ok (((n0 - 224) * 4096 + (n1 - 128) * 64
                                          + (n2 - 128)) :: s)%N)
                    else Raise UnicodeDecodeError
                  else
                    match t2 with
                    | [] => Raise UnicodeDecodeError
                    | b3 :: t3 =>
                        let n3 := Byte.to_N b3 in
                        if in_range 240 244 n0 then
                          if (if (n0 =? 240)%N then in_range 144 191 n1
                              else if (n0 =? 244)%N then in_range 128 143 n1
                              else is_cont n1) && is_cont n2 && is_cont n3
                          then
                            bind (decode_utf8 t3)
                                 (fun s => Ok (((n0 - 240) * 262144
                                                + (n1 - 128) * 4096
                                                + (n2 - 128) * 64
                                                + (n3 - 128)) :: s)%N)
                          else Raise UnicodeDecodeError
                        else Raise UnicodeDecodeError
                    end
              end
        end
  end.

(** *** [str] methods *)
Fixpoint str_eqb (a b : str) : bool :=
  match a, b with
  | [], [] => true
  | x :: a', y :: b' => (x =? y)%N && str_eqb a' b'
  | _, _ => false
  end.

(** [c in s] for a one-character [c]. *)
Definition contains (c : N) (s : str) : bool := existsb (N.eqb c) s.

(** [s.split(sep)] for a one-character separator. *)
Fixpoint split (sep : N) (s : str) : list str :=
  match s with
  | [] => [[]]
  | c :: t =>
      if (c =? sep)%N then [] :: split sep t
      else match split sep t with
           | h :: r => (c :: h) :: r
           | [] => [[c]]
           end
  end.

(** [s.split(sep, 1)] for a one-character separator. *)
Fixpoint split1 (sep : N) (s : str) : list str :=
  match s with
  | [] => [[]]
  | c :: t =>
      if (c =? sep)%N then [[]; t]
      else match split1 sep t with
           | h :: r => (c :: h) :: r
           | [] => [[c]]
           end
  end.

(** [a, b = xs] *)
Definition unpack2 {A} (xs : list A) : result (A * A) :=
  match xs with
  | [a; b] => Ok (a, b)
  | _ => Raise ValueError
  end.

Fixpoint startswith (s p : str) : bool :=
  match p, s with
  | [], _ => true
  | x :: p', y :: s' => (x =? y)%N && startswith s' p'
  | _ :: _, [] => false
  end.

(** [s.find(sub)], or [-1]. *)
Fixpoint find (s sub : str) : Z :=
  if startswith s sub then 0
  else match s with
       | [] => -1
       | _ :: t => let r := find t sub in if r <? 0 then -1 else 1 + r
       end.

(** [s.rstrip(c)] for a one-character [c]. *)
Fixpoint rstrip (c : N) (s : str) : str :=
  match s with
  | [] => []
  | x :: t =>
      match rstrip c t with
      | [] => if (x =? c)%N then [] else [x]
      | r => x :: r
      end
  end.

(** [str(z)] for an int, and [bs.hex()]. *)
Definition str_of_int (z : Z) : str := u (NilZero.string_of_int (Z.to_int z)).

Definition hex_digit (n : N) : N :=
  if (n <? 10)%N then (48 + n)%N else (87 + n)%N.

Definition hex (bs : bytes) : str :=
  flat_map (fun b => let n := Byte.to_N b in
                     [hex_digit (n / 16); hex_digit (n mod 16)]%N) bs.

(** *** [dict] with [str] keys: insertion ordered; assigning to a key that
    is present replaces its value in place. *)
Definition dict (V : Type) := list (str * V).

Fixpoint dict_set {V} (d : dict V) (k : str) (v : V) : dict V :=
  match d with
  | [] => [(k, v)]
  | (k', v') :: r =>
      if str_eqb k' k then (k', v) :: r else (k', v') :: dict_set r k v
  end.

Fixpoint dict_get {V} (d : dict V) (k : str) : option V :=
  match d with
  | [] => None
  | (k', v') :: r => if str_eqb k' k then Some v' else dict_get r k
  end.

Definition dict_get_default {V} (d : dict V) (k : str) (dflt : V) : V :=
  match dict_get d k with Some v => v | None => dflt end.

(** Values of mixed type held by one dict. *)
Inductive pyval : Type :=
| VStr (s : str)
| VInt (z : Z)
| VBool (b : bool).

End Py.

Import Py.

Declare Scope py_scope.
Delimit Scope py_scope with py.
Notation "x <- m ;; k" := (bind m (fun x => k))
  (at level 61, m at next level, right associativity) : py_scope.
Notation "' p <- m ;; k" := (bind m (fun p => k))
  (at level 61, p pattern, m at next level, right associativity) : py_scope.
Local Open Scope py_scope.

(** ** [analyze_schlib.py] *)
Module SchLib.

(** [parse_properties]: pipe-delimited key=value text.  The whole body sits
    in a [try] whose handler passes; [props] is still empty when the only
    fallible statement, the decoding, raises. *)
Definition add_part (props : dict str) (part : str) : result (dict str) :=
  if contains 61 part then
    '(key, value) <- unpack2 (split1 61 part) ;;
    Ok (dict_set props key value)
  else Ok props.

Fixpoint add_parts (props : dict str) (parts : list str) : result (dict str) :=
  match parts with
  | [] => Ok props
  | part :: rest => props' <- add_part props part ;; add_parts props' rest
  end.

Definition parse_properties (data : bytes) : result (dict str) :=
  let props := [] in
  try_except
    (text <- decode_cp1252 data ;;
     add_parts props (split 124 text))
    (fun _ => Ok props).

(** *** [io.BytesIO]: the state is the part of the buffer not yet read;
    [read n] hands out at most [n] bytes and never fails. *)
Definition io (A : Type) := bytes -> result (A * bytes).

Definition ret {A} (a : A) : io A := fun r => Ok (a, r).

Definition iobind {A B} (m : io A) (k : A -> io B) : io B :=
  fun r => match m r with
           | Ok (a, r') => k a r'
           | Raise e => Raise e
           end.

Definition lift {A} (m : result A) : io A :=
  fun r => match m with
           | Ok a => Ok (a, r)
           | Raise e => Raise e
           end.

Definition read (n : Z) : io bytes :=
  fun r => Ok (firstn (Z.to_nat n) r, skipn (Z.to_nat n) r).

Notation "x <~ m ;; k" := (iobind m (fun x => k))
  (at level 61, m at next level, right associativity).

Definition read_i32 : io Z :=
  b <~ read 4 ;; ret (int_from_bytes b little true).

Definition read_i16 (signed : bool) : io Z :=
  b <~ read 2 ;; ret (int_from_bytes b little signed).

Definition read_i8 : io Z :=
  b <~ read 1 ;; ret (int_from_bytes b little false).

(** [reader.read(n).decode('utf-8') if n else ''] *)
Definition read_text (n : Z) : io str :=
  if n =? 0 then ret []
  else b <~ read n ;; lift (decode_utf8 b).

Definition flag (flags mask : Z) : pyval :=
  VBool (negb (Z.land flags mask =? 0)).

Definition parse_binary_pin_reader : io (dict pyval) :=
  let props := [] in
  record <~ read_i32 ;;
  let props := dict_set props (u "RECORD") (VStr (str_of_int record)) in
  _ <~ read 1 ;;
  v <~ read_i16 true ;;
  let props := dict_set props (u "OwnerPartId") (VInt v) in
  v <~ read_i8 ;;
  let props := dict_set props (u "OwnerPartDisplayMode") (VInt v) in
  v <~ read_i8 ;;
  let props := dict_set props (u "Symbol_InnerEdge") (VInt v) in
  v <~ read_i8 ;;
  let props := dict_set props (u "Symbol_OuterEdge") (VInt v) in
  v <~ read_i8 ;;
  let props := dict_set props (u "Symbol_Inside") (VInt v) in
  v <~ read_i8 ;;
  let props := dict_set props (u "Symbol_Outside") (VInt v) in
  desc_len <~ read_i8 ;;
  _ <~ read 1 ;;
  s <~ read_text desc_len ;;
  let props := dict_set props (u "Description") (VStr s) in
  v <~ read_i8 ;;
  let props := dict_set props (u "Electrical_Type") (VInt v) in
  flags <~ read_i8 ;;
  let props := dict_set props (u "Rotated") (flag flags 1) in
  let props := dict_set props (u "Flipped") (flag flags 2) in
  let props := dict_set props (u "Hide") (flag flags 4) in
  let props := dict_set props (u "Show_Name") (flag flags 8) in
  let props := dict_set props (u "Show_Designator") (flag flags 16) in
  v <~ read_i16 false ;;
  let props := dict_set props (u "Length") (VInt v) in
  v <~ read_i16 true ;;
  let props := dict_set props (u "Location.X") (VInt v) in
  v <~ read_i16 true ;;
  let props := dict_set props (u "Location.Y") (VInt v) in
  v <~ read_i32 ;;
  let props := dict_set props (u "Color") (VInt v) in
  name_len <~ read_i8 ;;
  s <~ read_text name_len ;;
  let props := dict_set props (u "Name") (VStr s) in
  designator_len <~ read_i8 ;;
  s <~ read_text designator_len ;;
  let props := dict_set props (u "Designator") (VStr s) in
  ret props.

Definition parse_binary_pin (data : bytes) : result (dict pyval) :=
  '(props, _) <- parse_binary_pin_reader data ;; Ok props.

(** *** The record loop of one component's [Data] stream. *)
Record loop_state : Type := {
  offset : Z;
  record_num : Z;
  records_by_type : dict (list (dict pyval))
}.

Definition initial_state : loop_state :=
  {| offset := 0; record_num := 0; records_by_type := [] |}.

(** How the [while] loop was left: by [break] at a zero record length, or
    because its condition [offset < len(data) - 4] became false. *)
Inductive loop_exit : Set := EndMarker | ConditionFalse.

Inductive step : Type :=
| Stop (how : loop_exit)
| Next (st : loop_state).

(** [records_by_type[rec_id].append(props)], creating the list first. *)
Definition track_record (by_type : dict (list (dict pyval)))
           (rec_id : str) (props : dict pyval) : dict (list (dict pyval)) :=
  let by_type := match dict_get by_type rec_id with
                 | None => dict_set by_type rec_id []
                 | Some _ => by_type
                 end in
  dict_set by_type rec_id (dict_get_default by_type rec_id [] ++ [props]).

Definition str_values (d : dict str) : dict pyval :=
  map (fun kv => (fst kv, VStr (snd kv))) d.

(** The payload decoders, by record type: the property map and the id the
    record is filed under. *)
Definition decode_record (record_type : Z) (record_data : bytes)
  : result (dict pyval * str) :=
  if record_type =? 0 then
    props <- parse_properties record_data ;;
    Ok (str_values props, dict_get_default props (u "RECORD") (u "unknown"))
  else if record_type =? 1 then
    props <- parse_binary_pin record_data ;;
    Ok (props, u "2-binary")
  else
    Ok ([(u "_raw", VStr (hex (slice record_data 0 50)))],
        (u "unknown-type-" ++ str_of_int record_type)%list).

(** One pass through the body of the [while] loop, its condition first. *)
Definition record_step (data : bytes) (st : loop_state) : result step :=
  if offset st <? len data - 4 then
    let record_length :=
      int_from_bytes (slice data (offset st) (offset st + 2)) little false in
    let record_type :=
      int_from_bytes (slice data (offset st + 2) (offset st + 4)) big false in
    if record_length =? 0 then Ok (Stop EndMarker)
    else
      let record_data :=
        slice data (offset st + 4) (offset st + 4 + record_length) in
      '(props, rec_id) <- decode_record record_type record_data ;;
      Ok (Next {| offset := offset st + (4 + record_length);
                  record_num := record_num st + 1;
                  records_by_type :=
                    track_record (records_by_type st) rec_id props |})
  else Ok (Stop ConditionFalse).

Fixpoint record_loop (fuel : nat) (data : bytes) (st : loop_state)
  : option (result (loop_exit * loop_state)) :=
  match fuel with
  | O => None
  | S fuel' =>
      match record_step data st with
      | Raise e => Some (Raise e)
      | Ok (Stop how) => Some (Ok (how, st))
      | Ok (Next st') => record_loop fuel' data st'
      end
  end.

(** Every pass moves the offset forward, so [len(data)] passes are enough. *)
Definition record_fuel (data : bytes) (st : loop_state) : nat :=
  S (Z.to_nat (len data - offset st)).

(** What [analyze_schlib] reports for one component: the loop's totals, or
    the error caught by the [try] around the component. *)
Inductive component_report : Type :=
| Completed (how : loop_exit) (st : loop_state)
| ErrorReadingDataStream (e : exn)
| Diverged.

Definition analyze_component (data : bytes) : component_report :=
  match record_loop (record_fuel data initial_state) data initial_state with
  | Some (Ok (how, st)) => Completed how st
  | Some (Raise e) => ErrorReadingDataStream e
  | None => Diverged
  end.

(** *** The header of [analyze_schlib]: the properties of the [FileHeader]
    stream, the component count and the component names.  [int(text)] is
    Python's; the embedding takes it as a parameter. *)
Definition header_props (header_data : bytes) : result (dict str) :=
  let length := int_from_bytes (slice header_data 0 4) little false in
  parse_properties (slice header_data 4 (4 + length)).

(** [int(header_props.get('CompCount', 0))] *)
Definition comp_count (int : str -> result Z) (props : dict str)
  : result Z :=
  match dict_get props (u "CompCount") with
  | Some text => int text
  | None => Ok 0
  end.

(** The [for i in range(comp_count)] loop. *)
Definition comp_names (props : dict str) (count : Z) : list str :=
  map (fun i => dict_get_default props
                  (u "LibRef" ++ str_of_int i)%list
                  (u "Unknown" ++ str_of_int i)%list)
      (map Z.of_nat (seq 0 (Z.to_nat count))).

Definition read_components (int : str -> result Z) (header_data : bytes)
  : result (list str) :=
  props <- header_props header_data ;;
  count <- comp_count int props ;;
  Ok (comp_names props count).

End SchLib.

Import SchLib.

(** ** [analyze_pcblib.py] *)
Module PcbLib.

(** [read_block]: a block is a 4-byte little-endian length and that many
    bytes. *)
Definition read_block (data : bytes) (offset : Z) : result (bytes * Z) :=
  if offset + 4 >? len data then Ok ([], offset)
  else
    block_len <- unpack_from fmt_I data offset ;;
    if (block_len >? 100000) || (offset + 4 + block_len >? len data)
    then Ok ([], offset)
    else Ok (slice data (offset + 4) (offset + 4 + block_len),
             offset + 4 + block_len).

Definition read_string_from_block (block_data : bytes) : result str :=
  if len block_data <? 1 then Ok []
  else
    str_len <- index block_data 0 ;;
    if str_len + 1 >? len block_data then Ok []
    else
      try_except (decode_cp1252 (slice block_data 1 (1 + str_len)))
                 (fun _ => Ok []).

(** *** Geometry blocks.  Distances are the signed 32-bit internal units;
    angles are doubles, kept as bit patterns. *)
Record pad_geometry : Type := {
  pad_layer : Z;
  loc_x : Z; loc_y : Z;
  size_top_x : Z; size_top_y : Z;
  size_mid_x : Z; size_mid_y : Z;
  size_bot_x : Z; size_bot_y : Z;
  hole_size : Z;
  pad_shapes : option (Z * Z * Z);
  pad_rotation : option Z
}.

Definition parse_pad_geometry (data : bytes) : result (option pad_geometry) :=
  if len data <? 45 then Ok None
  else
    layer <- index data 0 ;;
    lx <- unpack_from fmt_i data 13 ;;
    ly <- unpack_from fmt_i data 17 ;;
    tx <- unpack_from fmt_i data 21 ;;
    ty <- unpack_from fmt_i data 25 ;;
    mx <- unpack_from fmt_i data 29 ;;
    my <- unpack_from fmt_i data 33 ;;
    bx <- unpack_from fmt_i data 37 ;;
    by_ <- unpack_from fmt_i data 41 ;;
    hole <- (if len data >? 48 then unpack_from fmt_i data 45 else Ok 0) ;;
    shapes <- (if len data >? 51 then
                 shape_top <- index data 49 ;;
                 shape_mid <- index data 50 ;;
                 shape_bot <- index data 51 ;;
                 Ok (Some (shape_top, shape_mid, shape_bot))
               else Ok None) ;;
    rotation <- (if len data >? 59 then
                   r <- unpack_from fmt_d data 52 ;; Ok (Some r)
                 else Ok None) ;;
    Ok (Some {| pad_layer := layer; loc_x := lx; loc_y := ly;
                size_top_x := tx; size_top_y := ty;
                size_mid_x := mx; size_mid_y := my;
                size_bot_x := bx; size_bot_y := by_;
                hole_size := hole; pad_shapes := shapes;
                pad_rotation := rotation |}).

Record track_geometry : Type := {
  track_layer : Z;
  track_x1 : Z; track_y1 : Z; track_x2 : Z; track_y2 : Z;
  track_width : Z
}.

Record arc_geometry : Type := {
  arc_layer : Z;
  arc_cx : Z; arc_cy : Z; arc_radius : Z;
  start_angle : Z; end_angle : Z
}.

Record text_geometry : Type := {
  text_layer : Z;
  text_x : Z; text_y : Z; text_height : Z;
  text_rotation : option Z
}.

Record fill_geometry : Type := {
  fill_layer : Z;
  fill_x1 : Z; fill_y1 : Z; fill_x2 : Z; fill_y2 : Z;
  fill_rotation : option Z
}.

(** A vertex of a region: its index, the byte offset [base] it was read
    at, the two doubles, and [int(x)], [int(y)]. *)
Record vertex : Type := {
  v_index : Z;
  v_base : Z;
  v_x : Z; v_y : Z;
  v_int_x : Z; v_int_y : Z
}.

Inductive primitive : Type :=
| Pad (designator : str) (block1 : bytes) (block2_str : str)
      (block3 block4 : bytes) (geometry : option pad_geometry)
      (block5 : bytes)
| Track (block : bytes) (geometry : option track_geometry)
| Arc (block : bytes) (geometry : option arc_geometry)
| Text (block0 : bytes) (geometry : option text_geometry)
       (block1 : bytes) (content : str)
| Region (block0 : bytes) (layer : option Z) (block1 : bytes)
         (vertex_count : option Z) (vertices : list vertex)
| Fill (block : bytes) (geometry : option fill_geometry)
| ComponentBody (blocks : list bytes) (params : option (dict str)).

Definition pad_fields (block4 : bytes) : result (option pad_geometry) :=
  if len block4 >=? 45 then parse_pad_geometry block4 else Ok None.

Definition parse_pad_blocks_v2 (data : bytes) (offset : Z)
  : result (primitive * Z) :=
  '(block0, offset) <- read_block data offset ;;
  designator <- read_string_from_block block0 ;;
  '(block1, offset) <- read_block data offset ;;
  '(block2, offset) <- read_block data offset ;;
  block2_str <- read_string_from_block block2 ;;
  '(block3, offset) <- read_block data offset ;;
  '(block4, offset) <- read_block data offset ;;
  geometry <- pad_fields block4 ;;
  '(block5, offset) <- read_block data offset ;;
  Ok (Pad designator block1 block2_str block3 block4 geometry block5, offset).

(** The parsers below read their blocks and then look into them; what
    each one does with a block it has read is a definition of its own. *)
Definition track_fields (block : bytes) : result (option track_geometry) :=
  if len block >=? 45 then
    layer <- index block 0 ;;
    x1 <- unpack_from fmt_i block 13 ;;
    y1 <- unpack_from fmt_i block 17 ;;
    x2 <- unpack_from fmt_i block 21 ;;
    y2 <- unpack_from fmt_i block 25 ;;
    width <- unpack_from fmt_i block 29 ;;
    Ok (Some {| track_layer := layer;
                track_x1 := x1; track_y1 := y1;
                track_x2 := x2; track_y2 := y2;
                track_width := width |})
  else Ok None.

Definition parse_track_blocks (data : bytes) (offset : Z)
  : result (primitive * Z) :=
  '(block, offset) <- read_block data offset ;;
  geometry <- track_fields block ;;
  Ok (Track block geometry, offset).

Definition arc_fields (block : bytes) : result (option arc_geometry) :=
  if len block >=? 45 then
    layer <- index block 0 ;;
    cx <- unpack_from fmt_i block 13 ;;
    cy <- unpack_from fmt_i block 17 ;;
    radius <- unpack_from fmt_i block 21 ;;
    sa <- unpack_from fmt_d block 25 ;;
    ea <- unpack_from fmt_d block 33 ;;
    Ok (Some {| arc_layer := layer;
                arc_cx := cx; arc_cy := cy; arc_radius := radius;
                start_angle := sa; end_angle := ea |})
  else Ok None.

Definition parse_arc_blocks (data : bytes) (offset : Z)
  : result (primitive * Z) :=
  '(block, offset) <- read_block data offset ;;
  geometry <- arc_fields block ;;
  Ok (Arc block geometry, offset).

Definition text_fields (block0 : bytes) : result (option text_geometry) :=
  if len block0 >=? 25 then
    layer <- index block0 0 ;;
    x <- unpack_from fmt_i block0 13 ;;
    y <- unpack_from fmt_i block0 17 ;;
    height <- unpack_from fmt_i block0 21 ;;
    rotation <- (if len block0 >? 35 then
                   r <- unpack_from fmt_d block0 27 ;; Ok (Some r)
                 else Ok None) ;;
    Ok (Some {| text_layer := layer;
                text_x := x; text_y := y; text_height := height;
                text_rotation := rotation |})
  else Ok None.

Definition parse_text_blocks (data : bytes) (offset : Z)
  : result (primitive * Z) :=
  '(block0, offset) <- read_block data offset ;;
  geometry <- text_fields block0 ;;
  '(block1, offset) <- read_block data offset ;;
  content <- read_string_from_block block1 ;;
  Ok (Text block0 geometry block1 content, offset).

(** [range(n)] *)
Definition range (n : Z) : list Z := map Z.of_nat (seq 0 (Z.to_nat n)).

(** The [for i in range(vertex_count)] loop over the vertices block. *)
Fixpoint read_vertices (block1 : bytes) (indices : list Z)
  : result (list vertex) :=
  match indices with
  | [] => Ok []
  | i :: rest =>
      let base := 4 + i * 16 in
      if base + 16 <=? len block1 then
        x <- unpack_from fmt_d block1 base ;;
        y <- unpack_from fmt_d block1 (base + 8) ;;
        ix <- int_of_double x ;;
        iy <- int_of_double y ;;
        vs <- read_vertices block1 rest ;;
        Ok ({| v_index := i; v_base := base; v_x := x; v_y := y;
               v_int_x := ix; v_int_y := iy |} :: vs)
      else read_vertices block1 rest
  end.

(** The part of [parse_region_blocks] that works on the vertices block. *)
Definition parse_region_vertices (block1 : bytes)
  : result (option Z * list vertex) :=
  if len block1 >=? 4 then
    vertex_count <- unpack_from fmt_I block1 0 ;;
    vs <- read_vertices block1 (range vertex_count) ;;
    Ok (Some vertex_count, vs)
  else Ok (None, []).

Definition region_layer (block0 : bytes) : result (option Z) :=
  if len block0 >=? 13 then l <- index block0 0 ;; Ok (Some l)
  else Ok None.

Definition parse_region_blocks (data : bytes) (offset : Z)
  : result (primitive * Z) :=
  '(block0, offset) <- read_block data offset ;;
  layer <- region_layer block0 ;;
  '(block1, offset) <- read_block data offset ;;
  '(vertex_count, vs) <- parse_region_vertices block1 ;;
  Ok (Region block0 layer block1 vertex_count vs, offset).

Definition fill_fields (block : bytes) : result (option fill_geometry) :=
  if len block >=? 37 then
    layer <- index block 0 ;;
    x1 <- unpack_from fmt_i block 13 ;;
    y1 <- unpack_from fmt_i block 17 ;;
    x2 <- unpack_from fmt_i block 21 ;;
    y2 <- unpack_from fmt_i block 25 ;;
    rotation <- (if len block >? 36 then
                   r <- unpack_from fmt_d block 29 ;; Ok (Some r)
                 else Ok None) ;;
    Ok (Some {| fill_layer := layer;
                fill_x1 := x1; fill_y1 := y1;
                fill_x2 := x2; fill_y2 := y2;
                fill_rotation := rotation |})
  else Ok None.

Definition parse_fill_blocks (data : bytes) (offset : Z)
  : result (primitive * Z) :=
  '(block, offset) <- read_block data offset ;;
  geometry <- fill_fields block ;;
  Ok (Fill block geometry, offset).

(** [parse_component_body_params]: the text from the marker [V7_LAYER] on,
    as key=value pairs; trailing NUL characters are cut off each value.
    The body sits in a [try] whose handler passes; no statement of it
    raises, so the handler never runs. *)
Definition add_pair (params : dict str) (pair_ : str) : result (dict str) :=
  if contains 61 pair_ then
    '(key, val) <- unpack2 (split1 61 pair_) ;;
    let val := rstrip 0 val in
    Ok (dict_set params key val)
  else Ok params.

Fixpoint add_pairs (params : dict str) (pairs : list str)
  : result (dict str) :=
  match pairs with
  | [] => Ok params
  | pair_ :: rest =>
      params' <- add_pair params pair_ ;; add_pairs params' rest
  end.

Definition parse_component_body_params (block : bytes) : result (dict str) :=
  let params := [] in
  try_except
    (let block_str := decode_latin1 block in
     let v7_idx := find block_str (u "V7_LAYER") in
     if v7_idx >=? 0 then
       let params_str := slice_from block_str v7_idx in
       add_pairs params (split 124 params_str)
     else Ok params)
    (fun _ => Ok params).

Definition body_params (block_0 : bytes) : result (option (dict str)) :=
  if len block_0 >? 40 then
    p <- parse_component_body_params block_0 ;; Ok (Some p)
  else Ok None.

(** The [for i in range(3)] loop of [parse_component_body_blocks], its
    three passes written out. *)
Definition parse_component_body_blocks (data : bytes) (offset : Z)
  : result (primitive * Z) :=
  '(block_0, offset) <- read_block data offset ;;
  params <- body_params block_0 ;;
  '(block_1, offset) <- read_block data offset ;;
  '(block_2, offset) <- read_block data offset ;;
  Ok (ComponentBody [block_0; block_1; block_2] params, offset).

(** *** The primitive loop of [parse_footprint_data]. *)

(** The table [record_names] and its [get] with the formatted default. *)
Definition record_names (record_type : Z) : option str :=
  match record_type with
  | 1 => Some (u "Arc")
  | 2 => Some (u "Pad")
  | 3 => Some (u "Via")
  | 4 => Some (u "Track")
  | 5 => Some (u "Text")
  | 6 => Some (u "Fill")
  | 11 => Some (u "Region")
  | 12 => Some (u "ComponentBody")
  | _ => None
  end.

Definition hex2 (n : Z) : str :=
  [hex_digit (Z.to_N n / 16); hex_digit (Z.to_N n mod 16)]%N.

Definition rname_of (record_type : Z) : str :=
  match record_names record_type with
  | Some s => s
  | None => (u "Unknown(0x" ++ hex2 record_type ++ u ")")%list
  end.

(** The [if]/[elif] chain: the block parser of a record type, if any. *)
Definition block_parser (record_type : Z)
  : option (bytes -> Z -> result (primitive * Z)) :=
  if record_type =? 2 then Some parse_pad_blocks_v2
  else if record_type =? 4 then Some parse_track_blocks
  else if record_type =? 1 then Some parse_arc_blocks
  else if record_type =? 5 then Some parse_text_blocks
  else if record_type =? 11 then Some parse_region_blocks
  else if record_type =? 6 then Some parse_fill_blocks
  else if record_type =? 12 then Some parse_component_body_blocks
  else None.

(** How the loop ends: [Done] at a zero tag, [Aborted] at a tag without a
    block parser, [EndOfData] when the offset reaches the end of the
    buffer. *)
Inductive outcome : Type :=
| Done
| Aborted (rname : str) (record_type : Z)
| EndOfData.

Inductive prim_step : Type :=
| PStop (how : outcome) (offset : Z)
| PNext (rname : str) (p : primitive) (offset : Z).

(** One pass through the body of the [while] loop, its condition first. *)
Definition primitive_step (data : bytes) (offset : Z) : result prim_step :=
  if offset <? len data then
    record_type <- index data offset ;;
    if record_type =? 0 then Ok (PStop Done offset)
    else
      let rname := rname_of record_type in
      let offset := offset + 1 in
      match block_parser record_type with
      | Some parse_blocks =>
          '(p, offset) <- parse_blocks data offset ;;
          Ok (PNext rname p offset)
      | None => Ok (PStop (Aborted rname record_type) offset)
      end
  else Ok (PStop EndOfData offset).

(** The result of the loop: how it ended, the final offset and the
    primitives found, each with the name it was announced under
    ([prim_num] is the length of that list). *)
Record parsed : Type := {
  how : outcome;
  final_offset : Z;
  primitives : list (str * primitive)
}.

Fixpoint primitive_loop (fuel : nat) (data : bytes) (offset : Z)
         (prims : list (str * primitive)) : option (result parsed) :=
  match fuel with
  | O => None
  | S fuel' =>
      match primitive_step data offset with
      | Raise e => Some (Raise e)
      | Ok (PStop h off) =>
          Some (Ok {| how := h; final_offset := off; primitives := prims |})
      | Ok (PNext rname p off) =>
          primitive_loop fuel' data off (prims ++ [(rname, p)])
      end
  end.

(** Every pass consumes the tag byte at least. *)
Definition primitive_fuel (data : bytes) (offset : Z) : nat :=
  S (Z.to_nat (len data - offset)).

Definition parse_primitives (data : bytes) (offset : Z)
  : option (result parsed) :=
  primitive_loop (primitive_fuel data offset) data offset [].

(** [parse_footprint_data]: the name block, then the primitives. *)
Inductive footprint_report : Type :=
| DataTooShort
| InvalidBlockLength (block_len : Z)
| NoPrimitives (comp_name : str)
| Primitives (comp_name : str) (start : Z) (r : parsed).

Definition parse_footprint_data (data : bytes)
  : option (result footprint_report) :=
  if len data <? 5 then Some (Ok DataTooShort)
  else
    match unpack_from fmt_I data 0 with
    | Raise e => Some (Raise e)
    | Ok block_len =>
        if block_len + 4 >? len data then Some (Ok (InvalidBlockLength block_len))
        else
          match index data 4 with
          | Raise e => Some (Raise e)
          | Ok name_len =>
              let comp_name :=
                decode_ascii_replace (slice data 5 (5 + name_len)) in
              let offset := 4 + block_len in
              if offset >=? len data then Some (Ok (NoPrimitives comp_name))
              else
                match parse_primitives data offset with
                | None => None
                | Some (Raise e) => Some (Raise e)
                | Some (Ok r) => Some (Ok (Primitives comp_name offset r))
                end
          end
    end.

(** *** [parse_string_block]: a block that holds a length-prefixed ASCII
    string.  The [return] inside the [try] is the [Some] of the inner
    result; on a decoding error the handler passes and the function falls
    through to its last [return]. *)
Definition parse_string_block (data : bytes) (offset : Z) : result (str * Z) :=
  if offset + 4 >? len data then Ok ([], offset)
  else
    block_len <- unpack_from fmt_I data offset ;;
    if offset + 4 + block_len >? len data then Ok ([], offset)
    else
      returned <-
        (if block_len >? 0 then
           str_len <- index data (offset + 4) ;;
           if str_len + 5 <=? block_len + 4 then
             try_except
               (s <- decode_ascii
                       (slice data (offset + 5) (offset + 5 + str_len)) ;;
                Ok (Some (s, offset + 4 + block_len)))
               (fun _ => Ok None)
           else Ok None
         else Ok None) ;;
      match returned with
      | Some r => Ok r
      | None => Ok ([], offset + 4 + block_len)
      end.
(** *** [analyze_pcblib]: the loop over the streams of the library.  The
    OLE container is what [olefile] gives of the file: the listing of the
    streams, each a path of names, the test whether a path exists, and the
    content of a stream, [None] where [openstream] raises. *)
Record ole_file : Type := {
  listdir : list (list str);
  exists_ : list str -> bool;
  openstream : list str -> option bytes
}.

(** [bs.decode('ascii', errors='ignore')] *)
Definition decode_ascii_ignore (bs : bytes) : str :=
  map Byte.to_N (filter (fun b => (Byte.to_N b <? 128)%N) bs).

(** A footprint the loop has analysed: the name of its storage, the text
    shown of its [Parameters] stream, and what [parse_footprint_data] made
    of its [Data] stream. *)
Record footprint : Type := {
  storage_name : str;
  params_str : str;
  report : footprint_report
}.

(** What the loop has done when it ends: the footprints analysed, in
    order, and whether the line [... (more footprints exist)] was
    printed. *)
Record analysis : Type := {
  footprints : list footprint;
  more_footprints : bool
}.

(** How the loop ends: at the end of the listing or at its [break], or
    with the error of a stream that does not open, or with the error that
    [parse_footprint_data] raises.  Nothing in [analyze_pcblib] catches
    either error. *)
Inductive loop_end : Type :=
| Finished (a : analysis)
| OpenFailed (path : list str)
| FootprintFailed (name : str) (e : exn).

(** The [for entry in ole.listdir()] loop; [len(entry) == 2] with
    [entry[0]] and [entry[1]] is the match on a list of two names. *)
Fixpoint footprint_loop (ole : ole_file) (entries : list (list str))
         (footprint_count : Z) (found : list footprint)
  : option loop_end :=
  match entries with
  | [] => Some (Finished {| footprints := found; more_footprints := false |})
  | entry :: rest =>
      match entry with
      | [name; second] =>
          if str_eqb second (u "Data") then
            if existsb (str_eqb name) [u "Library"; u "FileVersionInfo"]
            then footprint_loop ole rest footprint_count found
            else
              let params_entry := [name; u "Parameters"] in
              if exists_ ole params_entry then
                match openstream ole params_entry with
                | None => Some (OpenFailed params_entry)
                | Some params_data =>
                    let shown :=
                      slice (decode_ascii_ignore params_data) 0 200 in
                    match openstream ole entry with
                    | None => Some (OpenFailed entry)
                    | Some data =>
                        match parse_footprint_data data with
                        | None => None
                        | Some (Raise e) => Some (FootprintFailed name e)
                        | Some (Ok r) =>
                            let found :=
                              (found ++ [{| storage_name := name;
                                            params_str := shown;
                                            report := r |}])%list in
                            let footprint_count := footprint_count + 1 in
                            if footprint_count >=? 5
                            then Some (Finished
                                         {| footprints := found;
                                            more_footprints := true |})
                            else footprint_loop ole rest footprint_count
                                                found
                        end
                    end
                end
              else footprint_loop ole rest footprint_count found
          else footprint_loop ole rest footprint_count found
      | _ => footprint_loop ole rest footprint_count found
      end
  end.

Definition analyze_footprints (ole : ole_file) : option loop_end :=
  footprint_loop ole (listdir ole) 0 [].

(** *** [hex_dump] *)

(** [sep.join(pieces)] for a one-character separator. *)
Fixpoint join (sep : N) (pieces : list str) : str :=
  match pieces with
  | [] => []
  | [piece] => piece
  | piece :: rest => (piece ++ sep :: join sep rest)%list
  end.

(** [format(n, 'x')] for [n >= 0]: the digits by repeated division, the
    last one first; a number of [b] bits has no more than [b] digits. *)
Fixpoint hex_digits (fuel : nat) (n : N) (acc : str) : str :=
  match fuel with
  | O => acc
  | S fuel' =>
      let acc := hex_digit (n mod 16) :: acc in
      if (n / 16 =? 0)%N then acc else hex_digits fuel' (n / 16) acc
  end.

Definition format_x (n : N) : str := hex_digits (S (N.to_nat (N.log2 n))) n [].

(** [f"{z:04x}"]: the sign if any, then the digits with zeros before them
    up to a width of 4 in all. *)
Definition zfill (width : nat) (digits : str) : str :=
  (repeat 48%N (width - length digits) ++ digits)%list.

Definition format_04x (z : Z) : str :=
  if z <? 0 then 45%N :: zfill 3 (format_x (Z.to_N (- z)))
  else zfill 4 (format_x (Z.to_N z)).

(** [f"{s:<48}"] *)
Definition ljust (width : nat) (s : str) : str :=
  (s ++ repeat 32%N (width - length s))%list.

Definition hex_part (chunk : bytes) : str :=
  join 32 (map (fun b => hex2 (byte_val b)) chunk).

Definition ascii_part (chunk : bytes) : str :=
  map (fun b => let v := Byte.to_N b in
                if (32 <=? v)%N && (v <? 127)%N then v else 46%N) chunk.

Definition hex_line (offset i : Z) (chunk : bytes) : str :=
  (u "  " ++ format_04x (offset + i) ++ u ": " ++ ljust 48 (hex_part chunk)
   ++ u " |" ++ ascii_part chunk ++ u "|")%list.

(** [range(0, stop, 16)] *)
Definition range16 (stop : Z) : list Z :=
  map (fun k => 16 * Z.of_nat k) (seq 0 (Z.to_nat ((stop + 15) / 16))).

Definition hex_dump_lines (data : bytes) (offset length : Z) : list str :=
  map (fun i => hex_line offset i (slice data i (i + 16)))
      (range16 (Z.min (len data) length)).

Definition hex_dump (data : bytes) (offset length : Z) : str :=
  join 10 (hex_dump_lines data offset length).

End PcbLib.

Import PcbLib.

(** ** Notions used in the statements *)

(** [read_block] fails when the length prefix does not fit in the buffer,
    or the declared length is above the ceiling or runs past the end. *)
Definition read_fails (data : bytes) (offset : Z) : Prop :=
  len data < offset + 4 \/
  exists L, unpack_from fmt_I data offset = Ok L /\
            (100000 < L \/ len data < offset + 4 + L).

(** The text before and after the first separator of a piece. *)
Fixpoint before (sep : N) (s : str) : str :=
  match s with
  | [] => []
  | c :: t => if (c =? sep)%N then [] else c :: before sep t
  end.

Fixpoint after (sep : N) (s : str) : str :=
  match s with
  | [] => []
  | c :: t => if (c =? sep)%N then t else after sep t
  end.

(** What one piece does to the map, as a total function. *)
Definition put_piece (props : dict str) (piece : str) : dict str :=
  if contains 61 piece
  then dict_set props (before 61 piece) (after 61 piece)
  else props.

(** The value the property text gives a key: that of the last piece with
    an ["="] whose text before the first ["="] is the key. *)
Fixpoint last_value (k : str) (pieces : list str) : option str :=
  match pieces with
  | [] => None
  | piece :: rest =>
      match last_value k rest with
      | Some v => Some v
      | None =>
          if contains 61 piece && str_eqb (before 61 piece) k
          then Some (after 61 piece) else None
      end
  end.

(** The byte values without a character in the code page. *)
Definition cp1252_undefined (b : byte) : bool :=
  match b with
  | x81 | x8d | x8f | x90 | x9d => true
  | _ => false
  end.

(** The header fields and the payload of the record at the cursor. *)
Definition record_length_at (data : bytes) (off : Z) : Z :=
  int_from_bytes (slice data off (off + 2)) little false.

Definition record_type_at (data : bytes) (off : Z) : Z :=
  int_from_bytes (slice data (off + 2) (off + 4)) big false.

Definition record_data_at (data : bytes) (off : Z) : bytes :=
  slice data (off + 4) (off + 4 + record_length_at data off).

(** A component stream: a binary pin record whose description is the byte
    0xFF, then a text record [A=1], then the end marker and one more
    byte. *)
Definition bad_pin_stream : bytes :=
  [x0f; x00; x00; x01;
   x02; x00; x00; x00; x00; x01; x00; x00; x00; x00; x00; x00;
   x01; x00; xff]
  ++ [x03; x00; x00; x00] ++ ascii_bytes "A=1"
  ++ [x00; x00; x00; x00; x00].

(** Buffers of ASCII bytes: every piece of them is valid UTF-8. *)
Definition ascii_only (bs : bytes) : Prop :=
  Forall (fun b => (Byte.to_N b < 128)%N) bs.

(** Two properties of a reader computation: it raises nothing but
    [UnicodeDecodeError]; on a buffer of ASCII bytes it returns, and leaves
    a buffer of ASCII bytes. *)
Definition raises_decode_only {A} (m : io A) : Prop :=
  forall r e, m r = Raise e -> e = UnicodeDecodeError.

Definition returns_on_ascii {A} (m : io A) : Prop :=
  forall r, ascii_only r -> exists a r', m r = Ok (a, r') /\ ascii_only r'.

(** The pin payload by its layout: an integer field of [n] bytes and a
    text field of [n] bytes at an offset of the payload.  A field that
    reaches past the end of the payload is made of the bytes that are
    there. *)
Definition field_int (data : bytes) (p n : Z) (signed : bool) : Z :=
  int_from_bytes (slice data p (p + n)) little signed.

Definition field_text (data : bytes) (p n : Z) : result str :=
  if n =? 0 then Ok [] else decode_utf8 (slice data p (p + n)).

(** The record kind is at 0, one byte is skipped, the owner part id is at
    5, the display mode at 7, the four symbol codes at 8 to 11, the
    description length at 12, one byte is skipped and the description is
    at 14; then come the electrical type, the flags, the length, the
    location and the color, 12 bytes in all, the name length and the name,
    the designator length and the designator. *)
Definition pin_by_layout (data : bytes) : result (dict pyval) :=
  let desc_len := field_int data 12 1 false in
  let name_at := 14 + desc_len + 12 in
  let name_len := field_int data name_at 1 false in
  let designator_at := name_at + 1 + name_len in
  let designator_len := field_int data designator_at 1 false in
  description <- field_text data 14 desc_len ;;
  name <- field_text data (name_at + 1) name_len ;;
  designator <- field_text data (designator_at + 1) designator_len ;;
  let flags := field_int data (14 + desc_len + 1) 1 false in
  Ok [(u "RECORD", VStr (str_of_int (field_int data 0 4 true)));
      (u "OwnerPartId", VInt (field_int data 5 2 true));
      (u "OwnerPartDisplayMode", VInt (field_int data 7 1 false));
      (u "Symbol_InnerEdge", VInt (field_int data 8 1 false));
      (u "Symbol_OuterEdge", VInt (field_int data 9 1 false));
      (u "Symbol_Inside", VInt (field_int data 10 1 false));
      (u "Symbol_Outside", VInt (field_int data 11 1 false));
      (u "Description", VStr description);
      (u "Electrical_Type", VInt (field_int data (14 + desc_len) 1 false));
      (u "Rotated", flag flags 1);
      (u "Flipped", flag flags 2);
      (u "Hide", flag flags 4);
      (u "Show_Name", flag flags 8);
      (u "Show_Designator", flag flags 16);
      (u "Length", VInt (field_int data (14 + desc_len + 2) 2 false));
      (u "Location.X", VInt (field_int data (14 + desc_len + 4) 2 true));
      (u "Location.Y", VInt (field_int data (14 + desc_len + 6) 2 true));
      (u "Color", VInt (field_int data (14 + desc_len + 8) 4 true));
      (u "Name", VStr name);
      (u "Designator", VStr designator)].

(** A payload is cut short when it ends before a declared text field
    does. *)
Definition pin_truncated (data : bytes) : bool :=
  let desc_len := field_int data 12 1 false in
  let name_at := 14 + desc_len + 12 in
  let name_len := field_int data name_at 1 false in
  let designator_at := name_at + 1 + name_len in
  let designator_len := field_int data designator_at 1 false in
  ((0 <? desc_len) && (len data <? 14 + desc_len))
  || ((0 <? name_len) && (len data <? name_at + 1 + name_len))
  || ((0 <? designator_len)
      && (len data <? designator_at + 1 + designator_len)).

(** The three text fields of a payload, each by its offset and its
    declared length. *)
Definition pin_text_fields (data : bytes) : list (Z * Z) :=
  let desc_len := field_int data 12 1 false in
  let name_at := 14 + desc_len + 12 in
  let name_len := field_int data name_at 1 false in
  let designator_at := name_at + 1 + name_len in
  let designator_len := field_int data designator_at 1 false in
  [(14, desc_len); (name_at + 1, name_len);
   (designator_at + 1, designator_len)].

(** A pin payload that declares a name of 5 bytes and ends after 2. *)
Definition short_pin : bytes :=
  [x02; x00; x00; x00; x00; x01; x00; x00; x00; x00; x00; x00;
   x00; x00;
   x04; x00; x0a; x00; x00; x00; x00; x00; x00; x00; x00; x00;
   x05; x41; x42].

(** A component stream that ends inside its one record, a binary pin: the
    record declares 31 bytes and the stream ends after 29 of them, inside
    the 3-byte character that begins the name of the pin; there is no end
    marker. *)
Definition cut_pin_stream : bytes :=
  [x1f; x00; x00; x01;
   x02; x00; x00; x00; x00; x01; x00; x00; x00; x00; x00; x00;
   x00; x00;
   x04; x00; x0a; x00; x00; x00; x00; x00; x00; x00; x00; x00;
   x03; xe2; x82].

(** A component stream: [short_pin] as a binary pin record, then the end
    marker and one more byte. *)
Definition short_pin_stream : bytes :=
  [x1d; x00; x00; x01] ++ short_pin ++ [x00; x00; x00; x00; x00].

(** A block parser that returns on every buffer, at an offset not before
    the one it was given. *)
Definition returns_forward (parse_blocks : bytes -> Z -> result (primitive * Z))
  : Prop :=
  forall data offset,
    0 <= offset ->
    exists p offset',
      parse_blocks data offset = Ok (p, offset') /\ offset <= offset'.

(** The kind of a decoded primitive, as the tag of the kind. *)
Definition primitive_kind (p : primitive) : Z :=
  match p with
  | Arc _ _ => 1
  | Pad _ _ _ _ _ _ _ => 2
  | Track _ _ => 4
  | Text _ _ _ _ => 5
  | Fill _ _ => 6
  | Region _ _ _ _ _ => 11
  | ComponentBody _ _ => 12
  end.

(** The blocks a primitive keeps of those read for it. *)
Definition kept_blocks (p : primitive) : list bytes :=
  match p with
  | Arc block _ | Track block _ | Fill block _ => [block]
  | Pad _ block1 _ block3 block4 _ block5 => [block1; block3; block4; block5]
  | Text block0 _ block1 _ => [block0; block1]
  | Region block0 _ block1 _ _ => [block0; block1]
  | ComponentBody blocks _ => blocks
  end.

(** [n] blocks read one after the other with [read_block]: the blocks and
    the offset after the last. *)
Fixpoint read_blocks (n : nat) (data : bytes) (offset : Z)
  : list bytes * Z :=
  match n with
  | O => ([], offset)
  | S n' =>
      match read_block data offset with
      | Ok (block, offset') =>
          let '(blocks, last) := read_blocks n' data offset' in
          (block :: blocks, last)
      | Raise _ => ([], offset)
      end
  end.

(** A pass of the loop at [offset] that runs the block sequence
    [parse_blocks] of a kind behind the tag byte: the sequence returns a
    primitive of that kind, having read [count] blocks, of which the
    primitive keeps those at the places [kept]; the loop appends the
    primitive under the name [rname] and goes on at the offset after the
    last block. *)
Definition runs_block_sequence
           (data : bytes) (offset : Z) (fuel : nat)
           (prims : list (str * primitive))
           (parse_blocks : bytes -> Z -> result (primitive * Z))
           (rname : str) (kind : Z) (count : nat) (kept : list nat) : Prop :=
  exists p offset',
    parse_blocks data (offset + 1) = Ok (p, offset') /\
    primitive_kind p = kind /\
    offset' = snd (read_blocks count data (offset + 1)) /\
    map Some (kept_blocks p)
    = map (nth_error (fst (read_blocks count data (offset + 1)))) kept /\
    primitive_loop (S fuel) data offset prims
    = primitive_loop fuel data offset' (prims ++ [(rname, p)]).

(** A footprint stream after its name block: a Track with a 2-byte block,
    then a record of type 3, then a Track and the terminator. *)
Definition via_stream : bytes :=
  [x04; x02; x00; x00; x00; x41; x42;
   x03; x00; x00; x00; x00;
   x04; x00; x00; x00; x00;
   x00].

(** The double at an offset of a block, the test that it is neither a NaN
    nor an infinity, the count a vertices block declares and the number of
    its vertices the loop reads. *)
Definition double_at (block : bytes) (base : Z) : Z :=
  le_combine (slice block base (base + 8)).

Definition is_finite (bits : Z) : bool :=
  negb (Z.land (Z.shiftr bits 52) 2047 =? 2047).

Definition vertex_finite (block1 : bytes) (i : Z) : bool :=
  is_finite (double_at block1 (4 + i * 16))
  && is_finite (double_at block1 (4 + i * 16 + 8)).

Definition declared_vertices (block1 : bytes) : Z :=
  le_combine (slice block1 0 4).

Definition readable_vertices (block1 : bytes) : Z :=
  Z.min (declared_vertices block1) ((len block1 - 4) / 16).

Definition vertices_finite (block1 : bytes) : bool :=
  forallb (vertex_finite block1) (range (readable_vertices block1)).

(** A vertices block of [3 * 16 + 4] bytes that declares 3 vertices, the
    first coordinate of the first vertex a NaN. *)
Definition nan_vertices_block : bytes :=
  [x03; x00; x00; x00]
  ++ [x00; x00; x00; x00; x00; x00; xf8; x7f] ++ repeat x00 40.

(** A footprint stream after its name block: a Region with an empty
    properties block and [nan_vertices_block], then the terminator. *)
Definition nan_region_stream : bytes :=
  [x0b; x00; x00; x00; x00; x34; x00; x00; x00]
  ++ nan_vertices_block ++ [x00].

(** [v.to_bytes(n, 'little')] and the encoding of a block: its length in
    4 bytes, then its bytes. *)
Definition byte_of (z : Z) : byte :=
  match Byte.of_N (Z.to_N (z mod 256)) with
  | Some b => b
  | None => x00
  end.

Fixpoint to_bytes_le (n : nat) (v : Z) : bytes :=
  match n with
  | O => []
  | S n' => byte_of v :: to_bytes_le n' (v / 256)
  end.

Definition encode_block (payload : bytes) : bytes :=
  to_bytes_le 4 (len payload) ++ payload.

(** A primitive as it lies in the stream: its kind and its blocks. *)
Inductive raw_primitive : Type :=
| RawArc (block : bytes)
| RawPad (block0 block1 block2 block3 block4 block5 : bytes)
| RawTrack (block : bytes)
| RawText (block0 block1 : bytes)
| RawFill (block : bytes)
| RawRegion (block0 block1 : bytes)
| RawComponentBody (block_0 block_1 block_2 : bytes).

Definition raw_tag (r : raw_primitive) : byte :=
  match r with
  | RawArc _ => x01
  | RawPad _ _ _ _ _ _ => x02
  | RawTrack _ => x04
  | RawText _ _ => x05
  | RawFill _ => x06
  | RawRegion _ _ => x0b
  | RawComponentBody _ _ _ => x0c
  end.

Definition raw_blocks (r : raw_primitive) : list bytes :=
  match r with
  | RawArc b | RawTrack b | RawFill b => [b]
  | RawPad b0 b1 b2 b3 b4 b5 => [b0; b1; b2; b3; b4; b5]
  | RawText b0 b1 | RawRegion b0 b1 => [b0; b1]
  | RawComponentBody b0 b1 b2 => [b0; b1; b2]
  end.

Definition encode_blocks (blocks : list bytes) : bytes :=
  concat (map encode_block blocks).

Definition encode_primitive (r : raw_primitive) : bytes :=
  raw_tag r :: encode_blocks (raw_blocks r).

(** Well-formed: a primitive of one of the seven kinds with the blocks of
    its kind, none longer than the ceiling of [read_block]. *)
Definition well_formed (r : raw_primitive) : Prop :=
  Forall (fun b => len b <= 100000) (raw_blocks r).

(** The coordinates of the vertices that are read of a Region are finite
    numbers; this says nothing of the other kinds. *)
Definition finite_region (r : raw_primitive) : Prop :=
  match r with
  | RawRegion _ block1 => vertices_finite block1 = true
  | _ => True
  end.

(** What the blocks of a primitive decode to. *)
Definition decode_raw (r : raw_primitive) : result primitive :=
  match r with
  | RawArc block => g <- arc_fields block ;; Ok (Arc block g)
  | RawPad block0 block1 block2 block3 block4 block5 =>
      designator <- read_string_from_block block0 ;;
      block2_str <- read_string_from_block block2 ;;
      g <- pad_fields block4 ;;
      Ok (Pad designator block1 block2_str block3 block4 g block5)
  | RawTrack block => g <- track_fields block ;; Ok (Track block g)
  | RawText block0 block1 =>
      g <- text_fields block0 ;;
      content <- read_string_from_block block1 ;;
      Ok (Text block0 g block1 content)
  | RawFill block => g <- fill_fields block ;; Ok (Fill block g)
  | RawRegion block0 block1 =>
      layer <- region_layer block0 ;;
      '(vertex_count, vs) <- parse_region_vertices block1 ;;
      Ok (Region block0 layer block1 vertex_count vs)
  | RawComponentBody block_0 block_1 block_2 =>
      params <- body_params block_0 ;;
      Ok (ComponentBody [block_0; block_1; block_2] params)
  end.

Definition encode_primitives (rs : list raw_primitive) : bytes :=
  flat_map encode_primitive rs.

(** The primitives a list of raw primitives decodes to, each under the
    name of its kind. *)
Definition decodes_to (rs : list raw_primitive)
           (ps : list (str * primitive)) : Prop :=
  Forall2 (fun r np => fst np = rname_of (byte_val (raw_tag r)) /\
                       decode_raw r = Ok (snd np)) rs ps.

(** A stream of a Track, a Text and a Region, each well-formed, the
    vertex of the Region at (0.0, 0.0). *)
Definition three_primitives : list raw_primitive :=
  [RawTrack [x41; x42];
   RawText [] [x02; x48; x69];
   RawRegion [] ([x01; x00; x00; x00] ++ repeat x00 16)].

(** The bytes of an ASCII text. *)
Definition ascii_text (s : bytes) : str := map Byte.to_N s.

(** An entry a property text can give: no ["="] and no ["|"] in the key,
    no ["|"] in the value. *)
Definition property_entry (kv : str * str) : Prop :=
  contains 61 (fst kv) = false /\ contains 124 (fst kv) = false /\
  contains 124 (snd kv) = false.

(** A map written as property text: [key=value] pieces joined by ["|"];
    and the bytes of a text of ASCII characters. *)
Definition format_property (kv : str * str) : str :=
  (fst kv ++ 61%N :: snd kv)%list.

Definition format_properties (props : dict str) : str :=
  join 124 (map format_property props).

Definition encode_ascii (s : str) : bytes :=
  map (fun c => byte_of (Z.of_N c)) s.

Definition ascii_str (s : str) : Prop := Forall (fun c => (c < 128)%N) s.

(** The number of records filed in [records_by_type], over all ids. *)
Definition total_records (by_type : dict (list (dict pyval))) : Z :=
  fold_right (fun kv n => len (snd kv) + n) 0 by_type.

(** What every pass of the loop keeps: the record counter is the number of
    records filed, and every record counted took at least 5 bytes, of the
    offset and of the stream. *)
Definition loop_invariant (data : bytes) (st : loop_state) : Prop :=
  record_num st = total_records (records_by_type st) /\
  0 <= record_num st /\
  5 * record_num st <= offset st /\
  (record_num st = 0 \/ 5 * record_num st <= len data).

(** A binary pin with its fields, the two skipped bytes included, and
    the payload that holds it. *)
Record pin_record : Type := {
  pin_kind : Z;
  pin_skipped_1 : byte;
  pin_owner_part_id : Z;
  pin_display_mode : byte;
  pin_inner_edge : byte;
  pin_outer_edge : byte;
  pin_inside : byte;
  pin_outside : byte;
  pin_skipped_2 : byte;
  pin_description : bytes;
  pin_electrical_type : byte;
  pin_flags : byte;
  pin_length : Z;
  pin_x : Z;
  pin_y : Z;
  pin_color : Z;
  pin_name : bytes;
  pin_designator : bytes
}.

Definition encode_pin (p : pin_record) : bytes :=
  to_bytes_le 4 (pin_kind p)
  ++ [pin_skipped_1 p]
  ++ to_bytes_le 2 (pin_owner_part_id p)
  ++ [pin_display_mode p; pin_inner_edge p; pin_outer_edge p;
      pin_inside p; pin_outside p]
  ++ [byte_of (len (pin_description p)); pin_skipped_2 p]
  ++ pin_description p
  ++ [pin_electrical_type p; pin_flags p]
  ++ to_bytes_le 2 (pin_length p)
  ++ to_bytes_le 2 (pin_x p)
  ++ to_bytes_le 2 (pin_y p)
  ++ to_bytes_le 4 (pin_color p)
  ++ [byte_of (len (pin_name p))] ++ pin_name p
  ++ [byte_of (len (pin_designator p))] ++ pin_designator p.

(** The fields fit their widths, and the texts are ASCII of at most 255
    bytes. *)
Definition pin_in_range (p : pin_record) : Prop :=
  - 2 ^ 31 <= pin_kind p < 2 ^ 31 /\
  - 2 ^ 15 <= pin_owner_part_id p < 2 ^ 15 /\
  0 <= pin_length p < 2 ^ 16 /\
  - 2 ^ 15 <= pin_x p < 2 ^ 15 /\
  - 2 ^ 15 <= pin_y p < 2 ^ 15 /\
  - 2 ^ 31 <= pin_color p < 2 ^ 31 /\
  (ascii_only (pin_description p) /\ len (pin_description p) <= 255) /\
  (ascii_only (pin_name p) /\ len (pin_name p) <= 255) /\
  (ascii_only (pin_designator p) /\ len (pin_designator p) <= 255).

(** The property map of a pin. *)
Definition pin_props (p : pin_record) : dict pyval :=
  [(u "RECORD", VStr (str_of_int (pin_kind p)));
   (u "OwnerPartId", VInt (pin_owner_part_id p));
   (u "OwnerPartDisplayMode", VInt (byte_val (pin_display_mode p)));
   (u "Symbol_InnerEdge", VInt (byte_val (pin_inner_edge p)));
   (u "Symbol_OuterEdge", VInt (byte_val (pin_outer_edge p)));
   (u "Symbol_Inside", VInt (byte_val (pin_inside p)));
   (u "Symbol_Outside", VInt (byte_val (pin_outside p)));
   (u "Description", VStr (ascii_text (pin_description p)));
   (u "Electrical_Type", VInt (byte_val (pin_electrical_type p)));
   (u "Rotated", VBool (Z.testbit (byte_val (pin_flags p)) 0));
   (u "Flipped", VBool (Z.testbit (byte_val (pin_flags p)) 1));
   (u "Hide", VBool (Z.testbit (byte_val (pin_flags p)) 2));
   (u "Show_Name", VBool (Z.testbit (byte_val (pin_flags p)) 3));
   (u "Show_Designator", VBool (Z.testbit (byte_val (pin_flags p)) 4));
   (u "Length", VInt (pin_length p));
   (u "Location.X", VInt (pin_x p));
   (u "Location.Y", VInt (pin_y p));
   (u "Color", VInt (pin_color p));
   (u "Name", VStr (ascii_text (pin_name p)));
   (u "Designator", VStr (ascii_text (pin_designator p)))].

(** A record as it lies in a component stream: the length of its payload
    in 2 bytes, little-endian, its type in 2 bytes, big-endian, and the
    payload.  A record is well-formed when its type and the length of its
    payload fit 2 bytes, the payload is not empty, and its decoder
    returns. *)
Definition encode_record (r : Z * bytes) : bytes :=
  to_bytes_le 2 (len (snd r)) ++ rev (to_bytes_le 2 (fst r)) ++ snd r.

Definition encode_records (rs : list (Z * bytes)) : bytes :=
  flat_map encode_record rs.

Definition record_ok (r : Z * bytes) : Prop :=
  0 <= fst r < 2 ^ 16 /\ 1 <= len (snd r) < 2 ^ 16 /\
  returns (decode_record (fst r) (snd r)) = true.

(** The two errors [int(x)] can raise. *)
Definition conversion_error (e : exn) : Prop :=
  e = ValueError \/ e = OverflowError.

(** A block parser that, started inside the buffer, stays inside it. *)
Definition stays_inside (parse_blocks : bytes -> Z -> result (primitive * Z))
  : Prop :=
  forall data offset p offset',
    0 <= offset <= len data ->
    parse_blocks data offset = Ok (p, offset') ->
    offset <= offset' <= len data.
(** A footprint buffer: the name block of ["A"], a Track with an empty
    block, and the 0 tag. *)
Definition named_track : bytes :=
  [x02; x00; x00; x00; x01; x41; x04; x00; x00; x00; x00; x00].
(** An entry of the parameter map of a ComponentBody: a property entry
    whose value does not end in a NUL character. *)
Definition body_param_entry (kv : str * str) : Prop :=
  property_entry kv /\ last (snd kv) 1%N <> 0%N.

(** What [add_pair] does to the map when it returns. *)
Definition put_pair (params : dict str) (pair_ : str) : dict str :=
  if contains 61 pair_
  then dict_set params (before 61 pair_) (rstrip 0 (after 61 pair_))
  else params.

(** The bytes of a text of Latin-1 characters. *)
Definition encode_latin1 (s : str) : bytes :=
  map (fun c => byte_of (Z.of_N c)) s.

Definition latin1_str (s : str) : Prop := Forall (fun c => (c < 256)%N) s.
(** The entries of the listing that the loop takes for footprints: a
    [Data] stream in a storage that is not one of the two special ones and
    that has a [Parameters] path beside it. *)
Definition is_footprint (ole : ole_file) (entry : list str) : bool :=
  match entry with
  | [name; second] =>
      str_eqb second (u "Data") &&
      negb (str_eqb name (u "Library")) &&
      negb (str_eqb name (u "FileVersionInfo")) &&
      exists_ ole [name; u "Parameters"]
  | _ => false
  end.

Definition data_entry (f : footprint) : list str :=
  [storage_name f; u "Data"].

(** A footprint as the loop records it: its report is that of its [Data]
    stream, its text the first 200 ASCII characters of its [Parameters]
    stream. *)
Definition analysed_from (ole : ole_file) (f : footprint) : Prop :=
  exists params_data data,
    openstream ole [storage_name f; u "Parameters"] = Some params_data /\
    params_str f = slice (decode_ascii_ignore params_data) 0 200 /\
    openstream ole (data_entry f) = Some data /\
    parse_footprint_data data = Some (Ok (report f)).

(** A library of seven footprints beside the two special storages; every
    [Data] stream holds [named_track]. *)
Definition sample_listing : list (list str) :=
  [[u "FileHeader"];
   [u "Library"; u "Data"]; [u "Library"; u "Parameters"];
   [u "R0402"; u "Data"]; [u "R0402"; u "Parameters"];
   [u "R0603"; u "Data"]; [u "R0603"; u "Parameters"];
   [u "NoParams"; u "Data"];
   [u "FileVersionInfo"; u "Data"]; [u "FileVersionInfo"; u "Parameters"];
   [u "C0402"; u "Data"]; [u "C0402"; u "Parameters"];
   [u "C0603"; u "Data"]; [u "C0603"; u "Parameters"];
   [u "SOT23"; u "Data"]; [u "SOT23"; u "Parameters"];
   [u "SOIC8"; u "Data"]; [u "SOIC8"; u "Parameters"];
   [u "QFN16"; u "Data"]; [u "QFN16"; u "Parameters"]].

Definition path_eqb (a b : list str) : bool :=
  (length a =? length b)%nat &&
  forallb (fun ab => str_eqb (fst ab) (snd ab)) (combine a b).

Definition sample_library : ole_file :=
  {| listdir := sample_listing;
     exists_ := fun path => existsb (path_eqb path) sample_listing;
     openstream := fun path =>
       if existsb (path_eqb path) sample_listing then Some named_track
       else None |}.

(** What the loop makes of [sample_library]: its first five footprints. *)
Definition sample_footprint (name : string) : footprint :=
  {| storage_name := u name;
     params_str := decode_ascii_ignore named_track;
     report :=
       Primitives (u "A") 6
         {| how := Done; final_offset := 11;
            primitives := [(u "Track", Track [] None)] |} |}.

Definition sample_analysis : analysis :=
  {| footprints :=
       map sample_footprint ["R0402"; "R0603"; "C0402"; "C0603"; "SOT23"]%string;
     more_footprints := true |}.
(** A second stream: a Pad, and a Region of two vertices, at (0.0, 0.0)
    and at (1.0, -2.0). *)
Definition two_primitives : list raw_primitive :=
  [RawPad [x01; x31] [] [] [] [] [];
   RawRegion [x01]
     ([x02; x00; x00; x00] ++ repeat x00 16
      ++ [x00; x00; x00; x00; x00; x00; xf0; x3f]
      ++ [x00; x00; x00; x00; x00; x00; x00; xc0])].
(** Geometry written out: a signed 32-bit field and a double, little
    endian; and the values that fit them. *)
Definition i32 (v : Z) : bytes := to_bytes_le 4 v.
Definition f64 (bits : Z) : bytes := to_bytes_le 8 bits.

Definition int32 (v : Z) : Prop := - 2 ^ 31 <= v < 2 ^ 31.
Definition uint8 (v : Z) : Prop := 0 <= v < 256.
Definition bits64 (v : Z) : Prop := 0 <= v < 2 ^ 64.

(** The geometry block of a Pad: the layer, 12 bytes that are not read,
    the location and the three sizes, the hole size, then the shapes if
    the pad has them, then the rotation if it has one. *)
Definition encode_pad_geometry (head : bytes) (g : pad_geometry) : bytes :=
  byte_of (pad_layer g) :: head ++
  i32 (loc_x g) ++ i32 (loc_y g) ++
  i32 (size_top_x g) ++ i32 (size_top_y g) ++
  i32 (size_mid_x g) ++ i32 (size_mid_y g) ++
  i32 (size_bot_x g) ++ i32 (size_bot_y g) ++
  i32 (hole_size g) ++
  match pad_shapes g with
  | Some (top, mid, bot) => [byte_of top; byte_of mid; byte_of bot]
  | None => []
  end ++
  match pad_rotation g with
  | Some r => f64 r
  | None => []
  end.

Definition pad_in_range (g : pad_geometry) : Prop :=
  uint8 (pad_layer g) /\
  int32 (loc_x g) /\ int32 (loc_y g) /\
  int32 (size_top_x g) /\ int32 (size_top_y g) /\
  int32 (size_mid_x g) /\ int32 (size_mid_y g) /\
  int32 (size_bot_x g) /\ int32 (size_bot_y g) /\
  int32 (hole_size g) /\
  match pad_shapes g with
  | Some (top, mid, bot) => uint8 top /\ uint8 mid /\ uint8 bot
  | None => pad_rotation g = None
  end /\
  match pad_rotation g with
  | Some r => bits64 r
  | None => True
  end.

(** A round pad with a hole, at (-1000, 2000), turned by 90.0 degrees. *)
Definition sample_pad : pad_geometry :=
  {| pad_layer := 1; loc_x := -1000; loc_y := 2000;
     size_top_x := 600; size_top_y := 600;
     size_mid_x := 600; size_mid_y := 600;
     size_bot_x := 600; size_bot_y := 600;
     hole_size := 300; pad_shapes := Some (1, 1, 1);
     pad_rotation := Some 4636033603912859648 |}.

(** The blocks of a Track, an Arc, a Text and a Fill, up to the last field
    that is read.  In a Text two bytes that are not read come before the
    rotation. *)
Definition encode_track (head : bytes) (g : track_geometry) : bytes :=
  byte_of (track_layer g) :: head ++
  i32 (track_x1 g) ++ i32 (track_y1 g) ++
  i32 (track_x2 g) ++ i32 (track_y2 g) ++ i32 (track_width g).

Definition track_in_range (g : track_geometry) : Prop :=
  uint8 (track_layer g) /\
  int32 (track_x1 g) /\ int32 (track_y1 g) /\
  int32 (track_x2 g) /\ int32 (track_y2 g) /\ int32 (track_width g).

Definition encode_arc (head : bytes) (g : arc_geometry) : bytes :=
  byte_of (arc_layer g) :: head ++
  i32 (arc_cx g) ++ i32 (arc_cy g) ++ i32 (arc_radius g) ++
  f64 (start_angle g) ++ f64 (end_angle g).

Definition arc_in_range (g : arc_geometry) : Prop :=
  uint8 (arc_layer g) /\
  int32 (arc_cx g) /\ int32 (arc_cy g) /\ int32 (arc_radius g) /\
  bits64 (start_angle g) /\ bits64 (end_angle g).

Definition encode_text (head gap : bytes) (g : text_geometry) : bytes :=
  byte_of (text_layer g) :: head ++
  i32 (text_x g) ++ i32 (text_y g) ++ i32 (text_height g) ++
  match text_rotation g with
  | Some r => gap ++ f64 r
  | None => []
  end.

Definition text_in_range (g : text_geometry) : Prop :=
  uint8 (text_layer g) /\
  int32 (text_x g) /\ int32 (text_y g) /\ int32 (text_height g) /\
  match text_rotation g with
  | Some r => bits64 r
  | None => True
  end.

Definition encode_fill (head : bytes) (g : fill_geometry) : bytes :=
  byte_of (fill_layer g) :: head ++
  i32 (fill_x1 g) ++ i32 (fill_y1 g) ++
  i32 (fill_x2 g) ++ i32 (fill_y2 g) ++
  match fill_rotation g with
  | Some r => f64 r
  | None => []
  end.

Definition fill_in_range (g : fill_geometry) : Prop :=
  uint8 (fill_layer g) /\
  int32 (fill_x1 g) /\ int32 (fill_y1 g) /\
  int32 (fill_x2 g) /\ int32 (fill_y2 g) /\
  match fill_rotation g with
  | Some r => bits64 r
  | None => False
  end.

(** A lower-case hexadecimal digit. *)
Definition hex_char (c : N) : Prop :=
  (48 <= c <= 57)%N \/ (97 <= c <= 102)%N.

(** A character that a terminal prints as it is. *)
Definition printable (c : N) : Prop := (32 <= c < 127)%N.

(** The number that a text of lower-case hexadecimal digits writes. *)
Fixpoint hex_value (digits : str) (acc : N) : option N :=
  match digits with
  | [] => Some acc
  | c :: rest =>
      if (48 <=? c)%N && (c <=? 57)%N
      then hex_value rest (16 * acc + (c - 48))
      else if (97 <=? c)%N && (c <=? 102)%N
           then hex_value rest (16 * acc + (c - 87))
           else None
  end.

(** The header of a library written out: whatever properties come first,
    then the count of the components and their names, numbered from 0. *)
Fixpoint libref_entries (start : nat) (names : list str) : dict str :=
  match names with
  | [] => []
  | name :: rest =>
      ((u "LibRef" ++ str_of_int (Z.of_nat start))%list, name)
        :: libref_entries (S start) rest
  end.

Definition header_entries (others : dict str) (names : list str) : dict str :=
  (others ++ (u "CompCount", str_of_int (len names)) :: libref_entries 0 names)%list.

Definition encode_header (props : dict str) : bytes :=
  to_bytes_le 4 (len (format_properties props))
  ++ encode_ascii (format_properties props).

(** A property that is neither the count nor a name. *)
Definition other_property (kv : str * str) : Prop :=
  fst kv <> u "CompCount" /\ startswith (fst kv) (u "LibRef") = false.

Definition decimal_digit (c : N) : Prop := (48 <= c <= 57)%N.

(** An [int] that reads decimal numbers as [str] writes them. *)
Definition decimal_int (s : str) : result Z :=
  match NilZero.int_of_string (string_of_list_ascii (map ascii_of_N s)) with
  | Some d => Ok (Z.of_int d)
  | None => Raise ValueError
  end.

(** ** Facts about the Python layer *)

(** Boolean comparisons on [Z], decided in the goal. *)
Ltac zcompare :=
  repeat match goal with
         | |- context [(?a >? ?b)] => rewrite (Z.gtb_ltb a b)
         | |- context [(?a >=? ?b)] => rewrite (Z.geb_leb a b)
         | |- context [(?a <? ?b)] => destruct (Z.ltb_spec a b)
         | |- context [(?a <=? ?b)] => destruct (Z.leb_spec a b)
         | |- context [(?a =? ?b)] => destruct (Z.eqb_spec a b)
         end; cbn [orb andb negb]; try lia.

Section Sequences.
Context {A : Type}.
Implicit Types l pre mid rest : list A.

Lemma len_nonneg l : 0 <= len l.
Proof. unfold len; lia. Qed.

Lemma len_nil : len (@nil A) = 0.
Proof. reflexivity. Qed.

Lemma len_cons (x : A) l : len (x :: l) = 1 + len l.
Proof. unfold len; cbn [length]; lia. Qed.

Lemma len_app l rest : len (l ++ rest) = len l + len rest.
Proof. unfold len; rewrite length_app; lia. Qed.

Lemma len_slice l a b :
  0 <= a -> a <= b -> b <= len l -> len (slice l a b) = b - a.
Proof.
  unfold len, slice; intros.
  rewrite length_firstn, length_skipn; lia.
Qed.

Lemma len_slice_le l a b : 0 <= a -> a <= b -> len (slice l a b) <= b - a.
Proof.
  unfold len, slice; intros.
  rewrite length_firstn, length_skipn; lia.
Qed.

Lemma skipn_len_app pre rest : skipn (Z.to_nat (len pre)) (pre ++ rest) = rest.
Proof.
  unfold len; rewrite Nat2Z.id, skipn_app, skipn_all, Nat.sub_diag.
  reflexivity.
Qed.

(** A slice that starts after [pre] and spans [mid] is [mid]. *)
Lemma slice_middle pre mid rest a b :
  a = len pre -> b = a + len mid -> slice (pre ++ mid ++ rest) a b = mid.
Proof.
  intros -> ->; unfold slice.
  rewrite skipn_len_app.
  replace (len pre + len mid - len pre) with (len mid) by lia.
  unfold len; rewrite Nat2Z.id, firstn_app, firstn_all, Nat.sub_diag.
  cbn [firstn]; apply app_nil_r.
Qed.

(** A slice within [l] does not see what follows [l]. *)
Lemma slice_app_within l rest a b :
  0 <= a -> b <= len l -> slice (l ++ rest) a b = slice l a b.
Proof.
  unfold slice, len; intros Ha Hb.
  destruct (Z.le_gt_cases b a) as [Hle|Hgt].
  - replace (Z.to_nat (b - a)) with 0%nat by lia; reflexivity.
  - rewrite skipn_app, firstn_app, length_skipn.
    replace (Z.to_nat (b - a) - (length l - Z.to_nat a))%nat with 0%nat
      by lia.
    cbn [firstn]; apply app_nil_r.
Qed.

(** Where a slice sits in its sequence. *)
Lemma slice_position l a b :
  0 <= a -> a <= b -> b <= len l ->
  l = firstn (Z.to_nat a) l ++ slice l a b ++ skipn (Z.to_nat b) l.
Proof.
  unfold slice; intros.
  replace (Z.to_nat b) with (Z.to_nat (b - a) + Z.to_nat a)%nat by lia.
  rewrite <- skipn_skipn, !firstn_skipn; reflexivity.
Qed.
End Sequences.

Lemma byte_val_range b : 0 <= byte_val b < 256.
Proof.
  unfold byte_val; pose proof (Byte.to_N_bounded b); lia.
Qed.

Lemma le_combine_range bs : 0 <= le_combine bs < 256 ^ len bs.
Proof.
  induction bs as [|b t IH]; cbn [le_combine].
  - cbn; lia.
  - pose proof (byte_val_range b); pose proof (len_nonneg t).
    rewrite len_cons, Z.pow_add_r by lia.
    change (256 ^ 1) with 256. nia.
Qed.

Lemma int_from_bytes_unsigned bs :
  int_from_bytes bs little false = le_combine bs.
Proof. destruct bs; reflexivity. Qed.

(** [unpack_from] returns whenever the field lies inside the buffer. *)
Lemma unpack_from_ok f buf off :
  0 <= off -> off + calcsize f <= len buf ->
  exists v, unpack_from f buf off = Ok v.
Proof.
  intros; unfold unpack_from.
  zcompare; eauto.
Qed.

Lemma unpack_from_I buf off :
  0 <= off -> off + 4 <= len buf ->
  unpack_from fmt_I buf off = Ok (le_combine (slice buf off (off + 4))).
Proof.
  intros; unfold unpack_from; cbn [calcsize].
  zcompare. now rewrite int_from_bytes_unsigned.
Qed.

Lemma index_ok data i :
  0 <= i < len data -> exists v, index data i = Ok v /\ 0 <= v < 256.
Proof.
  intros [H0 H1]; unfold index.
  zcompare.
  destruct (nth_error data (Z.to_nat i)) as [b|] eqn:E.
  - exists (byte_val b); split; [reflexivity | apply byte_val_range].
  - apply nth_error_None in E; unfold len in *; lia.
Qed.

(** ** Facts about [read_block] *)

Lemma read_block_short data offset :
  len data < offset + 4 -> read_block data offset = Ok ([], offset).
Proof. intros; unfold read_block; zcompare; reflexivity. Qed.

Lemma read_block_spec data offset :
  0 <= offset -> offset + 4 <= len data ->
  let L := le_combine (slice data offset (offset + 4)) in
  read_block data offset =
    if (100000 <? L) || (len data <? offset + 4 + L) then Ok ([], offset)
    else Ok (slice data (offset + 4) (offset + 4 + L), offset + 4 + L).
Proof.
  intros H0 H4 L; unfold read_block.
  rewrite unpack_from_I by assumption; cbn [bind]; fold L.
  rewrite !Z.gtb_ltb.
  destruct (Z.ltb_spec (len data) (offset + 4)); [lia|reflexivity].
Qed.

(** The offset never moves backwards, and a block never raises. *)
Lemma read_block_total data offset :
  0 <= offset ->
  exists block offset',
    read_block data offset = Ok (block, offset') /\ offset <= offset'.
Proof.
  intros H0.
  destruct (Z.lt_ge_cases (len data) (offset + 4)) as [Hs|Hl].
  - rewrite read_block_short by assumption; eauto using Z.le_refl.
  - rewrite read_block_spec by lia.
    pose proof (le_combine_range (slice data offset (offset + 4))).
    destruct (_ || _); do 2 eexists; split; try reflexivity; lia.
Qed.

(** C2, as amended: for every offset and declared length [L] with
    [offset + 4 + L <= len(buffer)] and [L] not above the ceiling of 100000,
    [read_block] returns exactly the [L] bytes that follow the 4-byte
    little-endian length prefix and advances the offset by [4 + L]. *)
Theorem read_block_returns_declared_bytes (data : bytes) (offset L : Z) :
  0 <= offset ->
  unpack_from fmt_I data offset = Ok L ->
  L <= 100000 ->
  offset + 4 + L <= len data ->
  exists block,
    read_block data offset = Ok (block, offset + (4 + L)) /\
    len block = L /\
    data = firstn (Z.to_nat (offset + 4)) data ++ block
             ++ skipn (Z.to_nat (offset + 4 + L)) data.
Proof.
  intros H0 HL Hceil Hfit.
  destruct (Z.lt_ge_cases (len data) (offset + 4)) as [Hs|Hl].
  { unfold unpack_from in HL; cbn [calcsize] in HL.
    destruct (Z.ltb_spec (len data) (offset + 4)); [|lia].
    rewrite orb_true_r in HL; discriminate. }
  rewrite unpack_from_I in HL by lia.
  injection HL as HL.
  pose proof (le_combine_range (slice data offset (offset + 4))) as Hr.
  rewrite HL in Hr.
  rewrite read_block_spec by lia; cbv zeta; rewrite HL.
  destruct (Z.ltb_spec 100000 L); [lia|].
  destruct (Z.ltb_spec (len data) (offset + 4 + L)); [lia|].
  cbn [orb].
  exists (slice data (offset + 4) (offset + 4 + L)); repeat split.
  - do 2 f_equal; lia.
  - rewrite len_slice; lia.
  - apply slice_position; lia.
Qed.

Lemma read_block_returns_declared_bytes_witness :
  exists block,
    read_block [x02; x00; x00; x00; x41; x42; x43] 0 = Ok (block, 0 + (4 + 2)) /\
    len block = 2 /\
    [x02; x00; x00; x00; x41; x42; x43] =
      firstn (Z.to_nat (0 + 4)) [x02; x00; x00; x00; x41; x42; x43] ++ block
        ++ skipn (Z.to_nat (0 + 4 + 2)) [x02; x00; x00; x00; x41; x42; x43].
Proof.
  apply (read_block_returns_declared_bytes
           [x02; x00; x00; x00; x41; x42; x43] 0 2).
  - lia.
  - reflexivity.
  - lia.
  - vm_compute; discriminate.
Defined.

(** C2, as stated, fails above the ceiling: a buffer holding the prefix
    for 100001 and 100001 bytes after it satisfies
    [offset + 4 + L <= len(buffer)], yet nothing is returned and the offset
    stays. *)
Lemma read_block_above_ceiling :
  unpack_from fmt_I ([xa1; x86; x01; x00] ++ repeat x00 (Z.to_nat 100001)) 0
    = Ok 100001 /\
  0 + 4 + 100001 <= len ([xa1; x86; x01; x00] ++ repeat x00 (Z.to_nat 100001)) /\
  read_block ([xa1; x86; x01; x00] ++ repeat x00 (Z.to_nat 100001)) 0 = Ok ([], 0).
Proof.
  split; [vm_compute; reflexivity|].
  split; [vm_compute; discriminate|].
  vm_compute; reflexivity.
Qed.

(** C9, as amended: on every buffer and offset on which [read_block] fails
    it returns an empty block together with the offset unchanged; the
    block is the one a genuine zero-length block gives, and the two returns
    differ in the offset only, which a zero-length block moves on by 4. *)
Theorem read_block_failure_keeps_offset (data : bytes) (offset : Z) :
  0 <= offset ->
  (read_fails data offset -> read_block data offset = Ok ([], offset)) /\
  (unpack_from fmt_I data offset = Ok 0 ->
   read_block data offset = Ok ([], offset + 4)).
Proof.
  intros H0; split.
  - intros [Hs | (L & HL & Hbad)].
    + now apply read_block_short.
    + destruct (Z.lt_ge_cases (len data) (offset + 4)) as [Hs|Hl];
        [now apply read_block_short|].
      rewrite unpack_from_I in HL by lia; injection HL as HL.
      rewrite read_block_spec by lia; cbv zeta; rewrite HL.
      destruct (Z.ltb_spec 100000 L); [reflexivity|].
      destruct (Z.ltb_spec (len data) (offset + 4 + L)); [reflexivity|lia].
  - intros HL.
    destruct (Z.lt_ge_cases (len data) (offset + 4)) as [Hs|Hl].
    { unfold unpack_from in HL; cbn [calcsize] in HL.
      destruct (Z.ltb_spec (len data) (offset + 4)); [|lia].
      rewrite orb_true_r in HL; discriminate. }
    rewrite unpack_from_I in HL by lia; injection HL as HL.
    rewrite read_block_spec by lia; cbv zeta; rewrite HL.
    destruct (Z.ltb_spec (len data) (offset + 4 + 0)); [lia|].
    cbn [Z.ltb Z.compare orb]; unfold slice.
    replace (Z.to_nat (offset + 4 + 0 - (offset + 4))) with 0%nat by lia.
    cbn [firstn]; do 2 f_equal; lia.
Qed.

Lemma read_block_failure_keeps_offset_witness :
  (read_fails [x05; x00; x00; x00; x41] 0 ->
   read_block [x05; x00; x00; x00; x41] 0 = Ok ([], 0)) /\
  (unpack_from fmt_I [x05; x00; x00; x00; x41] 0 = Ok 0 ->
   read_block [x05; x00; x00; x00; x41] 0 = Ok ([], 0 + 4)).
Proof.
  apply (read_block_failure_keeps_offset [x05; x00; x00; x00; x41] 0); lia.
Defined.

(** C9, as stated, fails in its last part: the return of a failed read
    and the return of a successful read of a zero-length block are told
    apart by the offset. *)
Lemma read_block_failure_distinguishable :
  read_fails [x05; x00; x00; x00; x41] 0 /\
  unpack_from fmt_I [x00; x00; x00; x00; x41] 0 = Ok 0 /\
  read_block [x05; x00; x00; x00; x41] 0 = Ok ([], 0) /\
  read_block [x00; x00; x00; x00; x41] 0 = Ok ([], 4) /\
  read_block [x05; x00; x00; x00; x41] 0
    <> read_block [x00; x00; x00; x00; x41] 0.
Proof.
  split.
  { right; exists 5; split; [reflexivity|right; vm_compute; reflexivity]. }
  repeat split; discriminate.
Qed.

(** ** Facts about [str] and [dict] *)

Lemma str_eqb_spec a b : reflect (a = b) (str_eqb a b).
Proof.
  revert b; induction a as [|x a IH]; intros [|y b]; cbn [str_eqb];
    try (constructor; congruence).
  destruct (N.eqb_spec x y) as [->|Hne]; cbn [andb].
  - destruct (IH b) as [->|Hne]; constructor; congruence.
  - constructor; congruence.
Qed.

Lemma str_eqb_refl a : str_eqb a a = true.
Proof. destruct (str_eqb_spec a a); congruence. Qed.

Lemma dict_get_set {V} (d : dict V) k v k' :
  dict_get (dict_set d k v) k' =
    if str_eqb k k' then Some v else dict_get d k'.
Proof.
  induction d as [|[k0 v0] d IH]; cbn [dict_set dict_get].
  - reflexivity.
  - destruct (str_eqb_spec k0 k) as [->|Hne]; cbn [dict_get].
    + destruct (str_eqb_spec k k'); reflexivity.
    + rewrite IH.
      destruct (str_eqb_spec k0 k') as [->|]; [|reflexivity].
      destruct (str_eqb_spec k k'); congruence.
Qed.

Lemma split1_contains sep s :
  contains sep s = true -> split1 sep s = [before sep s; after sep s].
Proof.
  unfold contains; induction s as [|c t IH]; cbn [existsb split1 before after].
  - discriminate.
  - rewrite (N.eqb_sym sep c).
    destruct (N.eqb_spec c sep); cbn [orb]; [reflexivity|].
    intros H; rewrite (IH H); reflexivity.
Qed.

Lemma add_part_put props part :
  add_part props part = Ok (put_piece props part).
Proof.
  unfold add_part, put_piece.
  destruct (contains 61 part) eqn:E; [|reflexivity].
  rewrite (split1_contains _ _ E); reflexivity.
Qed.

Lemma add_parts_put props parts :
  add_parts props parts = Ok (fold_left put_piece parts props).
Proof.
  revert props; induction parts as [|part rest IH]; intros props;
    cbn [add_parts fold_left]; [reflexivity|].
  rewrite add_part_put; cbn [bind]; apply IH.
Qed.

Lemma dict_get_put_pieces pieces props k :
  dict_get (fold_left put_piece pieces props) k =
    match last_value k pieces with
    | Some v => Some v
    | None => dict_get props k
    end.
Proof.
  revert props; induction pieces as [|piece rest IH]; intros props;
    cbn [fold_left last_value]; [reflexivity|].
  rewrite IH.
  destruct (last_value k rest); [reflexivity|].
  unfold put_piece.
  destruct (contains 61 piece); cbn [andb]; [|reflexivity].
  rewrite dict_get_set; destruct (str_eqb _ k); reflexivity.
Qed.

(** ** Facts about the code page *)

Lemma cp1252_char_undefined b :
  cp1252_char b = None <-> cp1252_undefined b = true.
Proof. destruct b; vm_compute; split; congruence. Qed.

Lemma decode_cp1252_undefined data :
  existsb cp1252_undefined data = true ->
  decode_cp1252 data = Raise UnicodeDecodeError.
Proof.
  unfold decode_cp1252; induction data as [|b t IH];
    cbn [existsb decode_charmap]; [discriminate|].
  destruct (cp1252_char b) eqn:E; [|reflexivity].
  destruct (cp1252_undefined b) eqn:U.
  - apply cp1252_char_undefined in U; congruence.
  - cbn [orb]; intros H; rewrite (IH H); reflexivity.
Qed.

Lemma decode_cp1252_defined data :
  existsb cp1252_undefined data = false ->
  exists text, decode_cp1252 data = Ok text /\ length text = length data.
Proof.
  unfold decode_cp1252; induction data as [|b t IH];
    cbn [existsb decode_charmap]; [now exists []|].
  intros H; apply orb_false_iff in H as [U H].
  destruct (cp1252_char b) as [c|] eqn:E.
  - destruct (IH H) as (text & -> & Hlen).
    exists (c :: text); cbn [bind length]; auto.
  - apply cp1252_char_undefined in E; congruence.
Qed.

Lemma decode_cp1252_raises_only data e :
  decode_cp1252 data = Raise e -> existsb cp1252_undefined data = true.
Proof.
  destruct (existsb cp1252_undefined data) eqn:E; [reflexivity|].
  destruct (decode_cp1252_defined data E) as (text & -> & _); discriminate.
Qed.

Lemma parse_properties_decoded data text :
  decode_cp1252 data = Ok text ->
  parse_properties data = Ok (fold_left put_piece (split 124 text) []).
Proof.
  intros H; unfold parse_properties; rewrite H; cbn [bind].
  rewrite add_parts_put; reflexivity.
Qed.

Lemma parse_properties_undecodable data e :
  decode_cp1252 data = Raise e -> parse_properties data = Ok [].
Proof. intros H; unfold parse_properties; rewrite H; reflexivity. Qed.

Lemma read_string_from_block_total block :
  exists s, read_string_from_block block = Ok s.
Proof.
  unfold read_string_from_block.
  destruct (Z.ltb_spec (len block) 1); [eauto|].
  destruct (index_ok block 0) as (n & -> & _); [lia|]; cbn [bind].
  destruct (n + 1 >? len block); [eauto|].
  destruct (decode_cp1252 _); cbn [try_except]; eauto.
Qed.

(** C3, as amended: no error of text decoding leaves the property-text
    parser or the embedded-string extraction.  The code page maps every
    byte value to a character except 0x81, 0x8D, 0x8F, 0x90 and 0x9D; when
    the bytes to decode hold one of these, the failure is caught and the
    parser returns the empty map, the extraction the empty string; on all
    other inputs the decoding succeeds. *)
Theorem text_decoding_errors_are_caught :
  (forall b, cp1252_char b = None <-> cp1252_undefined b = true) /\
  (forall data,
      exists props,
        parse_properties data = Ok props /\
        (if existsb cp1252_undefined data
         then decode_cp1252 data = Raise UnicodeDecodeError /\ props = []
         else exists text, decode_cp1252 data = Ok text)) /\
  (forall block,
      exists s,
        read_string_from_block block = Ok s /\
        forall n, index block 0 = Ok n -> n + 1 <= len block ->
          if existsb cp1252_undefined (slice block 1 (1 + n))
          then s = []
          else decode_cp1252 (slice block 1 (1 + n)) = Ok s).
Proof.
  split; [exact cp1252_char_undefined|split].
  - intros data.
    destruct (existsb cp1252_undefined data) eqn:E.
    + pose proof (decode_cp1252_undefined data E) as H.
      exists []; split; [eapply parse_properties_undecodable; eauto|auto].
    + destruct (decode_cp1252_defined data E) as (text & H & _).
      eexists; split; [apply (parse_properties_decoded _ _ H)|eauto].
  - intros block.
    destruct (read_string_from_block_total block) as (s & Hs).
    exists s; split; [assumption|].
    intros n Hn Hfit.
    unfold read_string_from_block in Hs.
    destruct (Z.ltb_spec (len block) 1).
    { unfold index in Hn.
      destruct (Z.ltb_spec 0 (len block)); [lia|].
      cbn in Hn; discriminate. }
    rewrite Hn in Hs; cbn [bind] in Hs.
    rewrite Z.gtb_ltb in Hs.
    destruct (Z.ltb_spec (len block) (n + 1)); [lia|].
    destruct (existsb cp1252_undefined (slice block 1 (1 + n))) eqn:E.
    + rewrite (decode_cp1252_undefined _ E) in Hs; cbn in Hs; congruence.
    + destruct (decode_cp1252_defined _ E) as (text & H' & _).
      rewrite H' in Hs; cbn in Hs; congruence.
Qed.

(** C3, as stated, fails: byte 0x81 has no character in the code page, so
    the decoding of a text that holds it does not succeed; the parser then
    returns an empty map and the extraction an empty string, whatever else
    the text holds. *)
Lemma cp1252_is_not_total :
  cp1252_char x81 = None /\
  decode_cp1252 (ascii_bytes "A=1|B=" ++ [x81]) = Raise UnicodeDecodeError /\
  parse_properties (ascii_bytes "A=1|B=" ++ [x81]) = Ok [] /\
  parse_properties (ascii_bytes "A=1|B=") = Ok [(u "A", u "1"); (u "B", [])] /\
  read_string_from_block ([x03; x41; x81; x42]) = Ok [].
Proof. repeat split. Qed.

(** C6: the property-text parser splits the text on ["|"] and each piece
    on its first ["="]; a piece without ["="] is dropped without error, and
    of several pieces with one key the last gives the value.  So
    ["A=1|B=2|C"] yields [{A:"1", B:"2"}] and ["A=1|A=2"] yields
    [{A:"2"}]. *)
Theorem parse_properties_last_write_wins :
  parse_properties (ascii_bytes "A=1|B=2|C")
    = Ok [(u "A", u "1"); (u "B", u "2")] /\
  parse_properties (ascii_bytes "A=1|A=2") = Ok [(u "A", u "2")] /\
  forall data text,
    decode_cp1252 data = Ok text ->
    exists props,
      parse_properties data = Ok props /\
      props = fold_left put_piece (split 124 text) [] /\
      forall k, dict_get props k = last_value k (split 124 text).
Proof.
  split; [reflexivity|split; [reflexivity|]].
  intros data text H.
  eexists; split; [apply (parse_properties_decoded _ _ H)|].
  split; [reflexivity|].
  intros k; rewrite dict_get_put_pieces.
  destruct (last_value k (split 124 text)); reflexivity.
Qed.

Lemma parse_properties_last_write_wins_witness :
  exists props,
    parse_properties (ascii_bytes "X=1|Y|X=2=3|Z=") = Ok props /\
    props = fold_left put_piece (split 124 (u "X=1|Y|X=2=3|Z=")) [] /\
    forall k, dict_get props k = last_value k (split 124 (u "X=1|Y|X=2=3|Z=")).
Proof.
  apply (proj2 (proj2 parse_properties_last_write_wins)
               (ascii_bytes "X=1|Y|X=2=3|Z=") (u "X=1|Y|X=2=3|Z=")).
  reflexivity.
Defined.

(** ** Facts about the SchLib record loop *)

Lemma parse_properties_total data : exists props, parse_properties data = Ok props.
Proof.
  destruct (decode_cp1252 data) as [text|e] eqn:E.
  - eexists; apply (parse_properties_decoded _ _ E).
  - eexists; apply (parse_properties_undecodable _ _ E).
Qed.

Lemma record_step_exit data st :
  len data - 4 <= offset st -> record_step data st = Ok (Stop ConditionFalse).
Proof. intros; unfold record_step; zcompare; reflexivity. Qed.

Lemma record_step_end_marker data st :
  offset st < len data - 4 -> record_length_at data (offset st) = 0 ->
  record_step data st = Ok (Stop EndMarker).
Proof.
  unfold record_length_at; intros H H0; unfold record_step.
  rewrite H0; zcompare; reflexivity.
Qed.

Lemma record_step_decoded data st props rec_id :
  offset st < len data - 4 ->
  record_length_at data (offset st) <> 0 ->
  decode_record (record_type_at data (offset st))
                (record_data_at data (offset st)) = Ok (props, rec_id) ->
  record_step data st =
    Ok (Next {| offset := offset st + (4 + record_length_at data (offset st));
                record_num := record_num st + 1;
                records_by_type :=
                  track_record (records_by_type st) rec_id props |}).
Proof.
  unfold record_data_at, record_type_at, record_length_at.
  intros H Hlen Hdec; unfold record_step.
  destruct (Z.ltb_spec (offset st) (len data - 4)); [|lia].
  destruct (Z.eqb_spec
              (int_from_bytes (slice data (offset st) (offset st + 2))
                              little false) 0); [contradiction|].
  rewrite Hdec; reflexivity.
Qed.

Lemma record_step_raised data st e :
  offset st < len data - 4 ->
  record_length_at data (offset st) <> 0 ->
  decode_record (record_type_at data (offset st))
                (record_data_at data (offset st)) = Raise e ->
  record_step data st = Raise e.
Proof.
  unfold record_data_at, record_type_at, record_length_at.
  intros H Hlen Hdec; unfold record_step.
  destruct (Z.ltb_spec (offset st) (len data - 4)); [|lia].
  destruct (Z.eqb_spec
              (int_from_bytes (slice data (offset st) (offset st + 2))
                              little false) 0); [contradiction|].
  rewrite Hdec; reflexivity.
Qed.

Lemma decode_record_not_pin record_type record_data :
  record_type <> 1 ->
  exists props rec_id, decode_record record_type record_data = Ok (props, rec_id).
Proof.
  intros H; unfold decode_record.
  destruct (Z.eqb_spec record_type 0).
  - destruct (parse_properties_total record_data) as (props & ->);
      cbn [bind]; eauto.
  - destruct (Z.eqb_spec record_type 1); [contradiction|eauto].
Qed.

Lemma decode_record_pin record_data :
  decode_record 1 record_data =
    match parse_binary_pin record_data with
    | Ok props => Ok (props, u "2-binary")
    | Raise e => Raise e
    end.
Proof.
  unfold decode_record; cbn [Z.eqb].
  destruct (parse_binary_pin record_data); reflexivity.
Qed.

(** C4, as amended: for every record read whose payload decoder returns,
    the cursor advances by exactly [4 + recordLength].  The decoder
    returns for every text record, decodable or not, and for every record
    of a type other than 0 and 1; for a binary pin record it returns or
    raises, and when it raises the record loop raises with it instead of
    advancing. *)
Theorem record_cursor_advances (data : bytes) (st : loop_state) :
  0 <= offset st ->
  offset st < len data - 4 ->
  record_length_at data (offset st) <> 0 ->
  (forall props rec_id,
      decode_record (record_type_at data (offset st))
                    (record_data_at data (offset st)) = Ok (props, rec_id) ->
      exists st',
        record_step data st = Ok (Next st') /\
        offset st' = offset st + (4 + record_length_at data (offset st))) /\
  (record_type_at data (offset st) <> 1 ->
   exists st',
     record_step data st = Ok (Next st') /\
     offset st' = offset st + (4 + record_length_at data (offset st))) /\
  (record_type_at data (offset st) = 1 ->
   forall e,
     parse_binary_pin (record_data_at data (offset st)) = Raise e ->
     record_step data st = Raise e).
Proof.
  intros _ H Hlen; split; [|split].
  - intros props rec_id Hdec.
    eexists; split; [apply (record_step_decoded _ _ _ _ H Hlen Hdec)|].
    reflexivity.
  - intros Hty.
    destruct (decode_record_not_pin _ (record_data_at data (offset st)) Hty)
      as (props & rec_id & Hdec).
    eexists; split; [apply (record_step_decoded _ _ _ _ H Hlen Hdec)|].
    reflexivity.
  - intros Hty e He.
    apply record_step_raised; try assumption.
    rewrite Hty, decode_record_pin, He; reflexivity.
Qed.

Lemma record_cursor_advances_witness :
  (forall props rec_id,
      decode_record
        (record_type_at bad_pin_stream
           (offset {| offset := 19; record_num := 1; records_by_type := [] |}))
        (record_data_at bad_pin_stream
           (offset {| offset := 19; record_num := 1; records_by_type := [] |}))
        = Ok (props, rec_id) ->
      exists st',
        record_step bad_pin_stream
          {| offset := 19; record_num := 1; records_by_type := [] |}
          = Ok (Next st') /\
        offset st' = 19 + (4 + record_length_at bad_pin_stream 19)) /\
  (record_type_at bad_pin_stream 19 <> 1 ->
   exists st',
     record_step bad_pin_stream
       {| offset := 19; record_num := 1; records_by_type := [] |}
       = Ok (Next st') /\
     offset st' = 19 + (4 + record_length_at bad_pin_stream 19)) /\
  (record_type_at bad_pin_stream 19 = 1 ->
   forall e,
     parse_binary_pin (record_data_at bad_pin_stream 19) = Raise e ->
     record_step bad_pin_stream
       {| offset := 19; record_num := 1; records_by_type := [] |} = Raise e).
Proof.
  apply (record_cursor_advances bad_pin_stream
           {| offset := 19; record_num := 1; records_by_type := [] |}).
  - cbn; lia.
  - vm_compute; reflexivity.
  - vm_compute; discriminate.
Defined.

(** C4, as stated, fails: at a binary pin record whose description is not
    UTF-8 the payload decoder raises, the cursor does not advance, and the
    text record that follows is never decoded: the component ends with the
    error caught around it. *)
Lemma record_cursor_stuck_at_bad_pin :
  record_length_at bad_pin_stream 0 = 15 /\
  record_type_at bad_pin_stream 0 = 1 /\
  parse_binary_pin (record_data_at bad_pin_stream 0)
    = Raise UnicodeDecodeError /\
  record_step bad_pin_stream initial_state = Raise UnicodeDecodeError /\
  analyze_component bad_pin_stream = ErrorReadingDataStream UnicodeDecodeError.
Proof. repeat split. Qed.

(** *** Termination and the end of the stream *)

Lemma record_length_at_nonneg data off : 0 <= record_length_at data off.
Proof.
  unfold record_length_at; rewrite int_from_bytes_unsigned.
  apply le_combine_range.
Qed.

(** What a pass that goes on to the next record has established. *)
Lemma record_step_next_inv data st st' :
  record_step data st = Ok (Next st') ->
  offset st < len data - 4 /\
  0 < record_length_at data (offset st) /\
  offset st' = offset st + (4 + record_length_at data (offset st)) /\
  exists props rec_id,
    decode_record (record_type_at data (offset st))
                  (record_data_at data (offset st)) = Ok (props, rec_id) /\
    st' = {| offset := offset st + (4 + record_length_at data (offset st));
             record_num := record_num st + 1;
             records_by_type :=
               track_record (records_by_type st) rec_id props |}.
Proof.
  pose proof (record_length_at_nonneg data (offset st)) as Hn.
  unfold record_step.
  fold (record_length_at data (offset st)).
  fold (record_type_at data (offset st)).
  fold (record_data_at data (offset st)).
  destruct (Z.ltb_spec (offset st) (len data - 4)); [|discriminate].
  destruct (Z.eqb_spec (record_length_at data (offset st)) 0); [discriminate|].
  destruct (decode_record _ _) as [[props rec_id]|e]; cbn [bind];
    [|discriminate].
  intros [= <-]; cbn [offset]; repeat split; try lia.
  exists props, rec_id; split; reflexivity.
Qed.

Lemma record_step_stop_inv data st how_ :
  record_step data st = Ok (Stop how_) ->
  match how_ with
  | ConditionFalse => len data - 4 <= offset st
  | EndMarker =>
      offset st < len data - 4 /\ record_length_at data (offset st) = 0
  end.
Proof.
  unfold record_step.
  fold (record_length_at data (offset st)).
  destruct (Z.ltb_spec (offset st) (len data - 4)).
  - destruct (Z.eqb_spec (record_length_at data (offset st)) 0).
    + intros [= <-]; auto.
    + destruct (decode_record _ _) as [[props rec_id]|e]; discriminate.
  - intros [= <-]; assumption.
Qed.

Lemma record_loop_more_fuel fuel fuel' data st r :
  record_loop fuel data st = Some r -> (fuel <= fuel')%nat ->
  record_loop fuel' data st = Some r.
Proof.
  revert fuel' st; induction fuel as [|fuel IH]; intros fuel' st;
    cbn [record_loop]; [discriminate|].
  intros H Hle; destruct fuel' as [|fuel']; [lia|]; cbn [record_loop].
  destruct (record_step data st) as [[how_|st']|e]; try assumption.
  apply IH; [assumption|lia].
Qed.

Lemma record_loop_terminates fuel data st :
  (Z.to_nat (len data - offset st) < fuel)%nat ->
  exists r, record_loop fuel data st = Some r.
Proof.
  revert st; induction fuel as [|fuel IH]; intros st Hf; [lia|].
  cbn [record_loop].
  destruct (record_step data st) as [[how_|st']|e] eqn:E; eauto.
  apply record_step_next_inv in E as (H1 & H2 & H3 & _).
  apply IH; lia.
Qed.

Lemma analyze_component_completes data : analyze_component data <> Diverged.
Proof.
  unfold analyze_component.
  destruct (record_loop_terminates (record_fuel data initial_state) data
              initial_state) as (r & ->); [unfold record_fuel; lia|].
  destruct r as [[how_ st]|e]; discriminate.
Qed.

Lemma record_loop_offset_grows fuel data st how_ st_end :
  record_loop fuel data st = Some (Ok (how_, st_end)) ->
  offset st <= offset st_end.
Proof.
  revert st; induction fuel as [|fuel IH]; intros st; cbn [record_loop];
    [discriminate|].
  destruct (record_step data st) as [[h|st']|e] eqn:E.
  - intros [= _ <-]; lia.
  - intros H; apply IH in H.
    apply record_step_next_inv in E as (_ & H2 & H3 & _); lia.
  - discriminate.
Qed.

Lemma record_loop_end_marker fuel data st st_end :
  record_loop fuel data st = Some (Ok (EndMarker, st_end)) ->
  offset st_end + 5 <= len data.
Proof.
  revert st; induction fuel as [|fuel IH]; intros st; cbn [record_loop];
    [discriminate|].
  destruct (record_step data st) as [[h|st']|e] eqn:E.
  - intros [= -> <-]; apply record_step_stop_inv in E; lia.
  - apply IH.
  - discriminate.
Qed.

(** A pass over a record that lies inside [body] does not depend on what
    follows [body]. *)
Lemma record_step_app body tail st st' :
  0 <= offset st ->
  record_step body st = Ok (Next st') -> offset st' <= len body ->
  record_step (body ++ tail) st = Ok (Next st').
Proof.
  intros H0 E Hin.
  apply record_step_next_inv in E
    as (H1 & H2 & H3 & props & rec_id & Hdec & ->).
  pose proof (len_nonneg tail) as Ht.
  cbn [offset] in Hin.
  assert (Hl : record_length_at (body ++ tail) (offset st)
               = record_length_at body (offset st)).
  { unfold record_length_at; rewrite slice_app_within by lia; reflexivity. }
  assert (Hty : record_type_at (body ++ tail) (offset st)
                = record_type_at body (offset st)).
  { unfold record_type_at; rewrite slice_app_within by lia; reflexivity. }
  assert (Hd : record_data_at (body ++ tail) (offset st)
               = record_data_at body (offset st)).
  { unfold record_data_at; rewrite Hl, slice_app_within by lia; reflexivity. }
  rewrite (record_step_decoded (body ++ tail) st props rec_id).
  - rewrite Hl; reflexivity.
  - rewrite len_app; lia.
  - rewrite Hl; lia.
  - rewrite Hty, Hd; exact Hdec.
Qed.

(** When the records fill [body] exactly, up to four more bytes after
    them change nothing: the loop leaves by its condition, with the same
    records, and does not look at those bytes. *)
Lemma record_loop_ignores_tail fuel body tail st st_end :
  0 <= offset st -> len tail <= 4 ->
  record_loop fuel body st = Some (Ok (ConditionFalse, st_end)) ->
  offset st_end = len body ->
  record_loop fuel (body ++ tail) st = Some (Ok (ConditionFalse, st_end)).
Proof.
  intros H0 Ht; revert st H0; induction fuel as [|fuel IH]; intros st H0;
    cbn [record_loop]; [discriminate|].
  destruct (record_step body st) as [[h|st']|e] eqn:E.
  - intros [= -> <-] Hend.
    apply record_step_stop_inv in E.
    rewrite record_step_exit; [reflexivity|rewrite len_app; lia].
  - intros H Hend.
    pose proof (record_loop_offset_grows _ _ _ _ _ H) as Hg.
    pose proof (record_step_next_inv _ _ _ E) as (_ & H2 & H3 & _).
    rewrite (record_step_app body tail st st') by (assumption || lia).
    apply IH; [lia|assumption..].
  - discriminate.
Qed.

(** ** Facts about the binary pin decoder *)

Lemma ascii_only_firstn n bs : ascii_only bs -> ascii_only (firstn n bs).
Proof.
  unfold ascii_only; intros H; revert n.
  induction H; intros [|n]; cbn [firstn]; constructor; auto.
Qed.

Lemma ascii_only_skipn n bs : ascii_only bs -> ascii_only (skipn n bs).
Proof.
  unfold ascii_only; intros H; revert n.
  induction H; intros [|n]; cbn [skipn]; auto.
Qed.

Lemma decode_utf8_ascii bs :
  ascii_only bs -> decode_utf8 bs = Ok (map Byte.to_N bs).
Proof.
  unfold ascii_only; induction 1 as [|b t Hb Ht IH]; [reflexivity|].
  cbn [decode_utf8 map].
  destruct (N.ltb_spec (Byte.to_N b) 128); [|lia].
  rewrite IH; reflexivity.
Qed.

(** [decode_utf8] raises nothing but [UnicodeDecodeError]. *)
Lemma decode_utf8_raises_only n :
  forall bs e, (length bs <= n)%nat ->
               decode_utf8 bs = Raise e -> e = UnicodeDecodeError.
Proof.
  induction n as [|n IH]; intros bs e Hn.
  - destruct bs; [discriminate|cbn in Hn; lia].
  - destruct bs as [|b0 t0]; [discriminate|].
    cbn [length] in Hn; cbn [decode_utf8].
    assert (Hrec : forall t, (length t <= n)%nat ->
                             forall f : str -> str,
                               bind (decode_utf8 t) (fun s => Ok (f s))
                               = Raise e ->
                               e = UnicodeDecodeError).
    { intros t Ht f; destruct (decode_utf8 t) eqn:E; cbn [bind];
        [discriminate|].
      intros [= <-]; eapply IH; eassumption. }
    repeat match goal with
           | |- context [if ?c then _ else _] => destruct c
           | |- context [match ?l with [] => _ | _ :: _ => _ end] =>
               destruct l; cbn [length] in Hn
           end;
      try (intros [= <-]; reflexivity);
      try (intros H; refine (Hrec _ _ _ H); lia).
Qed.

Lemma raises_decode_only_bind {A B} (m : io A) (k : A -> io B) :
  raises_decode_only m -> (forall a, raises_decode_only (k a)) ->
  raises_decode_only (iobind m k).
Proof.
  intros Hm Hk r e; unfold iobind.
  destruct (m r) as [[a r']|e'] eqn:E.
  - apply Hk.
  - intros [= <-]; eapply Hm; eassumption.
Qed.

Lemma returns_on_ascii_bind {A B} (m : io A) (k : A -> io B) :
  returns_on_ascii m -> (forall a, returns_on_ascii (k a)) ->
  returns_on_ascii (iobind m k).
Proof.
  intros Hm Hk r Hr; unfold iobind.
  destruct (Hm r Hr) as (a & r' & -> & Hr'); apply Hk; assumption.
Qed.

Lemma raises_decode_only_ret {A} (a : A) : raises_decode_only (ret a).
Proof. intros r e; discriminate. Qed.

Lemma returns_on_ascii_ret {A} (a : A) : returns_on_ascii (ret a).
Proof. intros r Hr; exists a, r; auto. Qed.

Lemma raises_decode_only_read n : raises_decode_only (read n).
Proof. intros r e; discriminate. Qed.

Lemma returns_on_ascii_read n : returns_on_ascii (read n).
Proof.
  intros r Hr; do 2 eexists; split; [reflexivity|].
  now apply ascii_only_skipn.
Qed.

Lemma raises_decode_only_read_text n : raises_decode_only (read_text n).
Proof.
  unfold read_text; destruct (n =? 0); [apply raises_decode_only_ret|].
  intros r e; unfold iobind, read, lift.
  destruct (decode_utf8 _) eqn:E; [discriminate|].
  intros [= <-]; eapply decode_utf8_raises_only; [reflexivity|eassumption].
Qed.

Lemma returns_on_ascii_read_text n : returns_on_ascii (read_text n).
Proof.
  unfold read_text; destruct (n =? 0); [apply returns_on_ascii_ret|].
  intros r Hr; unfold iobind, read, lift.
  rewrite decode_utf8_ascii by now apply ascii_only_firstn.
  do 2 eexists; split; [reflexivity|now apply ascii_only_skipn].
Qed.

Create HintDb pin_reader.
#[local] Hint Resolve raises_decode_only_ret raises_decode_only_read
  raises_decode_only_read_text returns_on_ascii_ret returns_on_ascii_read
  returns_on_ascii_read_text : pin_reader.

Ltac pin_reader_steps :=
  repeat first
    [ apply raises_decode_only_bind; [solve [auto with pin_reader]|intros ?]
    | apply returns_on_ascii_bind; [solve [auto with pin_reader]|intros ?] ];
  auto with pin_reader.

Lemma raises_decode_only_int (signed : bool) n :
  raises_decode_only (b <~ read n ;; ret (int_from_bytes b little signed)).
Proof. pin_reader_steps. Qed.

Lemma returns_on_ascii_int (signed : bool) n :
  returns_on_ascii (b <~ read n ;; ret (int_from_bytes b little signed)).
Proof. pin_reader_steps. Qed.

Lemma raises_decode_only_read_i32 : raises_decode_only read_i32.
Proof. apply raises_decode_only_int. Qed.

Lemma raises_decode_only_read_i16 signed : raises_decode_only (read_i16 signed).
Proof. apply raises_decode_only_int. Qed.

Lemma raises_decode_only_read_i8 : raises_decode_only read_i8.
Proof. apply raises_decode_only_int. Qed.

Lemma returns_on_ascii_read_i32 : returns_on_ascii read_i32.
Proof. apply returns_on_ascii_int. Qed.

Lemma returns_on_ascii_read_i16 signed : returns_on_ascii (read_i16 signed).
Proof. apply returns_on_ascii_int. Qed.

Lemma returns_on_ascii_read_i8 : returns_on_ascii read_i8.
Proof. apply returns_on_ascii_int. Qed.

#[local] Hint Resolve raises_decode_only_read_i32 raises_decode_only_read_i16
  raises_decode_only_read_i8 returns_on_ascii_read_i32
  returns_on_ascii_read_i16 returns_on_ascii_read_i8 : pin_reader.

Lemma parse_binary_pin_reader_raises : raises_decode_only parse_binary_pin_reader.
Proof. unfold parse_binary_pin_reader; pin_reader_steps. Qed.

Lemma parse_binary_pin_reader_ascii : returns_on_ascii parse_binary_pin_reader.
Proof. unfold parse_binary_pin_reader; pin_reader_steps. Qed.

Lemma parse_binary_pin_raises data e :
  parse_binary_pin data = Raise e -> e = UnicodeDecodeError.
Proof.
  unfold parse_binary_pin.
  destruct (parse_binary_pin_reader data) as [[props r]|e'] eqn:E;
    cbn [bind]; [discriminate|].
  intros [= <-]; eapply parse_binary_pin_reader_raises; eassumption.
Qed.

Lemma parse_binary_pin_ascii data :
  ascii_only data -> exists props, parse_binary_pin data = Ok props.
Proof.
  intros H; unfold parse_binary_pin.
  destruct (parse_binary_pin_reader_ascii data H) as (props & r & -> & _).
  cbn [bind]; eauto.
Qed.

(** *** The layout of a pin payload *)

Lemma field_int_nonneg data p n : 0 <= field_int data p n false.
Proof.
  unfold field_int; rewrite int_from_bytes_unsigned; apply le_combine_range.
Qed.

Lemma run_read data p n q (A : Type) (k : bytes -> io A) :
  0 <= p -> 0 <= n -> q = p + n ->
  iobind (read n) k (slice_from data p)
  = k (slice data p (p + n)) (slice_from data q).
Proof.
  intros Hp Hn ->; unfold iobind, read, slice_from, slice.
  rewrite skipn_skipn.
  replace (Z.to_nat (p + n - p)) with (Z.to_nat n) by lia.
  replace (Z.to_nat n + Z.to_nat p)%nat with (Z.to_nat (p + n)) by lia.
  reflexivity.
Qed.

Lemma run_read_int data signed p n q (A : Type) (k : Z -> io A) :
  0 <= p -> 0 <= n -> q = p + n ->
  iobind (b <~ read n ;; ret (int_from_bytes b little signed)) k
         (slice_from data p)
  = k (field_int data p n signed) (slice_from data q).
Proof.
  intros Hp Hn Hq; unfold iobind at 1.
  rewrite (run_read data p n q) by assumption; reflexivity.
Qed.

Lemma run_read_text data p n q (A : Type) (k : str -> io A) :
  0 <= p -> 0 <= n -> q = p + n ->
  iobind (read_text n) k (slice_from data p)
  = match field_text data p n with
    | Ok s => k s (slice_from data q)
    | Raise e => Raise e
    end.
Proof.
  intros Hp Hn ->; unfold read_text, field_text.
  destruct (Z.eqb_spec n 0) as [->|Hne].
  - rewrite Z.add_0_r; reflexivity.
  - unfold iobind at 1.
    rewrite (run_read data p n (p + n)) by lia.
    unfold lift; destruct (decode_utf8 _); reflexivity.
Qed.

Lemma pin_props_in_order
      (v1 v2 v3 v4 v5 v6 v7 v8 v9 v10 v11 v12 v13 v14 v15 v16 v17 v18 v19 v20
       : pyval) :
  dict_set (dict_set (dict_set (dict_set (dict_set (dict_set (dict_set
  (dict_set (dict_set (dict_set (dict_set (dict_set (dict_set (dict_set
  (dict_set (dict_set (dict_set (dict_set (dict_set (dict_set []
    (u "RECORD") v1) (u "OwnerPartId") v2) (u "OwnerPartDisplayMode") v3)
    (u "Symbol_InnerEdge") v4) (u "Symbol_OuterEdge") v5)
    (u "Symbol_Inside") v6) (u "Symbol_Outside") v7) (u "Description") v8)
    (u "Electrical_Type") v9) (u "Rotated") v10) (u "Flipped") v11)
    (u "Hide") v12) (u "Show_Name") v13) (u "Show_Designator") v14)
    (u "Length") v15) (u "Location.X") v16) (u "Location.Y") v17)
    (u "Color") v18) (u "Name") v19) (u "Designator") v20
  = [(u "RECORD", v1); (u "OwnerPartId", v2); (u "OwnerPartDisplayMode", v3);
     (u "Symbol_InnerEdge", v4); (u "Symbol_OuterEdge", v5);
     (u "Symbol_Inside", v6); (u "Symbol_Outside", v7);
     (u "Description", v8); (u "Electrical_Type", v9); (u "Rotated", v10);
     (u "Flipped", v11); (u "Hide", v12); (u "Show_Name", v13);
     (u "Show_Designator", v14); (u "Length", v15); (u "Location.X", v16);
     (u "Location.Y", v17); (u "Color", v18); (u "Name", v19);
     (u "Designator", v20)].
Proof. reflexivity. Qed.

(** The pin decoder computes what the layout says, for every payload. *)
Lemma parse_binary_pin_layout data :
  parse_binary_pin data = pin_by_layout data.
Proof.
  unfold parse_binary_pin, pin_by_layout.
  change (parse_binary_pin_reader data)
    with (parse_binary_pin_reader (slice_from data 0)).
  unfold parse_binary_pin_reader, read_i32, read_i16, read_i8.
  set (desc_len := field_int data 12 1 false).
  set (name_at := 14 + desc_len + 12).
  set (name_len := field_int data name_at 1 false).
  set (designator_at := name_at + 1 + name_len).
  set (designator_len := field_int data designator_at 1 false).
  assert (0 <= desc_len) by apply field_int_nonneg.
  assert (0 <= name_len) by apply field_int_nonneg.
  assert (0 <= designator_len) by apply field_int_nonneg.
  rewrite (run_read_int data true 0 4 4) by lia; cbv beta zeta.
  rewrite (run_read data 4 1 5) by lia; cbv beta zeta.
  rewrite (run_read_int data true 5 2 7) by lia; cbv beta zeta.
  rewrite (run_read_int data false 7 1 8) by lia; cbv beta zeta.
  rewrite (run_read_int data false 8 1 9) by lia; cbv beta zeta.
  rewrite (run_read_int data false 9 1 10) by lia; cbv beta zeta.
  rewrite (run_read_int data false 10 1 11) by lia; cbv beta zeta.
  rewrite (run_read_int data false 11 1 12) by lia; cbv beta zeta.
  rewrite (run_read_int data false 12 1 13) by lia; cbv beta zeta.
  fold desc_len.
  rewrite (run_read data 13 1 14) by lia; cbv beta zeta.
  rewrite (run_read_text data 14 desc_len (14 + desc_len)) by lia.
  destruct (field_text data 14 desc_len) as [description|e];
    cbn [bind]; [|reflexivity].
  rewrite (run_read_int data false (14 + desc_len) 1 (14 + desc_len + 1))
    by lia; cbv beta zeta.
  rewrite (run_read_int data false (14 + desc_len + 1) 1 (14 + desc_len + 2))
    by lia; cbv beta zeta.
  rewrite (run_read_int data false (14 + desc_len + 2) 2 (14 + desc_len + 4))
    by lia; cbv beta zeta.
  rewrite (run_read_int data true (14 + desc_len + 4) 2 (14 + desc_len + 6))
    by lia; cbv beta zeta.
  rewrite (run_read_int data true (14 + desc_len + 6) 2 (14 + desc_len + 8))
    by lia; cbv beta zeta.
  rewrite (run_read_int data true (14 + desc_len + 8) 4 name_at)
    by (unfold name_at; lia); cbv beta zeta.
  rewrite (run_read_int data false name_at 1 (name_at + 1))
    by (unfold name_at; lia); cbv beta zeta.
  fold name_len.
  rewrite (run_read_text data (name_at + 1) name_len designator_at)
    by (unfold designator_at, name_at; lia).
  destruct (field_text data (name_at + 1) name_len) as [name|e];
    cbn [bind]; [|reflexivity].
  rewrite (run_read_int data false designator_at 1 (designator_at + 1))
    by (unfold designator_at, name_at; lia); cbv beta zeta.
  fold designator_len.
  rewrite (run_read_text data (designator_at + 1) designator_len
             (designator_at + 1 + designator_len))
    by (unfold designator_at, name_at; lia).
  destruct (field_text data (designator_at + 1) designator_len)
    as [designator|e]; cbn [bind]; [|reflexivity].
  unfold ret; cbn [bind]; rewrite pin_props_in_order; reflexivity.
Qed.

(** A text field that the buffer cannot fill is decoded from the bytes
    that remain, and leaves the reader empty. *)
Lemma read_text_short n r :
  0 < n -> len r < n ->
  read_text n r = (s <- decode_utf8 r ;; Ok (s, [])).
Proof.
  intros Hn Hr; unfold read_text, iobind, read, lift.
  destruct (Z.eqb_spec n 0); [lia|].
  rewrite firstn_all2, skipn_all2 by (unfold len in Hr; lia).
  destruct (decode_utf8 r); reflexivity.
Qed.

(** In a payload cut short, one of the text fields holds fewer bytes than
    it declares. *)
Lemma pin_truncated_short_field data :
  pin_truncated data = true ->
  exists p n,
    In (p, n) (pin_text_fields data) /\ len (slice data p (p + n)) < n.
Proof.
  unfold pin_truncated, pin_text_fields.
  set (desc_len := field_int data 12 1 false).
  set (name_at := 14 + desc_len + 12).
  set (name_len := field_int data name_at 1 false).
  set (designator_at := name_at + 1 + name_len).
  set (designator_len := field_int data designator_at 1 false).
  assert (0 <= desc_len) by apply field_int_nonneg.
  assert (0 <= name_len) by apply field_int_nonneg.
  assert (Hshort : forall p n, 0 <= p -> 0 < n -> len data < p + n ->
                               len (slice data p (p + n)) < n).
  { intros p n Hp Hn Hlt; unfold slice, len in *.
    rewrite length_firstn, length_skipn; lia. }
  intros Ht; repeat apply orb_true_iff in Ht as [Ht|Ht];
    apply andb_true_iff in Ht as [Hpos Hlt];
    apply Z.ltb_lt in Hpos, Hlt.
  - exists 14, desc_len; split; [cbn; auto|apply Hshort; lia].
  - exists (name_at + 1), name_len; split; [cbn; auto|].
    apply Hshort; unfold name_at in *; lia.
  - exists (designator_at + 1), designator_len; split; [cbn; auto|].
    apply Hshort; unfold designator_at, name_at in *; lia.
Qed.

(** C5, as amended: a BinaryPinRecord payload that ends before a declared
    length-prefixed field (description, name or designator) can be fully
    read does not make the pin decoder fail: the decoder computes what the
    layout says, the field that is cut short being decoded from the bytes
    that remain; it raises nothing but a text decoding error, it returns
    when the payload is ASCII, and whenever it returns the outer record
    loop advances by the outer record's declared length and its 4-byte
    header. *)
Theorem truncated_pin_is_decoded (data : bytes) (st : loop_state) :
  0 <= offset st ->
  offset st < len data - 4 ->
  record_length_at data (offset st) <> 0 ->
  record_type_at data (offset st) = 1 ->
  pin_truncated (record_data_at data (offset st)) = true ->
  parse_binary_pin (record_data_at data (offset st))
  = pin_by_layout (record_data_at data (offset st)) /\
  (exists p n,
      In (p, n) (pin_text_fields (record_data_at data (offset st))) /\
      len (slice (record_data_at data (offset st)) p (p + n)) < n) /\
  (forall e, parse_binary_pin (record_data_at data (offset st)) = Raise e ->
             e = UnicodeDecodeError) /\
  (ascii_only (record_data_at data (offset st)) ->
   exists props, parse_binary_pin (record_data_at data (offset st)) = Ok props) /\
  (forall props,
      parse_binary_pin (record_data_at data (offset st)) = Ok props ->
      record_step data st =
        Ok (Next {| offset := offset st
                              + (4 + record_length_at data (offset st));
                    record_num := record_num st + 1;
                    records_by_type :=
                      track_record (records_by_type st) (u "2-binary") props |})).
Proof.
  intros _ H Hlen Hty Htrunc; split; [|split; [|split; [|split]]].
  - apply parse_binary_pin_layout.
  - apply pin_truncated_short_field; exact Htrunc.
  - intros e; apply parse_binary_pin_raises.
  - apply parse_binary_pin_ascii.
  - intros props Hp.
    apply record_step_decoded; try assumption.
    rewrite Hty, decode_record_pin, Hp; reflexivity.
Qed.

Lemma truncated_pin_is_decoded_witness :
  parse_binary_pin (record_data_at short_pin_stream 0)
  = pin_by_layout (record_data_at short_pin_stream 0) /\
  (exists p n,
      In (p, n) (pin_text_fields (record_data_at short_pin_stream 0)) /\
      len (slice (record_data_at short_pin_stream 0) p (p + n)) < n) /\
  (forall e, parse_binary_pin (record_data_at short_pin_stream 0) = Raise e ->
             e = UnicodeDecodeError) /\
  (ascii_only (record_data_at short_pin_stream 0) ->
   exists props, parse_binary_pin (record_data_at short_pin_stream 0) = Ok props) /\
  (forall props,
      parse_binary_pin (record_data_at short_pin_stream 0) = Ok props ->
      record_step short_pin_stream initial_state =
        Ok (Next {| offset := 0 + (4 + record_length_at short_pin_stream 0);
                    record_num := 0 + 1;
                    records_by_type :=
                      track_record [] (u "2-binary") props |})).
Proof.
  apply (truncated_pin_is_decoded short_pin_stream initial_state).
  - cbn; lia.
  - vm_compute; reflexivity.
  - vm_compute; discriminate.
  - reflexivity.
  - reflexivity.
Defined.

(** C5, as stated, fails: the payload [short_pin] declares a name of 5
    bytes and holds 2 of them, and the pin decoder returns a property map,
    the name being the 2 bytes and the designator empty. *)
Lemma truncated_pin_does_not_fail :
  pin_truncated short_pin = true /\
  len short_pin = 29 /\ field_int short_pin 26 1 false = 5 /\
  returns (parse_binary_pin short_pin) = true /\
  exists props,
    parse_binary_pin short_pin = Ok props /\
    dict_get props (u "Name") = Some (VStr (u "AB")) /\
    dict_get props (u "Designator") = Some (VStr []).
Proof.
  repeat split.
  eexists; split; [reflexivity|split; reflexivity].
Qed.

(** *** The end of a component stream *)

(** The only error that leaves the record loop is a text decoding error
    of the pin decoder. *)
Lemma record_loop_raises fuel data st e :
  record_loop fuel data st = Some (Raise e) -> e = UnicodeDecodeError.
Proof.
  revert st; induction fuel as [|fuel IH]; intros st; cbn [record_loop];
    [discriminate|].
  destruct (record_step data st) as [[h|st']|e'] eqn:E;
    [discriminate|apply IH|].
  intros [= <-]; revert E; unfold record_step.
  destruct (_ <? _); [|discriminate].
  destruct (_ =? 0); [discriminate|].
  match goal with
  | |- context [decode_record ?t ?d] =>
      destruct (Z.eq_dec t 1) as [->|Hne];
      [rewrite decode_record_pin; destruct (parse_binary_pin d) eqn:Ep
      |destruct (decode_record_not_pin t d Hne) as (props & rec_id & ->)]
  end; cbn [bind]; try discriminate.
  intros [= <-]; eapply parse_binary_pin_raises; eassumption.
Qed.


(** ** Facts about the footprint primitives *)

(** A field that lies inside its block is read without error. *)
Ltac known_field :=
  match goal with
  | |- context [unpack_from ?f ?b ?o] =>
      let v := fresh "v" in
      let E := fresh "E" in
      assert (exists v, unpack_from f b o = Ok v) as (v & E)
        by (apply unpack_from_ok; cbn [calcsize]; lia);
      rewrite E; cbn [bind]
  | |- context [index ?b ?i] =>
      let v := fresh "v" in
      let E := fresh "E" in
      assert (exists v, index b i = Ok v /\ 0 <= v < 256) as (v & E & _)
        by (apply index_ok; lia);
      rewrite E; cbn [bind]
  end.

Ltac length_guard :=
  match goal with
  | |- context [(?a >? ?b)] =>
      rewrite (Z.gtb_ltb a b); destruct (Z.ltb_spec b a); cbn [bind]
  | |- context [(?a >=? ?b)] =>
      rewrite (Z.geb_leb a b); destruct (Z.leb_spec b a); cbn [bind]
  end.

Ltac fields_total := repeat first [known_field | length_guard]; eauto.

Lemma parse_pad_geometry_total data :
  exists g, parse_pad_geometry data = Ok g.
Proof.
  unfold parse_pad_geometry.
  destruct (Z.ltb_spec (len data) 45); [eauto|].
  fields_total.
Qed.

Lemma pad_fields_total block4 : exists g, pad_fields block4 = Ok g.
Proof.
  unfold pad_fields; destruct (len block4 >=? 45); [|eauto].
  apply parse_pad_geometry_total.
Qed.

Lemma track_fields_total block : exists g, track_fields block = Ok g.
Proof. unfold track_fields; fields_total. Qed.

Lemma arc_fields_total block : exists g, arc_fields block = Ok g.
Proof. unfold arc_fields; fields_total. Qed.

Lemma text_fields_total block0 : exists g, text_fields block0 = Ok g.
Proof. unfold text_fields; fields_total. Qed.

Lemma fill_fields_total block : exists g, fill_fields block = Ok g.
Proof. unfold fill_fields; fields_total. Qed.

Lemma region_layer_total block0 : exists l, region_layer block0 = Ok l.
Proof. unfold region_layer; fields_total. Qed.

Lemma add_pairs_returns params pairs :
  exists params', add_pairs params pairs = Ok params'.
Proof.
  revert params; induction pairs as [|pair_ rest IH]; intros params;
    cbn [add_pairs]; [eauto|].
  unfold add_pair.
  destruct (contains 61 pair_) eqn:E; cbn [bind]; [|apply IH].
  rewrite (split1_contains _ _ E); cbn [unpack2 bind]; apply IH.
Qed.

Lemma parse_component_body_params_total block :
  exists params, parse_component_body_params block = Ok params.
Proof.
  unfold parse_component_body_params.
  destruct (_ >=? 0); [|cbn; eauto].
  destruct (add_pairs _ _); cbn [try_except]; eauto.
Qed.

Lemma body_params_total block_0 : exists p, body_params block_0 = Ok p.
Proof.
  unfold body_params; destruct (len block_0 >? 40); [|eauto].
  destruct (parse_component_body_params_total block_0) as (p & ->).
  cbn [bind]; eauto.
Qed.

(** The next [read_block] of a parser, at an offset known to be
    non-negative. *)
Ltac read_next :=
  match goal with
  | |- context [read_block ?d ?o] =>
      let block := fresh "block" in
      let off := fresh "off" in
      let E := fresh "E" in
      let Hle := fresh "Hle" in
      assert (exists block off, read_block d o = Ok (block, off) /\ o <= off)
        as (block & off & E & Hle) by (apply read_block_total; lia);
      rewrite E; cbn [bind]
  end.

Ltac then_total lem :=
  match goal with
  | |- context [bind (?f ?b) _] =>
      let g := fresh "g" in
      let E := fresh "E" in
      destruct (lem b) as (g & E); rewrite E; cbn [bind]
  end.

Lemma parse_pad_blocks_v2_returns : returns_forward parse_pad_blocks_v2.
Proof.
  intros data offset H0; unfold parse_pad_blocks_v2.
  read_next; then_total read_string_from_block_total.
  read_next; read_next; then_total read_string_from_block_total.
  read_next; read_next; then_total pad_fields_total.
  read_next; do 2 eexists; split; [reflexivity|lia].
Qed.

Lemma parse_track_blocks_returns : returns_forward parse_track_blocks.
Proof.
  intros data offset H0; unfold parse_track_blocks.
  read_next; then_total track_fields_total.
  do 2 eexists; split; [reflexivity|lia].
Qed.

Lemma parse_arc_blocks_returns : returns_forward parse_arc_blocks.
Proof.
  intros data offset H0; unfold parse_arc_blocks.
  read_next; then_total arc_fields_total.
  do 2 eexists; split; [reflexivity|lia].
Qed.

Lemma parse_text_blocks_returns : returns_forward parse_text_blocks.
Proof.
  intros data offset H0; unfold parse_text_blocks.
  read_next; then_total text_fields_total.
  read_next; then_total read_string_from_block_total.
  do 2 eexists; split; [reflexivity|lia].
Qed.

Lemma parse_fill_blocks_returns : returns_forward parse_fill_blocks.
Proof.
  intros data offset H0; unfold parse_fill_blocks.
  read_next; then_total fill_fields_total.
  do 2 eexists; split; [reflexivity|lia].
Qed.

Lemma parse_component_body_blocks_returns :
  returns_forward parse_component_body_blocks.
Proof.
  intros data offset H0; unfold parse_component_body_blocks.
  read_next; then_total body_params_total.
  read_next; read_next.
  do 2 eexists; split; [reflexivity|lia].
Qed.

(** The region parser can raise; when it returns, it has gone forward. *)
Lemma parse_region_blocks_forward data offset p offset' :
  0 <= offset ->
  parse_region_blocks data offset = Ok (p, offset') -> offset <= offset'.
Proof.
  intros H0; unfold parse_region_blocks.
  read_next; then_total region_layer_total.
  read_next.
  destruct (parse_region_vertices block0) as [[vc vs]|e]; cbn [bind];
    [|discriminate].
  intros [= _ <-]; lia.
Qed.

Lemma block_parser_forward record_type parse_blocks data offset p offset' :
  block_parser record_type = Some parse_blocks ->
  0 <= offset ->
  parse_blocks data offset = Ok (p, offset') -> offset <= offset'.
Proof.
  unfold block_parser; intros Hp H0.
  repeat match type of Hp with
         | (if ?c then _ else _) = _ => destruct c
         end;
    try discriminate; injection Hp as <-;
    try (apply parse_region_blocks_forward; assumption);
    intros H;
    [ destruct (parse_pad_blocks_v2_returns data offset H0) as (q & o & E & Hle)
    | destruct (parse_track_blocks_returns data offset H0) as (q & o & E & Hle)
    | destruct (parse_arc_blocks_returns data offset H0) as (q & o & E & Hle)
    | destruct (parse_text_blocks_returns data offset H0) as (q & o & E & Hle)
    | destruct (parse_fill_blocks_returns data offset H0) as (q & o & E & Hle)
    | destruct (parse_component_body_blocks_returns data offset H0)
        as (q & o & E & Hle) ];
    rewrite E in H; injection H as _ <-; assumption.
Qed.

(** Every record type with a block parser other than Region's. *)
Lemma block_parser_returns record_type parse_blocks :
  block_parser record_type = Some parse_blocks ->
  record_type <> 11 ->
  returns_forward parse_blocks.
Proof.
  unfold block_parser; intros Hp Hne.
  repeat match type of Hp with
         | (if ?c =? ?d then _ else _) = _ => destruct (Z.eqb_spec c d)
         end;
    try discriminate; try contradiction; injection Hp as <-.
  - apply parse_pad_blocks_v2_returns.
  - apply parse_track_blocks_returns.
  - apply parse_arc_blocks_returns.
  - apply parse_text_blocks_returns.
  - apply parse_fill_blocks_returns.
  - apply parse_component_body_blocks_returns.
Qed.

(** *** The primitive loop *)

Lemma index_nth data i b :
  0 <= i -> nth_error data (Z.to_nat i) = Some b ->
  index data i = Ok (byte_val b) /\ i < len data.
Proof.
  intros H0 Hn.
  assert (i < len data).
  { assert (Z.to_nat i < length data)%nat
      by (apply nth_error_Some; congruence).
    unfold len; lia. }
  split; [|assumption].
  unfold index; rewrite Hn.
  destruct (Z.leb_spec 0 i); [|lia].
  destruct (Z.ltb_spec i (len data)); [reflexivity|lia].
Qed.

(** The [if]/[elif] chain as a table: the record types 1, 2, 4, 5, 6, 0x0B
    and 0x0C have a block parser; 3, though named Via, has none. *)
Lemma block_parser_table record_type :
  block_parser record_type =
    match record_type with
    | 1 => Some parse_arc_blocks
    | 2 => Some parse_pad_blocks_v2
    | 4 => Some parse_track_blocks
    | 5 => Some parse_text_blocks
    | 6 => Some parse_fill_blocks
    | 11 => Some parse_region_blocks
    | 12 => Some parse_component_body_blocks
    | _ => None
    end.
Proof.
  destruct record_type as [|q|q]; try reflexivity.
  do 4 (destruct q as [q|q|]; try reflexivity).
Qed.

Lemma primitive_step_at data offset b :
  0 <= offset -> nth_error data (Z.to_nat offset) = Some b ->
  primitive_step data offset =
    if byte_val b =? 0 then Ok (PStop Done offset)
    else match block_parser (byte_val b) with
         | Some parse_blocks =>
             '(p, offset') <- parse_blocks data (offset + 1) ;;
             Ok (PNext (rname_of (byte_val b)) p offset')
         | None =>
             Ok (PStop (Aborted (rname_of (byte_val b)) (byte_val b))
                       (offset + 1))
         end.
Proof.
  intros H0 Hn; destruct (index_nth _ _ _ H0 Hn) as (Hi & Hlt).
  unfold primitive_step.
  destruct (Z.ltb_spec offset (len data)); [|lia].
  rewrite Hi; reflexivity.
Qed.

Lemma primitive_step_next_inv data offset rname p offset' :
  0 <= offset ->
  primitive_step data offset = Ok (PNext rname p offset') ->
  offset < offset' /\ offset < len data.
Proof.
  intros H0; unfold primitive_step.
  destruct (Z.ltb_spec offset (len data)); [|discriminate].
  destruct (index_ok data offset) as (v & -> & _); [lia|]; cbn [bind].
  destruct (v =? 0); [discriminate|].
  destruct (block_parser v) as [parse_blocks|] eqn:Hp; [|discriminate].
  destruct (parse_blocks data (offset + 1)) as [[q o]|e] eqn:E; cbn [bind];
    [|discriminate].
  intros [= _ _ <-].
  assert (0 <= offset + 1) as H1 by lia.
  pose proof (block_parser_forward _ _ _ _ _ _ Hp H1 E); lia.
Qed.

Lemma primitive_loop_terminates fuel data offset prims :
  0 <= offset ->
  (Z.to_nat (len data - offset) < fuel)%nat ->
  exists r, primitive_loop fuel data offset prims = Some r.
Proof.
  revert offset prims; induction fuel as [|fuel IH]; intros offset prims H0 Hf;
    [lia|].
  cbn [primitive_loop].
  destruct (primitive_step data offset) as [[h o|rname p o]|e] eqn:E; eauto.
  apply primitive_step_next_inv in E as (H1 & H2); [|assumption].
  apply IH; lia.
Qed.

Lemma parse_primitives_terminates data offset :
  0 <= offset -> exists r, parse_primitives data offset = Some r.
Proof.
  intros H0; apply primitive_loop_terminates; [assumption|].
  unfold primitive_fuel; lia.
Qed.

Lemma parse_footprint_data_terminates data :
  exists r, parse_footprint_data data = Some r.
Proof.
  unfold parse_footprint_data.
  destruct (len data <? 5); [eauto|].
  destruct (unpack_from fmt_I data 0) as [block_len|e] eqn:E; [|eauto].
  destruct (block_len + 4 >? len data); [eauto|].
  destruct (index data 4) as [name_len|e]; [|eauto].
  destruct (4 + block_len >=? len data); [eauto|].
  assert (0 <= block_len).
  { unfold unpack_from in E; destruct (_ || _); [discriminate|].
    injection E as <-; rewrite int_from_bytes_unsigned.
    apply le_combine_range. }
  destruct (parse_primitives_terminates data (4 + block_len)) as ([r|e] & ->);
    [lia|eauto..].
Qed.

(** The block sequences of the kinds: the kind of the primitive a
    sequence returns, the number of blocks it reads and the blocks the
    primitive keeps of them. *)
Ltac sequence_step :=
  match goal with
  | |- context [read_block ?d ?o] =>
      destruct (read_block d o) as [[? ?]|?]; cbn [bind read_blocks];
      [|discriminate]
  | |- context [bind ?m _] =>
      let x := fresh "x" in
      destruct m as [x|?]; cbn [bind];
      [try (destruct x as [? ?]); cbn [bind]|discriminate]
  end.

Ltac block_sequence parse_blocks :=
  unfold parse_blocks; cbn [read_blocks];
  repeat sequence_step;
  intros [= <- <-]; repeat split.

Lemma parse_arc_blocks_sequence data o p o' :
  parse_arc_blocks data o = Ok (p, o') ->
  primitive_kind p = 1 /\
  o' = snd (read_blocks 1 data o) /\
  map Some (kept_blocks p)
  = map (nth_error (fst (read_blocks 1 data o))) [0%nat].
Proof. block_sequence parse_arc_blocks. Qed.

Lemma parse_pad_blocks_v2_sequence data o p o' :
  parse_pad_blocks_v2 data o = Ok (p, o') ->
  primitive_kind p = 2 /\
  o' = snd (read_blocks 6 data o) /\
  map Some (kept_blocks p)
  = map (nth_error (fst (read_blocks 6 data o))) [1; 3; 4; 5]%nat.
Proof. block_sequence parse_pad_blocks_v2. Qed.

Lemma parse_track_blocks_sequence data o p o' :
  parse_track_blocks data o = Ok (p, o') ->
  primitive_kind p = 4 /\
  o' = snd (read_blocks 1 data o) /\
  map Some (kept_blocks p)
  = map (nth_error (fst (read_blocks 1 data o))) [0%nat].
Proof. block_sequence parse_track_blocks. Qed.

Lemma parse_text_blocks_sequence data o p o' :
  parse_text_blocks data o = Ok (p, o') ->
  primitive_kind p = 5 /\
  o' = snd (read_blocks 2 data o) /\
  map Some (kept_blocks p)
  = map (nth_error (fst (read_blocks 2 data o))) [0; 1]%nat.
Proof. block_sequence parse_text_blocks. Qed.

Lemma parse_fill_blocks_sequence data o p o' :
  parse_fill_blocks data o = Ok (p, o') ->
  primitive_kind p = 6 /\
  o' = snd (read_blocks 1 data o) /\
  map Some (kept_blocks p)
  = map (nth_error (fst (read_blocks 1 data o))) [0%nat].
Proof. block_sequence parse_fill_blocks. Qed.

Lemma parse_region_blocks_sequence data o p o' :
  parse_region_blocks data o = Ok (p, o') ->
  primitive_kind p = 11 /\
  o' = snd (read_blocks 2 data o) /\
  map Some (kept_blocks p)
  = map (nth_error (fst (read_blocks 2 data o))) [0; 1]%nat.
Proof. block_sequence parse_region_blocks. Qed.

Lemma parse_component_body_blocks_sequence data o p o' :
  parse_component_body_blocks data o = Ok (p, o') ->
  primitive_kind p = 12 /\
  o' = snd (read_blocks 3 data o) /\
  map Some (kept_blocks p)
  = map (nth_error (fst (read_blocks 3 data o))) [0; 1; 2]%nat.
Proof. block_sequence parse_component_body_blocks. Qed.

(** A pass of the loop at a tag whose block sequence returns. *)
Lemma runs_known_kind data offset b fuel prims tag parse_blocks rname
      count kept :
  0 <= offset ->
  nth_error data (Z.to_nat offset) = Some b ->
  byte_val b = tag -> tag <> 0 ->
  block_parser tag = Some parse_blocks ->
  rname_of tag = rname ->
  (forall p offset',
      parse_blocks data (offset + 1) = Ok (p, offset') ->
      primitive_kind p = tag /\
      offset' = snd (read_blocks count data (offset + 1)) /\
      map Some (kept_blocks p)
      = map (nth_error (fst (read_blocks count data (offset + 1)))) kept) ->
  (exists p offset', parse_blocks data (offset + 1) = Ok (p, offset')) ->
  runs_block_sequence data offset fuel prims parse_blocks rname tag count
                      kept.
Proof.
  intros H0 Hn Htag Hnz Hp Hname Hseq (p & offset' & E).
  destruct (Hseq _ _ E) as (Hkind & Hoff & Hkept).
  exists p, offset'; repeat split; try assumption.
  cbn [primitive_loop]; rewrite (primitive_step_at _ _ _ H0 Hn), Htag.
  destruct (Z.eqb_spec tag 0); [contradiction|].
  rewrite Hp, E, Hname; reflexivity.
Qed.

(** C1, as amended: in every pass the loop reads the tag byte at the
    offset.  A tag of 0 ends the loop in the Done state.  A tag of 1 runs
    the block sequence of an Arc (1 block), 2 that of a Pad (6 blocks), 4
    that of a Track (1 block), 5 that of a Text (2 blocks), 6 that of a
    Fill (1 block) and 0x0C that of a ComponentBody (3 blocks): the
    sequence returns a primitive of that kind, made of the blocks read,
    and the loop appends it under the name of the kind and goes on at the
    offset after the last block.  So does 0x0B with the sequence of a
    Region (2 blocks) whenever that sequence returns.  Tag 3, named Via in
    the table, has no block sequence: like any tag outside the table, it
    ends the loop in the Aborted state with the primitives decoded so
    far. *)
Theorem primitive_loop_transitions
        (data : bytes) (offset : Z) (b : byte) (fuel : nat)
        (prims : list (str * primitive)) :
  0 <= offset ->
  nth_error data (Z.to_nat offset) = Some b ->
  let tag := byte_val b in
  let runs := runs_block_sequence data offset fuel prims in
  (tag = 0 ->
   primitive_loop (S fuel) data offset prims
   = Some (Ok {| how := Done; final_offset := offset;
                 primitives := prims |})) /\
  (tag = 1 -> runs parse_arc_blocks (u "Arc") 1 1%nat [0%nat]) /\
  (tag = 2 ->
   runs parse_pad_blocks_v2 (u "Pad") 2 6%nat [1; 3; 4; 5]%nat) /\
  (tag = 4 -> runs parse_track_blocks (u "Track") 4 1%nat [0%nat]) /\
  (tag = 5 -> runs parse_text_blocks (u "Text") 5 2%nat [0; 1]%nat) /\
  (tag = 6 -> runs parse_fill_blocks (u "Fill") 6 1%nat [0%nat]) /\
  (tag = 12 ->
   runs parse_component_body_blocks (u "ComponentBody") 12 3%nat
        [0; 1; 2]%nat) /\
  (tag = 11 ->
   (exists p offset', parse_region_blocks data (offset + 1) = Ok (p, offset')) ->
   runs parse_region_blocks (u "Region") 11 2%nat [0; 1]%nat) /\
  (~ In tag [0; 1; 2; 4; 5; 6; 11; 12] ->
   primitive_loop (S fuel) data offset prims
   = Some (Ok {| how := Aborted (rname_of tag) tag;
                 final_offset := offset + 1;
                 primitives := prims |})).
Proof.
  intros H0 Hn tag runs; subst runs.
  assert (H1 : 0 <= offset + 1) by lia.
  repeat match goal with |- _ /\ _ => split end.
  - intros Ht; cbn [primitive_loop].
    rewrite (primitive_step_at _ _ _ H0 Hn); fold tag; rewrite Ht.
    reflexivity.
  - intros Ht.
    apply (runs_known_kind data offset b); try assumption;
      try reflexivity; try discriminate.
    + apply parse_arc_blocks_sequence.
    + destruct (parse_arc_blocks_returns data (offset + 1) H1)
        as (p & o & E & _); eauto.
  - intros Ht.
    apply (runs_known_kind data offset b); try assumption;
      try reflexivity; try discriminate.
    + apply parse_pad_blocks_v2_sequence.
    + destruct (parse_pad_blocks_v2_returns data (offset + 1) H1)
        as (p & o & E & _); eauto.
  - intros Ht.
    apply (runs_known_kind data offset b); try assumption;
      try reflexivity; try discriminate.
    + apply parse_track_blocks_sequence.
    + destruct (parse_track_blocks_returns data (offset + 1) H1)
        as (p & o & E & _); eauto.
  - intros Ht.
    apply (runs_known_kind data offset b); try assumption;
      try reflexivity; try discriminate.
    + apply parse_text_blocks_sequence.
    + destruct (parse_text_blocks_returns data (offset + 1) H1)
        as (p & o & E & _); eauto.
  - intros Ht.
    apply (runs_known_kind data offset b); try assumption;
      try reflexivity; try discriminate.
    + apply parse_fill_blocks_sequence.
    + destruct (parse_fill_blocks_returns data (offset + 1) H1)
        as (p & o & E & _); eauto.
  - intros Ht.
    apply (runs_known_kind data offset b); try assumption;
      try reflexivity; try discriminate.
    + apply parse_component_body_blocks_sequence.
    + destruct (parse_component_body_blocks_returns data (offset + 1) H1)
        as (p & o & E & _); eauto.
  - intros Ht Hret.
    apply (runs_known_kind data offset b); try assumption;
      try reflexivity; try discriminate.
    apply parse_region_blocks_sequence.
  - intros Hout; cbn [In] in Hout; cbn [primitive_loop].
    rewrite (primitive_step_at _ _ _ H0 Hn); fold tag; clearbody tag.
    destruct (Z.eqb_spec tag 0); [exfalso; apply Hout; auto|].
    rewrite block_parser_table.
    destruct tag as [|q|q]; try reflexivity.
    repeat (destruct q as [q|q|]; try reflexivity).
    all: exfalso; apply Hout; auto 10.
Qed.

Lemma primitive_loop_transitions_witness :
  (byte_val x04 = 0 ->
   primitive_loop 2 via_stream 0 []
   = Some (Ok {| how := Done; final_offset := 0; primitives := [] |})) /\
  (byte_val x04 = 1 ->
   runs_block_sequence via_stream 0 1 [] parse_arc_blocks (u "Arc") 1 1%nat
                       [0%nat]) /\
  (byte_val x04 = 2 ->
   runs_block_sequence via_stream 0 1 [] parse_pad_blocks_v2 (u "Pad") 2
                       6%nat [1; 3; 4; 5]%nat) /\
  (byte_val x04 = 4 ->
   runs_block_sequence via_stream 0 1 [] parse_track_blocks (u "Track") 4
                       1%nat [0%nat]) /\
  (byte_val x04 = 5 ->
   runs_block_sequence via_stream 0 1 [] parse_text_blocks (u "Text") 5
                       2%nat [0; 1]%nat) /\
  (byte_val x04 = 6 ->
   runs_block_sequence via_stream 0 1 [] parse_fill_blocks (u "Fill") 6
                       1%nat [0%nat]) /\
  (byte_val x04 = 12 ->
   runs_block_sequence via_stream 0 1 [] parse_component_body_blocks
                       (u "ComponentBody") 12 3%nat [0; 1; 2]%nat) /\
  (byte_val x04 = 11 ->
   (exists p offset', parse_region_blocks via_stream (0 + 1) = Ok (p, offset')) ->
   runs_block_sequence via_stream 0 1 [] parse_region_blocks (u "Region") 11
                       2%nat [0; 1]%nat) /\
  (~ In (byte_val x04) [0; 1; 2; 4; 5; 6; 11; 12] ->
   primitive_loop 2 via_stream 0 []
   = Some (Ok {| how := Aborted (rname_of (byte_val x04)) (byte_val x04);
                 final_offset := 0 + 1;
                 primitives := [] |})).
Proof.
  apply (primitive_loop_transitions via_stream 0 x04 1 []).
  - lia.
  - reflexivity.
Defined.

(** C1, as stated, fails at tag 3: the table names it Via, yet no block
    sequence is run for it; the loop ends in the Aborted state, with the
    Track decoded before it and without the Track that follows. *)
Lemma via_tag_aborts :
  record_names 3 = Some (u "Via") /\
  block_parser 3 = None /\
  primitive_step via_stream 7 = Ok (PStop (Aborted (u "Via") 3) 8) /\
  parse_primitives via_stream 0
  = Some (Ok {| how := Aborted (u "Via") 3;
                final_offset := 8;
                primitives := [(u "Track", Track [x41; x42] None)] |}).
Proof. repeat split. Qed.

(** *** The vertices block of a Region *)

Ltac div_lia := Z.to_euclidean_division_equations; lia.

Lemma int_of_double_finite bits :
  is_finite bits = true -> exists z, int_of_double bits = Ok z.
Proof.
  unfold is_finite, int_of_double.
  destruct (_ =? 2047); [discriminate|].
  destruct (_ =? 0); eauto.
Qed.

Lemma unpack_from_d block base :
  0 <= base -> base + 8 <= len block ->
  unpack_from fmt_d block base = Ok (double_at block base).
Proof.
  intros; unfold unpack_from, double_at; cbn [calcsize].
  zcompare. now rewrite int_from_bytes_unsigned.
Qed.

Lemma In_range i n : In i (range n) <-> 0 <= i < n.
Proof.
  unfold range; rewrite in_map_iff; split.
  - intros (k & <- & Hk); apply in_seq in Hk; lia.
  - intros H; exists (Z.to_nat i); split; [lia|apply in_seq; lia].
Qed.

Lemma range_app a b :
  0 <= a <= b ->
  range b = range a ++ map Z.of_nat (seq (Z.to_nat a) (Z.to_nat (b - a))).
Proof.
  intros H; unfold range.
  replace (Z.to_nat b) with (Z.to_nat a + Z.to_nat (b - a))%nat by lia.
  rewrite seq_app, map_app; reflexivity.
Qed.

Lemma read_vertices_inside block1 indices :
  Forall (fun i => 0 <= i /\ 4 + i * 16 + 16 <= len block1 /\
                   vertex_finite block1 i = true) indices ->
  exists vs,
    read_vertices block1 indices = Ok vs /\
    map v_index vs = indices /\
    map v_base vs = map (fun i => 4 + i * 16) indices.
Proof.
  induction 1 as [|i rest (H0 & Hin & Hfin) _ (vs & IH & Hi & Hb)];
    [exists []; auto|].
  cbn [read_vertices].
  destruct (Z.leb_spec (4 + i * 16 + 16) (len block1)); [|lia].
  rewrite !unpack_from_d by lia; cbn [bind].
  apply andb_true_iff in Hfin as [Hx Hy].
  destruct (int_of_double_finite _ Hx) as (ix & ->).
  destruct (int_of_double_finite _ Hy) as (iy & ->).
  rewrite IH; cbn [bind].
  eexists; split; [reflexivity|].
  cbn [map v_index v_base]; split; congruence.
Qed.

Lemma read_vertices_outside block1 inside outside :
  Forall (fun i => len block1 < 4 + i * 16 + 16) outside ->
  read_vertices block1 (inside ++ outside) = read_vertices block1 inside.
Proof.
  intros Hout; induction inside as [|i rest IH]; cbn [app read_vertices].
  - induction Hout as [|i rest Hi _ IH]; [reflexivity|].
    cbn [read_vertices].
    destruct (Z.leb_spec (4 + i * 16 + 16) (len block1)); [lia|exact IH].
  - rewrite IH; reflexivity.
Qed.

(** The vertices block of a Region whose readable coordinates are finite:
    the count is the little-endian value of the first 4 bytes, and the
    vertices read are those that lie inside the block, 16 bytes each from
    offset 4 on; a count that runs past the block is no error. *)
Lemma region_vertices_decoded block1 :
  4 <= len block1 ->
  vertices_finite block1 = true ->
  exists vs,
    parse_region_vertices block1 = Ok (Some (declared_vertices block1), vs) /\
    map v_index vs = range (readable_vertices block1) /\
    map v_base vs
    = map (fun i => 4 + i * 16) (range (readable_vertices block1)).
Proof.
  intros Hlen Hfin; unfold parse_region_vertices.
  destruct (Z.geb_spec (len block1) 4); [|lia].
  rewrite unpack_from_I by lia; cbn [bind Z.add].
  fold (declared_vertices block1).
  assert (Hd : 0 <= declared_vertices block1)
    by apply le_combine_range.
  assert (Hr : 0 <= readable_vertices block1 <= declared_vertices block1)
    by (unfold readable_vertices; div_lia).
  rewrite (range_app _ _ Hr), read_vertices_outside.
  - destruct (read_vertices_inside block1 (range (readable_vertices block1)))
      as (vs & -> & Hi & Hb).
    + unfold vertices_finite in Hfin; rewrite forallb_forall in Hfin.
      apply Forall_forall; intros i Hi.
      pose proof (proj1 (In_range _ _) Hi).
      repeat split; [lia| |now apply Hfin].
      unfold readable_vertices in *; div_lia.
    + cbn [bind]; eauto.
  - apply Forall_forall; intros i Hi.
    apply in_map_iff in Hi as (k & <- & Hk); apply in_seq in Hk.
    unfold readable_vertices in *; div_lia.
Qed.

(** In particular: a count of 3 and a block of exactly [3 * 16 + 4]
    bytes, finite coordinates. *)
Lemma region_three_vertices block1 :
  len block1 = 3 * 16 + 4 ->
  declared_vertices block1 = 3 ->
  vertices_finite block1 = true ->
  exists vs,
    parse_region_vertices block1 = Ok (Some 3, vs) /\
    map v_base vs = [4; 20; 36].
Proof.
  intros Hlen Hd Hfin.
  destruct (region_vertices_decoded block1) as (vs & E & _ & Hb);
    [lia|assumption|].
  exists vs; rewrite E, Hb, Hd; unfold readable_vertices.
  rewrite Hd, Hlen; split; reflexivity.
Qed.

(** C7, at the failing input: the vertices block declares 3 vertices and
    holds exactly [3 * 16 + 4] bytes, yet no three vertices are decoded:
    [int(x)] raises at the first vertex, and the error leaves the region
    parser and the primitive loop. *)
Theorem region_vertex_nan_raises :
  len nan_vertices_block = 3 * 16 + 4 /\
  declared_vertices nan_vertices_block = 3 /\
  unpack_from fmt_d nan_vertices_block 4 = Ok 9221120237041090560 /\
  int_of_double 9221120237041090560 = Raise ValueError /\
  parse_region_vertices nan_vertices_block = Raise ValueError /\
  parse_region_blocks nan_region_stream 1 = Raise ValueError /\
  parse_primitives nan_region_stream 0 = Some (Raise ValueError).
Proof. repeat split. Qed.

(** ** Well-formed footprint streams *)

Lemma byte_val_of z : byte_val (byte_of z) = z mod 256.
Proof.
  unfold byte_of, byte_val.
  assert (H : 0 <= z mod 256 < 256) by (apply Z.mod_pos_bound; lia).
  destruct (Byte.of_N (Z.to_N (z mod 256))) as [b|] eqn:E.
  - apply Byte.to_of_N in E; lia.
  - apply Byte.of_N_None_iff in E; lia.
Qed.

Lemma le_combine_to_bytes n v :
  0 <= v < 256 ^ Z.of_nat n -> le_combine (to_bytes_le n v) = v.
Proof.
  revert v; induction n as [|n IH]; intros v Hv.
  - cbn in *; lia.
  - cbn [to_bytes_le le_combine]; rewrite byte_val_of.
    rewrite Nat2Z.inj_succ, Z.pow_succ_r in Hv by lia.
    rewrite IH by div_lia. div_lia.
Qed.

Lemma len_to_bytes_le n v : len (to_bytes_le n v) = Z.of_nat n.
Proof.
  unfold len; f_equal; revert v; induction n; intros; cbn [to_bytes_le length];
    auto.
Qed.

Lemma len_encode_block payload : len (encode_block payload) = 4 + len payload.
Proof. unfold encode_block; rewrite len_app, len_to_bytes_le; reflexivity. Qed.

(** Reading an encoded block gives the block back, and puts the offset
    right after it. *)
Lemma read_block_encoded pre payload rest :
  len payload <= 100000 ->
  read_block (pre ++ encode_block payload ++ rest) (len pre)
  = Ok (payload, len (pre ++ encode_block payload)).
Proof.
  intros Hceil.
  pose proof (len_nonneg pre); pose proof (len_nonneg payload);
    pose proof (len_nonneg rest).
  assert (HL : le_combine (slice (pre ++ encode_block payload ++ rest)
                                 (len pre) (len pre + 4)) = len payload).
  { unfold encode_block; rewrite <- app_assoc.
    rewrite (slice_middle pre (to_bytes_le 4 (len payload)));
      [|reflexivity|now rewrite len_to_bytes_le].
    apply le_combine_to_bytes; change (256 ^ Z.of_nat 4) with 4294967296; lia. }
  rewrite read_block_spec;
    [|lia|rewrite !len_app, len_encode_block; lia].
  cbv zeta; rewrite HL.
  destruct (Z.ltb_spec 100000 (len payload)); [lia|].
  destruct (Z.ltb_spec (len (pre ++ encode_block payload ++ rest))
                       (len pre + 4 + len payload));
    [rewrite !len_app, len_encode_block in *; lia|].
  cbn [orb]; f_equal; f_equal.
  - unfold encode_block.
    rewrite <- app_assoc, (app_assoc pre).
    apply slice_middle;
      [rewrite len_app, len_to_bytes_le; reflexivity|lia].
  - rewrite len_app, len_encode_block; lia.
Qed.

(** The blocks of a primitive decode, when the coordinates read of a
    Region are finite. *)
Lemma decode_raw_finite r :
  finite_region r -> exists p, decode_raw r = Ok p.
Proof.
  intros Hfin; destruct r; cbn [decode_raw].
  - destruct (arc_fields_total block) as (g & ->); cbn [bind]; eauto.
  - destruct (read_string_from_block_total block0) as (d & ->).
    destruct (read_string_from_block_total block2) as (s & ->).
    destruct (pad_fields_total block4) as (g & ->); cbn [bind]; eauto.
  - destruct (track_fields_total block) as (g & ->); cbn [bind]; eauto.
  - destruct (text_fields_total block0) as (g & ->).
    destruct (read_string_from_block_total block1) as (s & ->).
    cbn [bind]; eauto.
  - destruct (fill_fields_total block) as (g & ->); cbn [bind]; eauto.
  - destruct (region_layer_total block0) as (l & ->); cbn [bind].
    destruct (Z.le_gt_cases 4 (len block1)) as [Hlen|Hlen].
    + destruct (region_vertices_decoded block1 Hlen Hfin) as (vs & -> & _).
      cbn [bind]; eauto.
    + unfold parse_region_vertices.
      destruct (Z.geb_spec (len block1) 4); [lia|]; cbn [bind]; eauto.
  - destruct (body_params_total block_0) as (q & ->); cbn [bind]; eauto.
Qed.

(** The next [read_block] of a parser that stands before an encoded
    block. *)
Ltac read_encoded :=
  match goal with
  | |- context [read_block (?pre ++ encode_block ?b ++ ?rest) (len ?pre)] =>
      rewrite (read_block_encoded pre b rest) by assumption; cbn [bind];
      try rewrite (app_assoc pre (encode_block b))
  end.

Ltac pure_step :=
  match goal with
  | |- bind ?m _ = _ => destruct m; cbn [bind]
  end.

(** On an encoded primitive, the block parser of its kind returns what
    its blocks decode to, and the offset right after the last block. *)
Lemma block_parser_encoded r pre rest :
  Forall (fun b => len b <= 100000) (raw_blocks r) ->
  exists parse_blocks,
    block_parser (byte_val (raw_tag r)) = Some parse_blocks /\
    parse_blocks (pre ++ encode_blocks (raw_blocks r) ++ rest) (len pre)
    = (p <- decode_raw r ;;
       Ok (p, len (pre ++ encode_blocks (raw_blocks r)))).
Proof.
  intros Hceil.
  destruct r; cbn [raw_blocks] in Hceil;
    repeat match goal with
           | H : Forall _ (_ :: _) |- _ =>
               apply Forall_cons_iff in H; destruct H
           end;
    (eexists; split; [reflexivity|]);
    unfold parse_arc_blocks, parse_pad_blocks_v2, parse_track_blocks,
      parse_text_blocks, parse_fill_blocks, parse_region_blocks,
      parse_component_body_blocks, encode_blocks;
    cbn [raw_blocks map concat decode_raw];
    rewrite ?app_nil_r, <- ?app_assoc;
    repeat first [read_encoded | pure_step];
    rewrite <- ?app_assoc; try reflexivity.
  all: match goal with
       | |- context [let '(_, _) := ?x in _] => destruct x
       end; reflexivity.
Qed.

Lemma nth_error_after {A} (pre : list A) x rest :
  nth_error (pre ++ x :: rest) (Z.to_nat (len pre)) = Some x.
Proof.
  unfold len; rewrite Nat2Z.id, nth_error_app2, Nat.sub_diag by lia.
  reflexivity.
Qed.

Lemma primitive_step_encoded r pre rest p :
  Forall (fun b => len b <= 100000) (raw_blocks r) ->
  decode_raw r = Ok p ->
  primitive_step (pre ++ encode_primitive r ++ rest) (len pre)
  = Ok (PNext (rname_of (byte_val (raw_tag r))) p
              (len (pre ++ encode_primitive r))).
Proof.
  intros Hceil Hp; unfold encode_primitive; cbn [app].
  rewrite (primitive_step_at _ _ (raw_tag r));
    [|apply len_nonneg|apply nth_error_after].
  destruct (block_parser_encoded r (pre ++ [raw_tag r]) rest Hceil)
    as (parse_blocks & -> & E).
  replace ((pre ++ [raw_tag r]) ++ encode_blocks (raw_blocks r) ++ rest)
    with (pre ++ raw_tag r :: encode_blocks (raw_blocks r) ++ rest) in E
    by (rewrite <- app_assoc; reflexivity).
  replace (len (pre ++ [raw_tag r])) with (len pre + 1) in E
    by (rewrite len_app; reflexivity).
  rewrite E, Hp; cbn [bind].
  replace ((pre ++ [raw_tag r]) ++ encode_blocks (raw_blocks r))
    with (pre ++ raw_tag r :: encode_blocks (raw_blocks r))
    by (rewrite <- app_assoc; reflexivity).
  destruct r; reflexivity.
Qed.

Lemma primitive_loop_encoded rs :
  Forall well_formed rs ->
  Forall finite_region rs ->
  exists ps,
    decodes_to rs ps /\
    forall fuel pre rest acc,
      (length rs < fuel)%nat ->
      primitive_loop fuel (pre ++ encode_primitives rs ++ [x00] ++ rest)
                     (len pre) acc
      = Some (Ok {| how := Done;
                    final_offset := len (pre ++ encode_primitives rs);
                    primitives := acc ++ ps |}).
Proof.
  induction 1 as [|r rs Hr _ IH]; intros Hfin.
  - exists []; split; [constructor|].
    intros [|fuel] pre rest acc Hf; [cbn in Hf; lia|].
    cbn [encode_primitives flat_map app primitive_loop].
    rewrite (primitive_step_at _ _ x00);
      [|apply len_nonneg|apply nth_error_after].
    rewrite !app_nil_r; reflexivity.
  - apply Forall_cons_iff in Hfin as [Hf1 Hfin].
    destruct (IH Hfin) as (ps & Hps & IH').
    destruct (decode_raw_finite r Hf1) as (p & Hp).
    exists ((rname_of (byte_val (raw_tag r)), p) :: ps); split.
    { constructor; [split; [reflexivity|exact Hp]|exact Hps]. }
    intros [|fuel] pre rest acc Hf; [cbn in Hf; lia|].
    cbn [length] in Hf.
    cbn [encode_primitives flat_map primitive_loop].
    fold (encode_primitives rs).
    rewrite <- (app_assoc (encode_primitive r)).
    rewrite (primitive_step_encoded r pre _ p Hr Hp).
    rewrite (app_assoc pre (encode_primitive r)).
    rewrite IH' by lia.
    rewrite <- !app_assoc; reflexivity.
Qed.

Lemma length_encode_primitives rs :
  (length rs <= length (encode_primitives rs))%nat.
Proof.
  induction rs as [|r rs IH]; [apply Nat.le_refl|].
  cbn [length encode_primitives flat_map encode_primitive app].
  fold (encode_primitives rs); rewrite length_app; lia.
Qed.

(** X28: a footprint buffer that holds N well-formed primitives, the
    coordinates read of every Region among them finite, and then a single
    0x00 tag byte decodes to exactly N primitives, one for each primitive
    of the buffer and of its kind; the loop ends in the Done state with
    the offset at the terminator, and what follows the terminator has no
    part in the result.  [pre] is what comes before the primitives; for
    [parse_footprint_data] it is the name block. *)
Theorem finite_stream_decodes (rs : list raw_primitive) :
  Forall well_formed rs ->
  Forall finite_region rs ->
  exists ps,
    length ps = length rs /\
    decodes_to rs ps /\
    (forall pre rest,
        parse_primitives (pre ++ encode_primitives rs ++ [x00] ++ rest)
                         (len pre)
        = Some (Ok {| how := Done;
                      final_offset := len pre + len (encode_primitives rs);
                      primitives := ps |})) /\
    (forall name_block rest,
        len name_block < 2 ^ 32 ->
        exists comp_name,
          parse_footprint_data
            (encode_block name_block ++ encode_primitives rs ++ [x00] ++ rest)
          = Some (Ok (Primitives comp_name (4 + len name_block)
                        {| how := Done;
                           final_offset := 4 + len name_block
                                           + len (encode_primitives rs);
                           primitives := ps |}))).
Proof.
  intros Hwf Hfin.
  destruct (primitive_loop_encoded rs Hwf Hfin) as (ps & Hps & Hloop).
  assert (Hmain : forall pre rest,
             parse_primitives (pre ++ encode_primitives rs ++ [x00] ++ rest)
                              (len pre)
             = Some (Ok {| how := Done;
                           final_offset := len pre + len (encode_primitives rs);
                           primitives := ps |})).
  { intros pre rest; unfold parse_primitives.
    rewrite Hloop, len_app; [reflexivity|].
    unfold primitive_fuel; rewrite !len_app.
    pose proof (length_encode_primitives rs); pose proof (len_nonneg rest).
    unfold len in *; cbn [length] in *. lia. }
  exists ps; split; [|split; [exact Hps|split; [exact Hmain|]]].
  { symmetry; eapply Forall2_length; exact Hps. }
  intros name_block rest Hname.
  pose proof (len_nonneg (encode_primitives rs)) as Hn1.
  pose proof (len_nonneg rest) as Hn2.
  pose proof (len_nonneg name_block) as Hn3.
  set (data := encode_block name_block ++ encode_primitives rs ++ [x00] ++ rest).
  assert (Hlen : len data = 4 + len name_block + len (encode_primitives rs)
                            + 1 + len rest).
  { unfold data; rewrite !len_app, len_encode_block.
    change (len [x00]) with 1; lia. }
  assert (Hbl : unpack_from fmt_I data 0 = Ok (len name_block)).
  { rewrite unpack_from_I by lia; f_equal.
    unfold data, encode_block; rewrite <- app_assoc.
    pose proof (slice_middle [] (to_bytes_le 4 (len name_block))
                  (name_block ++ encode_primitives rs ++ [x00] ++ rest)
                  0 (0 + 4) eq_refl eq_refl) as Hs.
    rewrite app_nil_l in Hs; change (0 + 4) with 4 in *; rewrite Hs.
    apply le_combine_to_bytes.
    pose proof (len_nonneg name_block).
    change (256 ^ Z.of_nat 4) with (2 ^ 32); lia. }
  destruct (index_ok data 4) as (name_len & Hidx & _); [lia|].
  eexists; unfold parse_footprint_data.
  destruct (Z.ltb_spec (len data) 5); [lia|].
  rewrite Hbl, Z.gtb_ltb.
  destruct (Z.ltb_spec (len data) (len name_block + 4)); [lia|].
  rewrite Hidx.
  destruct (Z.geb_spec (4 + len name_block) (len data)); [lia|].
  replace (4 + len name_block) with (len (encode_block name_block))
    by apply len_encode_block.
  unfold data; rewrite Hmain; reflexivity.
Qed.

Lemma finite_stream_decodes_witness :
  exists ps,
    length ps = length three_primitives /\
    decodes_to three_primitives ps /\
    (forall pre rest,
        parse_primitives
          (pre ++ encode_primitives three_primitives ++ [x00] ++ rest)
          (len pre)
        = Some (Ok {| how := Done;
                      final_offset :=
                        len pre + len (encode_primitives three_primitives);
                      primitives := ps |})) /\
    (forall name_block rest,
        len name_block < 2 ^ 32 ->
        exists comp_name,
          parse_footprint_data
            (encode_block name_block ++ encode_primitives three_primitives
               ++ [x00] ++ rest)
          = Some (Ok (Primitives comp_name (4 + len name_block)
                        {| how := Done;
                           final_offset :=
                             4 + len name_block
                             + len (encode_primitives three_primitives);
                           primitives := ps |}))).
Proof.
  apply (finite_stream_decodes three_primitives).
  - repeat constructor; cbn; lia.
  - repeat constructor.
Defined.

(** C8: the claim fails at a buffer of one well-formed primitive and the
    0x00 tag byte: a Region with an empty properties block and a vertices
    block of 52 bytes, the first coordinate a NaN.  Both blocks are within
    the ceiling and the buffer is their encoding; yet the loop ends with a
    ValueError, with no primitive and not in the Done state, and so does
    [parse_footprint_data] behind a name block. *)
Theorem well_formed_nan_region_raises :
  Forall well_formed [RawRegion [] nan_vertices_block] /\
  nan_region_stream
  = (encode_primitives [RawRegion [] nan_vertices_block] ++ [x00])%list /\
  parse_primitives nan_region_stream 0 = Some (Raise ValueError) /\
  parse_footprint_data (encode_block [x01; x41] ++ nan_region_stream)
  = Some (Raise ValueError).
Proof.
  split; [repeat constructor; cbn; lia|].
  split; [reflexivity|split; reflexivity].
Qed.

(** ** More about blocks and the strings in them *)

Lemma firstn_plus {A} (l : list A) n m :
  firstn (n + m) l = firstn n l ++ firstn m (skipn n l).
Proof.
  revert l; induction n as [|n IH]; intros [|x l]; cbn [Nat.add firstn skipn app];
    try reflexivity.
  - now rewrite firstn_nil.
  - now rewrite IH.
Qed.

Lemma slice_split {A} (l : list A) a b c :
  0 <= a -> a <= b -> b <= c ->
  slice l a c = slice l a b ++ slice l b c.
Proof.
  intros Ha Hab Hbc; unfold slice.
  replace (Z.to_nat (c - a)) with (Z.to_nat (b - a) + Z.to_nat (c - b))%nat
    by lia.
  rewrite firstn_plus, skipn_skipn.
  do 3 f_equal; lia.
Qed.

Lemma byte_of_val b : byte_of (byte_val b) = b.
Proof.
  unfold byte_of, byte_val.
  pose proof (Byte.to_N_bounded b).
  rewrite Z.mod_small by lia.
  rewrite N2Z.id, Byte.of_to_N; reflexivity.
Qed.

Lemma to_bytes_le_combine bs :
  to_bytes_le (length bs) (le_combine bs) = bs.
Proof.
  induction bs as [|b t IH]; [reflexivity|].
  cbn [length to_bytes_le le_combine].
  pose proof (byte_val_range b).
  f_equal.
  - rewrite <- (byte_of_val b) at 2; unfold byte_of.
    replace ((byte_val b + 256 * le_combine t) mod 256)
      with (byte_val b mod 256) by div_lia.
    reflexivity.
  - replace ((byte_val b + 256 * le_combine t) / 256) with (le_combine t)
      by div_lia.
    exact IH.
Qed.

Lemma length_slice_exact {A} (l : list A) a b :
  0 <= a -> a <= b -> b <= len l ->
  length (slice l a b) = Z.to_nat (b - a).
Proof.
  intros; pose proof (len_slice l a b); unfold len in *; lia.
Qed.

(** X1: [read_block] never raises and never leaves the buffer: it returns
    the empty block with the offset unchanged, or a block of at most 100000
    bytes that lies in the buffer right after its 4-byte prefix, with the
    offset right after the block. *)
Theorem read_block_stays_in_buffer (data : bytes) (offset : Z) :
  0 <= offset ->
  exists block offset',
    read_block data offset = Ok (block, offset') /\
    len block <= 100000 /\
    (block = [] /\ offset' = offset \/
     offset' = offset + 4 + len block /\ offset' <= len data /\
     block = slice data (offset + 4) offset').
Proof.
  intros H0.
  destruct (Z.lt_ge_cases (len data) (offset + 4)) as [Hs|Hl].
  { rewrite read_block_short by assumption.
    exists [], offset; cbn; repeat split; try lia; auto. }
  rewrite read_block_spec by lia; cbv zeta.
  set (L := le_combine (slice data offset (offset + 4))).
  assert (0 <= L) by apply le_combine_range.
  destruct (Z.ltb_spec 100000 L);
    [exists [], offset; cbn; repeat split; try lia; auto|].
  destruct (Z.ltb_spec (len data) (offset + 4 + L));
    [exists [], offset; cbn; repeat split; try lia; auto|].
  cbn [orb].
  assert (len (slice data (offset + 4) (offset + 4 + L)) = L)
    by (rewrite len_slice; lia).
  do 2 eexists; split; [reflexivity|split; [lia|right]].
  repeat split; lia.
Qed.

Lemma read_block_stays_in_buffer_witness :
  exists block offset',
    read_block [x41; x01; x00; x00; x00; x42; x43] 1 = Ok (block, offset') /\
    len block <= 100000 /\
    (block = [] /\ offset' = 1 \/
     offset' = 1 + 4 + len block /\
     offset' <= len [x41; x01; x00; x00; x00; x42; x43] /\
     block = slice [x41; x01; x00; x00; x00; x42; x43] (1 + 4) offset').
Proof.
  apply (read_block_stays_in_buffer [x41; x01; x00; x00; x00; x42; x43] 1).
  lia.
Defined.

(** X2: what [read_block] consumes is the encoding of what it returns:
    whenever the offset moves, the bytes between the old and the new offset
    are the 4-byte little-endian length of the block followed by the
    block. *)
Theorem read_block_consumes_encoding (data : bytes) (offset : Z)
        (block : bytes) (offset' : Z) :
  0 <= offset ->
  read_block data offset = Ok (block, offset') ->
  offset' <> offset ->
  slice data offset offset' = encode_block block.
Proof.
  intros H0 Hr Hmoved.
  destruct (Z.lt_ge_cases (len data) (offset + 4)) as [Hs|Hl].
  { rewrite read_block_short in Hr by assumption; congruence. }
  rewrite read_block_spec in Hr by lia; cbv zeta in Hr.
  set (hdr := slice data offset (offset + 4)) in *.
  assert (0 <= le_combine hdr) by apply le_combine_range.
  destruct (_ || _) eqn:E; [congruence|].
  apply orb_false_iff in E as [_ Hfit]; apply Z.ltb_ge in Hfit.
  injection Hr as <- <-.
  rewrite (slice_split data offset (offset + 4)) by lia; fold hdr.
  unfold encode_block; f_equal.
  rewrite len_slice by lia.
  replace (offset + 4 + le_combine hdr - (offset + 4)) with (le_combine hdr)
    by lia.
  assert (Hlen : length hdr = 4%nat)
    by (unfold hdr; rewrite length_slice_exact by lia; lia).
  rewrite <- Hlen at 1; symmetry; apply to_bytes_le_combine.
Qed.

Lemma read_block_consumes_encoding_witness :
  slice [x41; x01; x00; x00; x00; x42; x43] 1 6 = encode_block [x42].
Proof.
  apply (read_block_consumes_encoding
           [x41; x01; x00; x00; x00; x42; x43] 1 [x42] 6).
  - lia.
  - reflexivity.
  - lia.
Defined.

Lemma decode_charmap_length table bs text :
  decode_charmap table bs = Ok text -> length text = length bs.
Proof.
  revert text; induction bs as [|b t IH]; intros text; cbn [decode_charmap].
  - intros [= <-]; reflexivity.
  - destruct (table b); [|discriminate].
    destruct (decode_charmap table t) as [s|]; cbn [bind]; [|discriminate].
    intros [= <-]; cbn [length]; f_equal; auto.
Qed.

Lemma decode_ascii_only s :
  ascii_only s ->
  decode_ascii s = Ok (ascii_text s) /\ decode_cp1252 s = Ok (ascii_text s).
Proof.
  unfold decode_ascii, decode_cp1252, ascii_text.
  induction 1 as [|b t Hb _ [IH1 IH2]]; [split; reflexivity|].
  cbn [decode_charmap map]; rewrite IH1, IH2.
  unfold cp1252_char.
  destruct (N.ltb_spec (Byte.to_N b) 128); [|lia].
  split; reflexivity.
Qed.

Lemma byte_val_of_small z : 0 <= z < 256 -> byte_val (byte_of z) = z.
Proof. intros; rewrite byte_val_of; apply Z.mod_small; assumption. Qed.

Lemma index_head b l : index (b :: l) 0 = Ok (byte_val b).
Proof.
  unfold index; rewrite len_cons; pose proof (len_nonneg l).
  destruct (Z.ltb_spec 0 (1 + len l)); [reflexivity|lia].
Qed.

(** X3: a string written as its length byte and its bytes is read back
    from the head of a block, whatever follows it in the block: the result
    is the text of the bytes in the code page, or the empty string when
    they hold a byte without a character. *)
Theorem read_string_from_block_reads_back (s extra : bytes) :
  len s <= 255 ->
  read_string_from_block (byte_of (len s) :: s ++ extra)
  = try_except (decode_cp1252 s) (fun _ => Ok []).
Proof.
  intros Hs; pose proof (len_nonneg s); pose proof (len_nonneg extra).
  unfold read_string_from_block.
  rewrite index_head, byte_val_of_small by lia; cbn [bind].
  rewrite len_cons, len_app.
  destruct (Z.ltb_spec (1 + (len s + len extra)) 1); [lia|].
  rewrite Z.gtb_ltb.
  destruct (Z.ltb_spec (1 + (len s + len extra)) (len s + 1)); [lia|].
  change (byte_of (len s) :: s ++ extra)
    with ([byte_of (len s)] ++ s ++ extra).
  rewrite (slice_middle [byte_of (len s)] s extra); reflexivity.
Qed.

Lemma read_string_from_block_reads_back_witness :
  read_string_from_block
    (byte_of (len (ascii_bytes "R1")) :: ascii_bytes "R1" ++ [x00; xff])
  = try_except (decode_cp1252 (ascii_bytes "R1")) (fun _ => Ok []).
Proof.
  apply (read_string_from_block_reads_back (ascii_bytes "R1") [x00; xff]).
  cbn; lia.
Defined.

(** X4: the string [read_string_from_block] finds in a block has at most
    255 characters and is shorter than the block; an empty block gives the
    empty string. *)
Theorem read_string_from_block_is_short (block : bytes) (s : str) :
  read_string_from_block block = Ok s ->
  len s <= 255 /\ len s <= Z.max 0 (len block - 1).
Proof.
  unfold read_string_from_block.
  pose proof (len_nonneg block).
  destruct (Z.ltb_spec (len block) 1); [intros [= <-]; cbn; lia|].
  destruct (index_ok block 0) as (n & -> & Hn); [lia|]; cbn [bind].
  rewrite Z.gtb_ltb.
  destruct (Z.ltb_spec (len block) (n + 1)); [intros [= <-]; cbn; lia|].
  destruct (decode_cp1252 (slice block 1 (1 + n))) as [text|e] eqn:E;
    cbn [try_except]; intros [= <-]; [|cbn; lia].
  apply decode_charmap_length in E.
  pose proof (len_slice block 1 (1 + n)); unfold len in *; lia.
Qed.

Lemma read_string_from_block_is_short_witness :
  len (u "AB") <= 255 /\ len (u "AB") <= Z.max 0 (len [x02; x41; x42; x43] - 1).
Proof.
  apply (read_string_from_block_is_short [x02; x41; x42; x43] (u "AB")).
  reflexivity.
Defined.

(** *** [parse_string_block] *)

Lemma unpack_from_I_inv data offset L :
  unpack_from fmt_I data offset = Ok L ->
  0 <= offset /\ offset + 4 <= len data /\
  L = le_combine (slice data offset (offset + 4)) /\ 0 <= L.
Proof.
  unfold unpack_from; cbn [calcsize].
  destruct (Z.ltb_spec offset 0); [discriminate|].
  destruct (Z.ltb_spec (len data) (offset + 4)); [discriminate|].
  cbn [orb]; rewrite int_from_bytes_unsigned; intros [= <-].
  repeat split; try lia; apply le_combine_range.
Qed.

(** X5: [parse_string_block] never raises.  When the block does not fit in
    the buffer it returns the empty string and the offset unchanged; when
    it fits, whatever its length, the offset moves right after the block,
    whether the string in it could be decoded or not, and the string has at
    most 255 characters and is shorter than the block. *)
Theorem parse_string_block_skips_block (data : bytes) (offset : Z) :
  0 <= offset ->
  exists s offset',
    parse_string_block data offset = Ok (s, offset') /\
    len s <= 255 /\
    (s = [] /\ offset' = offset /\
     (forall L, unpack_from fmt_I data offset = Ok L ->
                len data < offset + 4 + L)
     \/
     exists L,
       unpack_from fmt_I data offset = Ok L /\
       offset' = offset + 4 + L /\ offset' <= len data /\
       len s <= Z.max 0 (L - 1)).
Proof.
  intros H0; unfold parse_string_block; rewrite Z.gtb_ltb.
  destruct (Z.ltb_spec (len data) (offset + 4)).
  { exists [], offset; split; [reflexivity|split; [cbn; lia|left]].
    repeat split; intros L HL; apply unpack_from_I_inv in HL; lia. }
  destruct (unpack_from fmt_I data offset) as [L|e] eqn:EL.
  2:{ destruct (unpack_from_ok fmt_I data offset) as (v & Hv);
        [lia|cbn; lia|congruence]. }
  pose proof (unpack_from_I_inv _ _ _ EL) as (_ & _ & _ & HL0).
  cbn [bind]; rewrite Z.gtb_ltb.
  destruct (Z.ltb_spec (len data) (offset + 4 + L)).
  { exists [], offset; split; [reflexivity|split; [cbn; lia|left]].
    repeat split; intros L' [= <-]; assumption. }
  assert (Hdefault : exists (s : str) offset',
             Ok ([], offset + 4 + L) = Ok (s, offset') /\ len s <= 255 /\
             (s = [] /\ offset' = offset /\
              (forall L0, Ok L = Ok L0 -> len data < offset + 4 + L0)
              \/ exists L0, Ok L = Ok L0 /\ offset' = offset + 4 + L0 /\
                            offset' <= len data /\
                            len s <= Z.max 0 (L0 - 1))).
  { exists [], (offset + 4 + L); split; [reflexivity|split; [cbn; lia|right]].
    exists L; repeat split; cbn; lia. }
  rewrite Z.gtb_ltb; destruct (Z.ltb_spec 0 L); cbn [bind]; [|exact Hdefault].
  destruct (index_ok data (offset + 4)) as (n & -> & Hn); [lia|]; cbn [bind].
  destruct (Z.leb_spec (n + 5) (L + 4)); cbn [bind]; [|exact Hdefault].
  destruct (decode_ascii (slice data (offset + 5) (offset + 5 + n)))
    as [text|e] eqn:E; cbn [bind try_except]; [|exact Hdefault].
  apply decode_charmap_length in E.
  assert (len text = n).
  { pose proof (len_slice data (offset + 5) (offset + 5 + n)).
    unfold len in *; lia. }
  exists text, (offset + 4 + L); split; [reflexivity|split; [lia|right]].
  exists L; repeat split; lia.
Qed.

Lemma parse_string_block_skips_block_witness :
  exists s offset',
    parse_string_block [x03; x00; x00; x00; x02; xff; x41] 0
    = Ok (s, offset') /\
    len s <= 255 /\
    (s = [] /\ offset' = 0 /\
     (forall L, unpack_from fmt_I [x03; x00; x00; x00; x02; xff; x41] 0
                = Ok L ->
                len [x03; x00; x00; x00; x02; xff; x41] < 0 + 4 + L)
     \/
     exists L,
       unpack_from fmt_I [x03; x00; x00; x00; x02; xff; x41] 0 = Ok L /\
       offset' = 0 + 4 + L /\
       offset' <= len [x03; x00; x00; x00; x02; xff; x41] /\
       len s <= Z.max 0 (L - 1)).
Proof.
  apply (parse_string_block_skips_block
           [x03; x00; x00; x00; x02; xff; x41] 0).
  lia.
Defined.

Lemma unpack_length_prefix pre payload rest :
  len payload < 2 ^ 32 ->
  unpack_from fmt_I (pre ++ encode_block payload ++ rest) (len pre)
  = Ok (len payload).
Proof.
  intros Hp.
  pose proof (len_nonneg pre); pose proof (len_nonneg payload);
    pose proof (len_nonneg rest).
  rewrite unpack_from_I;
    [|lia|rewrite !len_app, len_encode_block; lia].
  unfold encode_block; rewrite <- app_assoc.
  rewrite (slice_middle pre (to_bytes_le 4 (len payload)));
    [|reflexivity|now rewrite len_to_bytes_le].
  f_equal; apply le_combine_to_bytes.
  change (256 ^ Z.of_nat 4) with (2 ^ 32); lia.
Qed.

(** X6: an ASCII string of at most 255 bytes, written as its length byte
    and its bytes at the head of an encoded block, is read back by
    [parse_string_block], with the offset right after the block; unlike
    [read_block], this holds for a block of any length. *)
Theorem parse_string_block_reads_back (pre s extra rest : bytes) :
  ascii_only s ->
  len s <= 255 ->
  len (byte_of (len s) :: s ++ extra) < 2 ^ 32 ->
  parse_string_block
    (pre ++ encode_block (byte_of (len s) :: s ++ extra) ++ rest) (len pre)
  = Ok (ascii_text s,
        len (pre ++ encode_block (byte_of (len s) :: s ++ extra))).
Proof.
  intros Hascii Hs Hp.
  set (payload := byte_of (len s) :: s ++ extra) in *.
  set (data := pre ++ encode_block payload ++ rest).
  pose proof (len_nonneg pre); pose proof (len_nonneg s);
    pose proof (len_nonneg extra); pose proof (len_nonneg rest).
  assert (Hpl : len payload = 1 + len s + len extra)
    by (unfold payload; rewrite len_cons, len_app; lia).
  assert (Hd : len data = len pre + 4 + len payload + len rest)
    by (unfold data; rewrite !len_app, len_encode_block; lia).
  assert (Hshape : data = (pre ++ to_bytes_le 4 (len payload))
                            ++ byte_of (len s) :: s ++ extra ++ rest).
  { unfold data, encode_block, payload.
    rewrite <- !app_assoc; cbn [app]; rewrite <- app_assoc; reflexivity. }
  assert (Hpre : len (pre ++ to_bytes_le 4 (len payload)) = len pre + 4)
    by (rewrite len_app, len_to_bytes_le; lia).
  unfold parse_string_block; fold data.
  rewrite Z.gtb_ltb; destruct (Z.ltb_spec (len data) (len pre + 4)); [lia|].
  unfold data at 1; rewrite unpack_length_prefix by assumption; cbn [bind].
  rewrite Z.gtb_ltb.
  destruct (Z.ltb_spec (len data) (len pre + 4 + len payload)); [lia|].
  rewrite Z.gtb_ltb; destruct (Z.ltb_spec 0 (len payload)); [|lia].
  assert (Hidx : index data (len pre + 4) = Ok (len s)).
  { rewrite <- Hpre, Hshape.
    destruct (index_nth ((pre ++ to_bytes_le 4 (len payload))
                           ++ byte_of (len s) :: s ++ extra ++ rest)
                        (len (pre ++ to_bytes_le 4 (len payload)))
                        (byte_of (len s))) as (-> & _);
      [apply len_nonneg|apply nth_error_after|].
    rewrite byte_val_of_small by lia; reflexivity. }
  rewrite Hidx; cbn [bind].
  destruct (Z.leb_spec (len s + 5) (len payload + 4)); [|lia].
  assert (Hslice : slice data (len pre + 5) (len pre + 5 + len s) = s).
  { rewrite Hshape.
    change (byte_of (len s) :: s ++ extra ++ rest)
      with ([byte_of (len s)] ++ s ++ extra ++ rest).
    rewrite app_assoc.
    apply slice_middle; [|reflexivity].
    rewrite len_app, Hpre; change (len [byte_of (len s)]) with 1; lia. }
  rewrite Hslice, (proj1 (decode_ascii_only s Hascii)); cbn [bind try_except].
  do 2 f_equal; rewrite len_app, len_encode_block; lia.
Qed.

Lemma parse_string_block_reads_back_witness :
  parse_string_block
    ([x07] ++ encode_block (byte_of (len (ascii_bytes "SOT23"))
                              :: ascii_bytes "SOT23" ++ [x00])
          ++ [x02; x00])
    (len [x07])
  = Ok (ascii_text (ascii_bytes "SOT23"),
        len ([x07] ++ encode_block (byte_of (len (ascii_bytes "SOT23"))
                                      :: ascii_bytes "SOT23" ++ [x00]))).
Proof.
  apply (parse_string_block_reads_back
           [x07] (ascii_bytes "SOT23") [x00] [x02; x00]).
  - repeat constructor.
  - cbn; lia.
  - cbn; lia.
Defined.

(** ** More about property text *)

Lemma contains_app c s t :
  contains c (s ++ t) = contains c s || contains c t.
Proof. unfold contains; apply existsb_app. Qed.

Lemma contains_cons c x s :
  contains c (x :: s) = (x =? c)%N || contains c s.
Proof. unfold contains; cbn [existsb]; now rewrite (N.eqb_sym c x). Qed.

Lemma before_has_no_sep sep s : contains sep (before sep s) = false.
Proof.
  induction s as [|c t IH]; cbn [before]; [reflexivity|].
  destruct (N.eqb_spec c sep); [reflexivity|].
  rewrite contains_cons, IH.
  destruct (N.eqb_spec c sep); [contradiction|reflexivity].
Qed.

Lemma contains_before c sep s :
  contains c (before sep s) = true -> contains c s = true.
Proof.
  induction s as [|x t IH]; cbn [before]; [discriminate|].
  rewrite contains_cons.
  destruct (N.eqb_spec x sep); [discriminate|].
  rewrite contains_cons; destruct (x =? c)%N; cbn [orb]; auto.
Qed.

Lemma contains_after c sep s :
  contains c (after sep s) = true -> contains c s = true.
Proof.
  induction s as [|x t IH]; cbn [after]; [discriminate|].
  rewrite contains_cons.
  destruct (N.eqb_spec x sep); intros H; rewrite ?H, ?IH, ?orb_true_r; auto.
Qed.

(** The pieces of a split hold no separator, and nothing the text did not
    hold. *)
Lemma split_pieces sep s :
  split sep s <> [] /\
  Forall (fun piece => contains sep piece = false /\
                       forall c, contains c piece = true ->
                                 contains c s = true) (split sep s).
Proof.
  induction s as [|x t [Hne IH]]; cbn [split].
  - split; [discriminate|]; repeat constructor; auto.
  - destruct (N.eqb_spec x sep) as [->|Hx].
    + split; [discriminate|]; constructor.
      * split; [reflexivity|discriminate].
      * eapply Forall_impl; [|exact IH].
        intros piece [H1 H2]; split; [assumption|].
        intros c Hc; rewrite contains_cons, (H2 c Hc); apply orb_true_r.
    + destruct (split sep t) as [|h r]; [contradiction|].
      split; [discriminate|].
      apply Forall_cons_iff in IH as [[H1 H2] IH]; constructor.
      * split.
        { rewrite contains_cons, H1.
          destruct (N.eqb_spec x sep); [contradiction|reflexivity]. }
        intros c; rewrite !contains_cons.
        destruct (x =? c)%N; cbn [orb]; auto.
      * eapply Forall_impl; [|exact IH].
        intros piece [H3 H4]; split; [assumption|].
        intros c Hc; rewrite contains_cons, (H4 c Hc); apply orb_true_r.
Qed.

Lemma dict_set_keys {V} (d : dict V) k v :
  map fst (dict_set d k v)
  = if existsb (fun k' => str_eqb k' k) (map fst d) then map fst d
    else map fst d ++ [k].
Proof.
  induction d as [|[k0 v0] d IH]; cbn [dict_set map fst existsb app];
    [reflexivity|].
  destruct (str_eqb k0 k); cbn [orb map fst]; [reflexivity|].
  rewrite IH; destruct (existsb _ _); reflexivity.
Qed.

Lemma dict_set_nodup {V} (d : dict V) k v :
  NoDup (map fst d) -> NoDup (map fst (dict_set d k v)).
Proof.
  intros Hd; rewrite dict_set_keys.
  destruct (existsb _ _) eqn:E; [assumption|].
  apply NoDup_app; [assumption|repeat constructor; auto|].
  intros x Hx [->|[]].
  assert (existsb (fun k' => str_eqb k' x) (map fst d) = true); [|congruence].
  apply existsb_exists; exists x; split; [assumption|apply str_eqb_refl].
Qed.

Lemma dict_set_forall {V} (P : str * V -> Prop) (d : dict V) k v :
  Forall P d -> (forall k', k' = k -> P (k', v)) -> Forall P (dict_set d k v).
Proof.
  intros Hd Hk; induction Hd as [|[k0 v0] d H0 Hd IH]; cbn [dict_set].
  - repeat constructor; auto.
  - destruct (str_eqb_spec k0 k) as [->|Hne]; constructor; auto.
Qed.

(** X7: in the map [parse_properties] returns, the keys are pairwise
    distinct, no key holds an ["="] or a ["|"], and no value holds a
    ["|"]; the parser returns such a map for every input. *)
Theorem parse_properties_entries (data : bytes) :
  exists props,
    parse_properties data = Ok props /\
    NoDup (map fst props) /\ Forall property_entry props.
Proof.
  destruct (decode_cp1252 data) as [text|e] eqn:E.
  2:{ exists []; split; [eapply parse_properties_undecodable; eassumption|].
      split; constructor. }
  eexists; split; [apply (parse_properties_decoded _ _ E)|].
  destruct (split_pieces 124 text) as [_ Hpieces].
  assert (Hpieces' : Forall (fun piece => contains 124 piece = false)
                            (split 124 text)).
  { eapply Forall_impl; [|exact Hpieces]; intros piece [H _]; exact H. }
  clear Hpieces.
  assert (Hinit : NoDup (map fst (@nil (str * str)))
                  /\ Forall property_entry []) by (split; constructor).
  revert Hinit; generalize (@nil (str * str)) as acc.
  induction Hpieces' as [|piece rest Hp _ IH]; intros acc Hacc;
    cbn [fold_left]; [exact Hacc|].
  apply IH; unfold put_piece.
  destruct (contains 61 piece) eqn:E61; [|exact Hacc].
  destruct Hacc as [Hnd Hall]; split; [now apply dict_set_nodup|].
  apply dict_set_forall; [assumption|].
  intros k' ->; unfold property_entry; cbn [fst snd].
  split; [apply before_has_no_sep|split].
  - destruct (contains 124 (before 61 piece)) eqn:Ec; [|reflexivity].
    apply contains_before in Ec; congruence.
  - destruct (contains 124 (after 61 piece)) eqn:Ec; [|reflexivity].
    apply contains_after in Ec; congruence.
Qed.

Lemma before_fresh sep k v :
  contains sep k = false -> before sep (k ++ sep :: v) = k.
Proof.
  induction k as [|c k IH]; cbn [app before].
  - rewrite N.eqb_refl; reflexivity.
  - rewrite contains_cons.
    destruct (N.eqb_spec c sep); [discriminate|]; cbn [orb].
    intros H; now rewrite IH.
Qed.

Lemma after_fresh sep k v :
  contains sep k = false -> after sep (k ++ sep :: v) = v.
Proof.
  induction k as [|c k IH]; cbn [app after].
  - rewrite N.eqb_refl; reflexivity.
  - rewrite contains_cons.
    destruct (N.eqb_spec c sep); [discriminate|]; cbn [orb]; exact IH.
Qed.

Lemma split_fresh sep piece :
  contains sep piece = false -> split sep piece = [piece].
Proof.
  induction piece as [|c t IH]; cbn [split]; [reflexivity|].
  rewrite contains_cons.
  destruct (N.eqb_spec c sep); [discriminate|]; cbn [orb].
  intros H; now rewrite IH.
Qed.

Lemma split_app_sep sep piece s :
  contains sep piece = false ->
  split sep (piece ++ sep :: s) = piece :: split sep s.
Proof.
  induction piece as [|c t IH]; cbn [app split].
  - rewrite N.eqb_refl; reflexivity.
  - rewrite contains_cons.
    destruct (N.eqb_spec c sep); [discriminate|]; cbn [orb].
    intros H; now rewrite IH.
Qed.

Lemma split_join sep pieces :
  pieces <> [] ->
  Forall (fun piece => contains sep piece = false) pieces ->
  split sep (join sep pieces) = pieces.
Proof.
  intros Hne Hall; induction Hall as [|piece rest Hp Hrest IH];
    [contradiction|].
  destruct rest as [|piece' rest]; [now apply split_fresh|].
  change (join sep (piece :: piece' :: rest))
    with (piece ++ sep :: join sep (piece' :: rest)).
  rewrite split_app_sep by assumption.
  rewrite IH by discriminate; reflexivity.
Qed.

Lemma dict_set_fresh {V} (d : dict V) k v :
  ~ In k (map fst d) -> dict_set d k v = d ++ [(k, v)].
Proof.
  induction d as [|[k0 v0] d IH]; cbn [dict_set map fst In app];
    [reflexivity|].
  intros Hn; destruct (str_eqb_spec k0 k) as [->|Hne]; [tauto|].
  rewrite IH by tauto; reflexivity.
Qed.

Lemma put_formatted props acc :
  Forall property_entry props ->
  NoDup (map fst acc ++ map fst props) ->
  fold_left put_piece (map format_property props) acc = acc ++ props.
Proof.
  intros Hall; revert acc; induction Hall as [|[k v] props Hkv _ IH];
    intros acc Hnd; cbn [map fold_left]; [now rewrite app_nil_r|].
  destruct Hkv as (Hk & _ & _); cbn [fst snd] in *.
  unfold put_piece at 2, format_property; cbn [fst snd].
  rewrite contains_app, contains_cons, N.eqb_refl, orb_true_r.
  rewrite before_fresh, after_fresh by assumption.
  rewrite dict_set_fresh.
  - rewrite IH; [rewrite <- app_assoc; reflexivity|].
    rewrite map_app, <- app_assoc; exact Hnd.
  - apply NoDup_remove_2 in Hnd; intros Hin; apply Hnd, in_or_app; auto.
Qed.

Lemma decode_encode_ascii s :
  ascii_str s -> decode_cp1252 (encode_ascii s) = Ok s.
Proof.
  unfold decode_cp1252, encode_ascii.
  induction 1 as [|c s Hc _ IH]; [reflexivity|].
  cbn [map decode_charmap]; rewrite IH.
  unfold cp1252_char.
  assert (Hb : Byte.to_N (byte_of (Z.of_N c)) = c).
  { pose proof (byte_val_of_small (Z.of_N c)) as Hv.
    unfold byte_val in Hv; lia. }
  rewrite Hb; destruct (N.ltb_spec c 128); [reflexivity|lia].
Qed.

(** X8: a map with pairwise distinct keys, no ["="] or ["|"] in a key, no
    ["|"] in a value and ASCII characters only, written as [key=value]
    pieces joined by ["|"], is read back by [parse_properties] as it was,
    entry for entry and in order; a value may hold ["="]. *)
Theorem parse_properties_reads_back (props : dict str) :
  NoDup (map fst props) ->
  Forall property_entry props ->
  ascii_str (format_properties props) ->
  parse_properties (encode_ascii (format_properties props)) = Ok props.
Proof.
  intros Hnd Hall Hascii.
  rewrite (parse_properties_decoded _ _ (decode_encode_ascii _ Hascii)).
  f_equal; unfold format_properties.
  destruct props as [|kv props]; [reflexivity|].
  rewrite split_join; [apply (put_formatted (kv :: props) []); assumption
                      |discriminate|].
  apply Forall_map; eapply Forall_impl; [|exact Hall].
  intros [k v] (H1 & H2 & H3); unfold format_property; cbn [fst snd] in *.
  rewrite contains_app, contains_cons, H2, H3; reflexivity.
Qed.

Lemma parse_properties_reads_back_witness :
  parse_properties
    (encode_ascii
       (format_properties [(u "RECORD", u "1"); (u "Name", u "a=b")]))
  = Ok [(u "RECORD", u "1"); (u "Name", u "a=b")].
Proof.
  apply (parse_properties_reads_back
           [(u "RECORD", u "1"); (u "Name", u "a=b")]).
  - repeat constructor; cbn; intuition discriminate.
  - repeat constructor.
  - repeat constructor.
Defined.

(** ** More about the SchLib record loop *)

Lemma total_records_set by_type k v :
  total_records (dict_set by_type k v)
  = total_records by_type - len (dict_get_default by_type k []) + len v.
Proof.
  unfold dict_get_default.
  induction by_type as [|[k0 v0] d IH];
    cbn [dict_set dict_get total_records fold_right snd].
  - cbn; lia.
  - destruct (str_eqb k0 k); cbn [total_records fold_right snd].
    + lia.
    + fold (total_records d) in *; fold (total_records (dict_set d k v)).
      rewrite IH; lia.
Qed.

Lemma total_records_track by_type rec_id props :
  total_records (track_record by_type rec_id props)
  = total_records by_type + 1.
Proof.
  unfold track_record.
  destruct (dict_get by_type rec_id) as [l|] eqn:E.
  - rewrite total_records_set, len_app.
    change (len [props]) with 1; lia.
  - rewrite !total_records_set, len_app.
    unfold dict_get_default.
    rewrite dict_get_set, str_eqb_refl, E.
    change (len [props]) with 1; change (len (@nil (dict pyval))) with 0; lia.
Qed.

Lemma record_step_keeps_invariant data st st' :
  loop_invariant data st ->
  record_step data st = Ok (Next st') ->
  loop_invariant data st'.
Proof.
  intros (Ht & H0 & Ho & Hl) E.
  apply record_step_next_inv in E as (H1 & H2 & _ & props & rec_id & _ & ->).
  unfold loop_invariant; cbn [record_num offset records_by_type].
  rewrite total_records_track; repeat split; try lia.
Qed.

Lemma record_loop_keeps_invariant fuel data st how_ st_end :
  loop_invariant data st ->
  record_loop fuel data st = Some (Ok (how_, st_end)) ->
  loop_invariant data st_end.
Proof.
  revert st; induction fuel as [|fuel IH]; intros st Hinv;
    cbn [record_loop]; [discriminate|].
  destruct (record_step data st) as [[h|st']|e] eqn:E.
  - intros [= _ <-]; exact Hinv.
  - apply IH; eapply record_step_keeps_invariant; eassumption.
  - discriminate.
Qed.

Lemma analyze_component_invariant data how_ st :
  analyze_component data = Completed how_ st -> loop_invariant data st.
Proof.
  unfold analyze_component.
  destruct (record_loop _ data initial_state) as [[[h s]|e]|] eqn:E;
    try discriminate.
  intros [= -> ->]; eapply record_loop_keeps_invariant; [|exact E].
  unfold loop_invariant; cbn; lia.
Qed.

(** X9: when a component's record loop completes, the record counter it
    reports is the number of records filed in the per-type summary, all
    types together. *)
Theorem record_summary_is_consistent (data : bytes) (how_ : loop_exit)
        (st : loop_state) :
  analyze_component data = Completed how_ st ->
  record_num st = total_records (records_by_type st).
Proof. intros H; apply (analyze_component_invariant _ _ _ H). Qed.

Lemma record_summary_is_consistent_witness :
  record_num {| offset := 7; record_num := 1;
                records_by_type := [(u "unknown", [[(u "A", VStr (u "1"))]])] |}
  = total_records [(u "unknown", [[(u "A", VStr (u "1"))]])].
Proof.
  apply (record_summary_is_consistent
           ([x03; x00; x00; x00] ++ ascii_bytes "A=1"
              ++ [x00; x00; x00; x00; x00]) EndMarker).
  reflexivity.
Defined.

(** X10: every record the loop counts took at least 5 bytes: when the loop
    completes, 5 times the record counter is at most the final offset and
    at most the length of the stream, so a stream of n bytes yields at most
    n / 5 records. *)
Theorem record_count_is_bounded (data : bytes) (how_ : loop_exit)
        (st : loop_state) :
  analyze_component data = Completed how_ st ->
  0 <= record_num st /\
  5 * record_num st <= offset st /\
  5 * record_num st <= len data.
Proof.
  intros H; destruct (analyze_component_invariant _ _ _ H)
    as (_ & H0 & Ho & Hl).
  pose proof (len_nonneg data); lia.
Qed.

Lemma record_count_is_bounded_witness :
  0 <= 1 /\ 5 * 1 <= 7 /\
  5 * 1 <= len ([x03; x00; x00; x00] ++ ascii_bytes "A=1"
                  ++ [x00; x00; x00; x00; x00]).
Proof.
  apply (record_count_is_bounded
           ([x03; x00; x00; x00] ++ ascii_bytes "A=1"
              ++ [x00; x00; x00; x00; x00]) EndMarker
           {| offset := 7; record_num := 1;
              records_by_type :=
                [(u "unknown", [[(u "A", VStr (u "1"))]])] |}).
  reflexivity.
Defined.

(** ** More about the binary pin decoder *)

Lemma front_read bs rest (A : Type) (k : bytes -> io A) n :
  n = len bs -> iobind (read n) k (bs ++ rest) = k bs rest.
Proof.
  intros ->; unfold iobind, read, len; rewrite Nat2Z.id.
  rewrite firstn_app, firstn_all, Nat.sub_diag, skipn_app, skipn_all,
    Nat.sub_diag.
  cbn [firstn skipn app]; rewrite app_nil_r; reflexivity.
Qed.

Lemma from_bytes_2_signed v :
  - 2 ^ 15 <= v < 2 ^ 15 ->
  int_from_bytes (to_bytes_le 2 v) little true = v.
Proof.
  intros Hv; cbn [to_bytes_le int_from_bytes le_combine].
  rewrite !byte_val_of; unfold to_signed.
  change (len [byte_of v; byte_of (v / 256)]) with 2.
  change (2 ^ (8 * 2 - 1)) with 32768; change (2 ^ (8 * 2)) with 65536.
  change (2 ^ 15) with 32768 in Hv.
  destruct (Z.geb_spec (v mod 256 + 256 * ((v / 256) mod 256 + 256 * 0)) 32768);
    div_lia.
Qed.

Lemma from_bytes_2_unsigned v :
  0 <= v < 2 ^ 16 ->
  int_from_bytes (to_bytes_le 2 v) little false = v.
Proof.
  intros Hv; rewrite int_from_bytes_unsigned.
  apply le_combine_to_bytes; exact Hv.
Qed.

Lemma from_bytes_4_signed v :
  - 2 ^ 31 <= v < 2 ^ 31 ->
  int_from_bytes (to_bytes_le 4 v) little true = v.
Proof.
  intros Hv; cbn [to_bytes_le int_from_bytes le_combine].
  rewrite !byte_val_of; unfold to_signed.
  change (len [byte_of v; byte_of (v / 256); byte_of (v / 256 / 256);
               byte_of (v / 256 / 256 / 256)]) with 4.
  change (2 ^ (8 * 4 - 1)) with 2147483648;
    change (2 ^ (8 * 4)) with 4294967296.
  change (2 ^ 31) with 2147483648 in Hv.
  match goal with
  | |- (if ?a >=? ?b then _ else _) = _ => destruct (Z.geb_spec a b)
  end; div_lia.
Qed.

Lemma front_read_int A (k : Z -> io A) (n : nat) signed v rest :
  int_from_bytes (to_bytes_le n v) little signed = v ->
  iobind (b <~ read (Z.of_nat n) ;; ret (int_from_bytes b little signed)) k
         (to_bytes_le n v ++ rest)
  = k v rest.
Proof.
  intros Hv; unfold iobind at 1.
  rewrite front_read by (now rewrite len_to_bytes_le).
  unfold ret; rewrite Hv; reflexivity.
Qed.

Lemma front_read_i8 A (k : Z -> io A) b rest :
  iobind read_i8 k (b :: rest) = k (byte_val b) rest.
Proof.
  unfold read_i8, iobind at 1.
  change (b :: rest) with ([b] ++ rest); rewrite front_read by reflexivity.
  unfold ret; cbn [int_from_bytes le_combine]; f_equal; lia.
Qed.

Lemma front_read_text A (k : str -> io A) s rest n :
  ascii_only s -> n = len s ->
  iobind (read_text n) k (s ++ rest) = k (ascii_text s) rest.
Proof.
  intros Hs ->; unfold read_text.
  destruct (Z.eqb_spec (len s) 0) as [E|E].
  - destruct s; [reflexivity|rewrite len_cons in E].
    pose proof (len_nonneg s); lia.
  - unfold iobind at 1; rewrite front_read by reflexivity.
    unfold lift; rewrite decode_utf8_ascii by assumption; reflexivity.
Qed.

Lemma flag_is_bit flags :
  0 <= flags < 256 ->
  flag flags 1 = VBool (Z.testbit flags 0) /\
  flag flags 2 = VBool (Z.testbit flags 1) /\
  flag flags 4 = VBool (Z.testbit flags 2) /\
  flag flags 8 = VBool (Z.testbit flags 3) /\
  flag flags 16 = VBool (Z.testbit flags 4).
Proof.
  intros H; unfold flag.
  assert (Hbit : forall i, 0 <= i ->
                   negb (Z.land flags (2 ^ i) =? 0) = Z.testbit flags i).
  { intros i Hi.
    destruct (Z.testbit flags i) eqn:E.
    - destruct (Z.eqb_spec (Z.land flags (2 ^ i)) 0) as [E0|]; [|reflexivity].
      apply (f_equal (fun z => Z.testbit z i)) in E0.
      rewrite Z.land_spec, E, Z.pow2_bits_true, Z.bits_0 in E0 by lia.
      discriminate.
    - destruct (Z.eqb_spec (Z.land flags (2 ^ i)) 0) as [|E0]; [reflexivity|].
      exfalso; apply E0, Z.bits_inj'; intros j Hj.
      rewrite Z.land_spec, Z.bits_0.
      destruct (Z.eq_dec i j) as [<-|Hne]; [now rewrite E|].
      rewrite Z.pow2_bits_false by lia; apply andb_false_r. }
  repeat split; f_equal;
    [apply (Hbit 0)|apply (Hbit 1)|apply (Hbit 2)|apply (Hbit 3)
    |apply (Hbit 4)]; lia.
Qed.

(** X11: a pin whose fields fit their widths and whose texts are ASCII of
    at most 255 bytes, written field by field in the order of the payload,
    is decoded by [parse_binary_pin] to exactly those fields: the integers
    with their signs, the five flags as the bits 0 to 4 of the flag byte,
    the texts; the two skipped bytes and any bytes after the designator
    have no part in the result. *)
Theorem parse_binary_pin_reads_back (p : pin_record) (extra : bytes) :
  pin_in_range p ->
  parse_binary_pin (encode_pin p ++ extra) = Ok (pin_props p).
Proof.
  intros (Hk & Ho & Hl & Hx & Hy & Hc & [Hd Hdl] & [Hn Hnl] & [Hg Hgl]).
  pose proof (len_nonneg (pin_description p));
    pose proof (len_nonneg (pin_name p));
    pose proof (len_nonneg (pin_designator p)).
  unfold parse_binary_pin, parse_binary_pin_reader, encode_pin,
    read_i32, read_i16.
  rewrite <- !app_assoc; cbn [app].
  rewrite (front_read_int _ _ 4 true) by now apply from_bytes_4_signed.
  cbv beta zeta.
  change (pin_skipped_1 p :: ?r) with ([pin_skipped_1 p] ++ r).
  rewrite front_read by reflexivity; cbv beta zeta.
  rewrite (front_read_int _ _ 2 true) by now apply from_bytes_2_signed.
  cbv beta zeta.
  do 6 (rewrite front_read_i8; cbv beta zeta).
  rewrite byte_val_of_small by lia.
  change (pin_skipped_2 p :: ?r) with ([pin_skipped_2 p] ++ r).
  rewrite front_read by reflexivity; cbv beta zeta.
  rewrite (front_read_text _ _ (pin_description p)) by auto; cbv beta zeta.
  do 2 (rewrite front_read_i8; cbv beta zeta).
  rewrite (front_read_int _ _ 2 false) by now apply from_bytes_2_unsigned.
  cbv beta zeta.
  rewrite (front_read_int _ _ 2 true) by now apply from_bytes_2_signed.
  cbv beta zeta.
  rewrite (front_read_int _ _ 2 true) by now apply from_bytes_2_signed.
  cbv beta zeta.
  rewrite (front_read_int _ _ 4 true) by now apply from_bytes_4_signed.
  cbv beta zeta.
  rewrite front_read_i8; cbv beta zeta.
  rewrite byte_val_of_small by lia.
  rewrite (front_read_text _ _ (pin_name p)) by auto; cbv beta zeta.
  rewrite front_read_i8; cbv beta zeta.
  rewrite byte_val_of_small by lia.
  rewrite (front_read_text _ _ (pin_designator p)) by auto; cbv beta zeta.
  unfold ret; cbn [bind]; rewrite pin_props_in_order.
  destruct (flag_is_bit (byte_val (pin_flags p)) (byte_val_range _))
    as (-> & -> & -> & -> & ->).
  reflexivity.
Qed.

Lemma parse_binary_pin_reads_back_witness :
  parse_binary_pin
    (encode_pin
       {| pin_kind := 2; pin_skipped_1 := x00; pin_owner_part_id := -1;
          pin_display_mode := x00; pin_inner_edge := x00;
          pin_outer_edge := x01; pin_inside := x00; pin_outside := x00;
          pin_skipped_2 := x00; pin_description := ascii_bytes "clock";
          pin_electrical_type := x04; pin_flags := x19;
          pin_length := 300; pin_x := -200; pin_y := 100;
          pin_color := 255; pin_name := ascii_bytes "CLK";
          pin_designator := ascii_bytes "7" |} ++ [xff; xff])
  = Ok (pin_props
          {| pin_kind := 2; pin_skipped_1 := x00; pin_owner_part_id := -1;
             pin_display_mode := x00; pin_inner_edge := x00;
             pin_outer_edge := x01; pin_inside := x00; pin_outside := x00;
             pin_skipped_2 := x00; pin_description := ascii_bytes "clock";
             pin_electrical_type := x04; pin_flags := x19;
             pin_length := 300; pin_x := -200; pin_y := 100;
             pin_color := 255; pin_name := ascii_bytes "CLK";
             pin_designator := ascii_bytes "7" |}).
Proof.
  apply parse_binary_pin_reads_back.
  unfold pin_in_range; cbn [pin_kind pin_owner_part_id pin_length pin_x pin_y
                              pin_color pin_description pin_name
                              pin_designator].
  repeat split; try lia; try (repeat constructor); cbn; lia.
Defined.

(** ** Well-formed component streams *)

Lemma int_from_bytes_big bs :
  int_from_bytes bs big false = le_combine (rev bs).
Proof. destruct bs; reflexivity. Qed.

Lemma len_rev {A} (l : list A) : len (rev l) = len l.
Proof. unfold len; now rewrite length_rev. Qed.

Lemma record_step_encoded pre r rest st :
  record_ok r -> offset st = len pre ->
  exists st',
    record_step (pre ++ encode_record r ++ rest) st = Ok (Next st') /\
    offset st' = len (pre ++ encode_record r) /\
    record_num st' = record_num st + 1.
Proof.
  destruct r as [t payload]; intros (Ht & Hp & Hdec) Ho;
    cbn [fst snd] in *.
  set (data := pre ++ encode_record (t, payload) ++ rest).
  pose proof (len_nonneg pre); pose proof (len_nonneg rest).
  assert (Henc : len (encode_record (t, payload)) = 4 + len payload).
  { unfold encode_record; cbn [fst snd].
    rewrite !len_app, len_rev, !len_to_bytes_le; lia. }
  assert (Hd : len data = len pre + 4 + len payload + len rest)
    by (unfold data; rewrite !len_app, Henc; lia).
  assert (Hl : record_length_at data (offset st) = len payload).
  { unfold record_length_at, data, encode_record; cbn [fst snd].
    rewrite Ho, <- !app_assoc, int_from_bytes_unsigned.
    rewrite (slice_middle pre (to_bytes_le 2 (len payload)));
      [|reflexivity|now rewrite len_to_bytes_le].
    apply le_combine_to_bytes; change (256 ^ Z.of_nat 2) with (2 ^ 16); lia. }
  assert (Hty : record_type_at data (offset st) = t).
  { unfold record_type_at, data, encode_record; cbn [fst snd].
    rewrite Ho, <- !app_assoc, (app_assoc pre), int_from_bytes_big.
    rewrite (slice_middle (pre ++ to_bytes_le 2 (len payload))
                          (rev (to_bytes_le 2 t)));
      [|rewrite len_app, len_to_bytes_le; reflexivity|].
    - rewrite rev_involutive; apply le_combine_to_bytes.
      change (256 ^ Z.of_nat 2) with (2 ^ 16); lia.
    - rewrite len_rev, len_to_bytes_le; lia. }
  assert (Hdata : record_data_at data (offset st) = payload).
  { unfold record_data_at; rewrite Hl.
    unfold data, encode_record; cbn [fst snd].
    rewrite Ho, <- !app_assoc, (app_assoc pre),
      (app_assoc (pre ++ to_bytes_le 2 (len payload))).
    apply slice_middle; [|reflexivity].
    rewrite !len_app, len_rev, !len_to_bytes_le; lia. }
  destruct (decode_record t payload) as [[props rec_id]|e] eqn:E;
    [|discriminate].
  eexists; split.
  - apply (record_step_decoded data st props rec_id); rewrite ?Hl, ?Hty, ?Hdata;
      try assumption; lia.
  - cbn [offset record_num]; rewrite Hl, len_app, Henc; lia.
Qed.

Lemma record_loop_encoded rs :
  Forall record_ok rs ->
  forall fuel pre tail st,
    (length rs < fuel)%nat ->
    offset st = len pre -> 3 <= len tail ->
    exists st',
      record_loop fuel (pre ++ encode_records rs ++ x00 :: x00 :: tail) st
      = Some (Ok (EndMarker, st')) /\
      offset st' = len (pre ++ encode_records rs) /\
      record_num st' = record_num st + Z.of_nat (length rs).
Proof.
  induction 1 as [|r rs Hr _ IH]; intros [|fuel] pre tail st Hf Ho Ht;
    try (cbn in Hf; lia); cbn [record_loop encode_records flat_map app].
  - rewrite record_step_end_marker.
    + exists st; rewrite app_nil_r; cbn [length]; repeat split; lia.
    + rewrite len_app, !len_cons; lia.
    + unfold record_length_at; rewrite Ho.
      change (x00 :: x00 :: tail) with ([x00; x00] ++ tail).
      rewrite (slice_middle pre [x00; x00] tail); reflexivity.
  - fold (encode_records rs); rewrite <- app_assoc.
    destruct (record_step_encoded pre r
                (encode_records rs ++ x00 :: x00 :: tail) st Hr Ho)
      as (st1 & -> & Ho1 & Hn1).
    rewrite (app_assoc pre).
    destruct (IH fuel (pre ++ encode_record r) tail st1)
      as (st' & -> & Ho' & Hn'); [cbn in Hf; lia|assumption..|].
    exists st'; split; [reflexivity|split].
    + rewrite Ho', <- app_assoc; reflexivity.
    + rewrite Hn', Hn1; cbn [length]; lia.
Qed.

(** X12: a component stream of N well-formed records (any type, a payload
    of 1 to 65535 bytes whose decoder returns), then a record length of 0
    and at least 3 more bytes, is read to its end marker: the loop ends by
    [break] with N records counted and the offset at the end marker. *)
Theorem record_stream_is_read_to_end_marker (rs : list (Z * bytes))
        (tail : bytes) :
  Forall record_ok rs ->
  3 <= len tail ->
  exists st,
    analyze_component (encode_records rs ++ x00 :: x00 :: tail)
    = Completed EndMarker st /\
    offset st = len (encode_records rs) /\
    record_num st = Z.of_nat (length rs) /\
    total_records (records_by_type st) = Z.of_nat (length rs).
Proof.
  intros Hrs Ht.
  assert (Hlen : (length rs <= length (encode_records rs))%nat).
  { clear; induction rs as [|[t p] rs IH]; [apply Nat.le_refl|].
    cbn [encode_records flat_map length]; fold (encode_records rs).
    rewrite length_app; unfold encode_record; cbn [fst snd].
    rewrite length_app; cbn [to_bytes_le length]; lia. }
  destruct (record_loop_encoded rs Hrs
              (record_fuel (encode_records rs ++ x00 :: x00 :: tail)
                           initial_state)
              [] tail initial_state) as (st & E & Ho & Hn);
    [|reflexivity|assumption|].
  { unfold record_fuel, len; rewrite length_app; cbn [offset initial_state].
    lia. }
  cbn [app] in E, Ho; cbn [record_num initial_state] in Hn.
  assert (Hinit : loop_invariant (encode_records rs ++ x00 :: x00 :: tail)
                                 initial_state)
    by (unfold loop_invariant; cbn; lia).
  destruct (record_loop_keeps_invariant _ _ _ _ _ Hinit E) as (Hinv & _).
  exists st; unfold analyze_component; rewrite E.
  repeat split; try assumption; lia.
Qed.

Lemma record_stream_is_read_to_end_marker_witness :
  exists st,
    analyze_component
      (encode_records [(0, ascii_bytes "RECORD=1|X=2"); (7, [x01; x02])]
         ++ x00 :: x00 :: [x00; x00; x00])
    = Completed EndMarker st /\
    offset st
    = len (encode_records [(0, ascii_bytes "RECORD=1|X=2"); (7, [x01; x02])])
    /\
    record_num st
    = Z.of_nat (length [(0, ascii_bytes "RECORD=1|X=2"); (7, [x01; x02])]) /\
    total_records (records_by_type st)
    = Z.of_nat (length [(0, ascii_bytes "RECORD=1|X=2"); (7, [x01; x02])]).
Proof.
  apply (record_stream_is_read_to_end_marker
           [(0, ascii_bytes "RECORD=1|X=2"); (7, [x01; x02])]
           [x00; x00; x00]).
  - repeat constructor; cbn; lia.
  - cbn; lia.
Defined.
(** ** More about the footprint primitives *)

Lemma int_of_double_cases bits :
  if is_finite bits
  then exists z, int_of_double bits = Ok z
  else exists e, int_of_double bits = Raise e /\ conversion_error e.
Proof.
  unfold is_finite, int_of_double, conversion_error.
  destruct (Z.land (Z.shiftr bits 52) 2047 =? 2047); cbn [negb].
  - destruct (Z.land bits (2 ^ 52 - 1) =? 0);
      (eexists; split; [reflexivity|auto]).
  - destruct (Z.land (Z.shiftr bits 52) 2047 =? 0); eexists; reflexivity.
Qed.

(** The vertex loop over indices that lie in the block: it returns when
    every coordinate is finite, and raises a conversion error otherwise. *)
Lemma read_vertices_inside_cases block1 indices :
  Forall (fun i => 0 <= i /\ 4 + i * 16 + 16 <= len block1) indices ->
  if forallb (vertex_finite block1) indices
  then exists vs, read_vertices block1 indices = Ok vs /\
                  map v_index vs = indices
  else exists e, read_vertices block1 indices = Raise e /\ conversion_error e.
Proof.
  induction 1 as [|i rest [H0 Hin] _ IH]; cbn [forallb read_vertices];
    [exists []; auto|].
  destruct (Z.leb_spec (4 + i * 16 + 16) (len block1)); [|lia].
  rewrite !unpack_from_d by lia; cbn [bind].
  unfold vertex_finite at 1.
  generalize (int_of_double_cases (double_at block1 (4 + i * 16))).
  generalize (int_of_double_cases (double_at block1 (4 + i * 16 + 8))).
  destruct (is_finite (double_at block1 (4 + i * 16)));
    destruct (is_finite (double_at block1 (4 + i * 16 + 8)));
    cbn [andb]; intros Hy Hx.
  - destruct Hx as (ix & ->), Hy as (iy & ->); cbn [bind].
    destruct (forallb (vertex_finite block1) rest).
    + destruct IH as (vs & -> & Hi); cbn [bind].
      eexists; split; [reflexivity|cbn [map v_index]; congruence].
    + destruct IH as (e & -> & He); cbn [bind].
      exists e; split; [reflexivity|assumption].
  - destruct Hx as (ix & ->), Hy as (e & -> & He); cbn [bind].
    exists e; split; [reflexivity|assumption].
  - destruct Hx as (e & -> & He); cbn [bind].
    exists e; split; [reflexivity|assumption].
  - destruct Hx as (e & -> & He); cbn [bind].
    exists e; split; [reflexivity|assumption].
Qed.

Lemma readable_vertices_inside block1 :
  4 <= len block1 ->
  Forall (fun i => 0 <= i /\ 4 + i * 16 + 16 <= len block1)
         (range (readable_vertices block1)).
Proof.
  intros Hlen; apply Forall_forall; intros i Hi.
  apply In_range in Hi; unfold readable_vertices in Hi; split; [lia|div_lia].
Qed.

Lemma read_vertices_declared block1 :
  4 <= len block1 ->
  read_vertices block1 (range (declared_vertices block1))
  = read_vertices block1 (range (readable_vertices block1)).
Proof.
  intros Hlen.
  assert (Hd : 0 <= declared_vertices block1) by apply le_combine_range.
  assert (Hr : 0 <= readable_vertices block1 <= declared_vertices block1)
    by (unfold readable_vertices; div_lia).
  rewrite (range_app _ _ Hr); apply read_vertices_outside.
  apply Forall_forall; intros i Hi.
  apply in_map_iff in Hi as (k & <- & Hk); apply in_seq in Hk.
  unfold readable_vertices in *; div_lia.
Qed.

(** X13: the vertex loop of a Region raises exactly when a coordinate it
    reads is a NaN or an infinity, and then with the error of [int(x)];
    otherwise it returns the vertices with the indices 0, 1, ... up to the
    smaller of the declared count and the number of 16-byte vertices the
    block holds after its first 4 bytes; a block of fewer than 4 bytes
    gives no count and no vertex. *)
Theorem region_vertices_raise_only_on_non_finite (block1 : bytes) :
  if vertices_finite block1
  then exists vertex_count vs,
         parse_region_vertices block1 = Ok (vertex_count, vs) /\
         map v_index vs = range (readable_vertices block1) /\
         (vertex_count = None <-> len block1 < 4)
  else exists e,
         parse_region_vertices block1 = Raise e /\ conversion_error e.
Proof.
  unfold parse_region_vertices, vertices_finite.
  destruct (Z.geb_spec (len block1) 4) as [Hlen|Hlen].
  - rewrite unpack_from_I by lia; cbn [bind Z.add].
    fold (declared_vertices block1).
    rewrite read_vertices_declared by lia.
    pose proof (read_vertices_inside_cases block1 _
                  (readable_vertices_inside block1 ltac:(lia))) as Hc.
    destruct (forallb _ _).
    + destruct Hc as (vs & -> & Hi); cbn [bind].
      do 2 eexists; split; [reflexivity|split; [exact Hi|]].
      split; [discriminate|lia].
    + destruct Hc as (e & -> & He); cbn [bind]; eauto.
  - assert (Hneg : range (readable_vertices block1) = []).
    { unfold range, readable_vertices.
      replace (Z.to_nat _) with 0%nat by div_lia; reflexivity. }
    rewrite Hneg; cbn [forallb].
    exists None, []; repeat split; auto.
Qed.
(** ** The offsets and the errors of the primitive loop *)

Lemma read_block_inside data offset block offset' :
  0 <= offset <= len data ->
  read_block data offset = Ok (block, offset') ->
  offset <= offset' <= len data.
Proof.
  intros [H0 Hle] Hr.
  destruct (Z.lt_ge_cases (len data) (offset + 4)) as [Hs|Hl].
  { rewrite read_block_short in Hr by assumption; injection Hr as _ <-; lia. }
  rewrite read_block_spec in Hr by lia; cbv zeta in Hr.
  pose proof (le_combine_range (slice data offset (offset + 4))).
  destruct (_ || _) eqn:E; [injection Hr as _ <-; lia|].
  apply orb_false_iff in E as [_ Hfit]; apply Z.ltb_ge in Hfit.
  injection Hr as _ <-; lia.
Qed.

(** The next step of a block parser that has returned: a [read_block],
    which stays inside the buffer, or a look into a block. *)
Ltac returned_step H :=
  match type of H with
  | context [read_block ?d ?o] =>
      let block := fresh "block" in
      let off := fresh "off" in
      let E := fresh "E" in
      destruct (read_block d o) as [[block off]|?] eqn:E; cbn [bind] in H;
      [apply read_block_inside in E; [|lia] | discriminate H]
  | context [bind ?m _] =>
      destruct m as [?|?]; cbn [bind] in H; [|discriminate H]
  end.

Ltac returned_inside H := repeat returned_step H; injection H as _ <-; lia.

Lemma parse_pad_blocks_v2_inside : stays_inside parse_pad_blocks_v2.
Proof. intros data offset p offset' Hin H; unfold parse_pad_blocks_v2 in H.
       returned_inside H. Qed.

Lemma parse_track_blocks_inside : stays_inside parse_track_blocks.
Proof. intros data offset p offset' Hin H; unfold parse_track_blocks in H.
       returned_inside H. Qed.

Lemma parse_arc_blocks_inside : stays_inside parse_arc_blocks.
Proof. intros data offset p offset' Hin H; unfold parse_arc_blocks in H.
       returned_inside H. Qed.

Lemma parse_text_blocks_inside : stays_inside parse_text_blocks.
Proof. intros data offset p offset' Hin H; unfold parse_text_blocks in H.
       returned_inside H. Qed.

Lemma parse_fill_blocks_inside : stays_inside parse_fill_blocks.
Proof. intros data offset p offset' Hin H; unfold parse_fill_blocks in H.
       returned_inside H. Qed.

Lemma parse_component_body_blocks_inside :
  stays_inside parse_component_body_blocks.
Proof. intros data offset p offset' Hin H;
         unfold parse_component_body_blocks in H.
       returned_inside H. Qed.

Lemma parse_region_blocks_inside : stays_inside parse_region_blocks.
Proof.
  intros data offset p offset' Hin H; unfold parse_region_blocks in H.
  do 3 returned_step H.
  destruct (parse_region_vertices block0) as [[vc vs]|e]; cbn [bind] in H;
    [|discriminate].
  injection H as _ <-; lia.
Qed.

Lemma block_parser_inside record_type parse_blocks :
  block_parser record_type = Some parse_blocks -> stays_inside parse_blocks.
Proof.
  rewrite block_parser_table; intros Hp.
  destruct record_type as [|q|q]; try discriminate.
  repeat match goal with
         | q : positive |- _ => destruct q; try discriminate
         end;
    injection Hp as <-;
    auto using parse_pad_blocks_v2_inside, parse_track_blocks_inside,
      parse_arc_blocks_inside, parse_text_blocks_inside,
      parse_fill_blocks_inside, parse_region_blocks_inside,
      parse_component_body_blocks_inside.
Qed.

Lemma primitive_step_inside data offset :
  0 <= offset <= len data ->
  match primitive_step data offset with
  | Ok (PStop Done off) => off = offset /\ index data off = Ok 0
  | Ok (PStop (Aborted rname t) off) =>
      off = offset + 1 /\ off <= len data /\ index data offset = Ok t /\
      block_parser t = None /\ rname = rname_of t
  | Ok (PStop EndOfData off) => off = offset /\ off = len data
  | Ok (PNext rname p off) => offset < off <= len data
  | Raise _ => True
  end.
Proof.
  intros Hin; unfold primitive_step.
  destruct (Z.ltb_spec offset (len data)); [|split; lia].
  destruct (index_ok data offset) as (v & E & _); [lia|].
  rewrite E; cbn [bind].
  destruct (Z.eqb_spec v 0) as [->|Hv]; [auto|].
  destruct (block_parser v) as [parse_blocks|] eqn:Hp;
    [|repeat split; auto; lia].
  destruct (parse_blocks data (offset + 1)) as [[p o]|e] eqn:Eb; cbn [bind];
    [|exact I].
  apply (block_parser_inside _ _ Hp) in Eb; lia.
Qed.

Lemma primitive_loop_inside fuel data offset prims r :
  0 <= offset <= len data ->
  primitive_loop fuel data offset prims = Some (Ok r) ->
  offset <= final_offset r <= len data /\
  (exists found, primitives r = prims ++ found /\
                 len found <= final_offset r - offset) /\
  match how r with
  | Done => index data (final_offset r) = Ok 0
  | Aborted rname t =>
      index data (final_offset r - 1) = Ok t /\ block_parser t = None /\
      rname = rname_of t
  | EndOfData => final_offset r = len data
  end.
Proof.
  revert offset prims; induction fuel as [|fuel IH]; intros offset prims Hin;
    cbn [primitive_loop]; [discriminate|].
  pose proof (primitive_step_inside data offset Hin) as Hs.
  destruct (primitive_step data offset) as [[h off|rname p off]|e];
    [| |discriminate].
  - intros [= <-]; cbn [how final_offset primitives].
    assert (Hnone : exists found : list (str * primitive),
               prims = prims ++ found /\ len found <= 0)
      by (exists []; rewrite app_nil_r; split; [reflexivity|cbn; lia]).
    destruct h as [|rname t|].
    + destruct Hs as (-> & Hs).
      split; [lia|split; [|assumption]].
      now replace (offset - offset) with 0 by lia.
    + destruct Hs as (-> & Hle & Hi & Hp & Hn).
      split; [lia|split].
      * destruct Hnone as (found & ? & ?); exists found; split; [auto|lia].
      * replace (offset + 1 - 1) with offset by lia; auto.
    + destruct Hs as (-> & Hs).
      split; [lia|split; [|assumption]].
      now replace (offset - offset) with 0 by lia.
  - intros Hl; apply IH in Hl as (Hr & (found & Hp & Hf) & Hh); [|lia].
    split; [lia|split; [|assumption]].
    exists ((rname, p) :: found); split.
    + rewrite Hp, <- app_assoc; reflexivity.
    + rewrite len_cons; lia.
Qed.

(** X14: when [parse_footprint_data] gets to the primitives, they start
    after the 4-byte prefix of the name block and inside the buffer; the
    final offset lies between that start and the end of the buffer, so the
    count of remaining bytes it reports is never negative; every primitive
    decoded took at least one byte; and the loop has ended at a 0 tag that
    sits at the final offset, or right after a tag that has no block
    parser, or at the end of the buffer. *)
Theorem footprint_offsets_stay_in_buffer
        (data : bytes) (comp_name : str) (start : Z) (r : parsed) :
  parse_footprint_data data = Some (Ok (Primitives comp_name start r)) ->
  4 <= start < len data /\
  start <= final_offset r <= len data /\
  len (primitives r) <= final_offset r - start /\
  match how r with
  | Done => index data (final_offset r) = Ok 0
  | Aborted rname t =>
      index data (final_offset r - 1) = Ok t /\ block_parser t = None /\
      rname = rname_of t
  | EndOfData => final_offset r = len data
  end.
Proof.
  unfold parse_footprint_data.
  destruct (len data <? 5); [discriminate|].
  destruct (unpack_from fmt_I data 0) as [block_len|e] eqn:E; [|discriminate].
  destruct (Z.gtb_spec (block_len + 4) (len data)); [discriminate|].
  destruct (index data 4) as [name_len|e]; [|discriminate].
  assert (0 <= block_len).
  { unfold unpack_from in E; destruct (_ || _); [discriminate|].
    injection E as <-; rewrite int_from_bytes_unsigned.
    apply le_combine_range. }
  cbv zeta; remember (4 + block_len) as offset eqn:Hoff.
  destruct (Z.geb_spec offset (len data)); [discriminate|].
  unfold parse_primitives.
  destruct (primitive_loop _ data offset []) as [[r'|e]|] eqn:El;
    try discriminate.
  intros [= _ <- <-].
  apply primitive_loop_inside in El as (Hr & (found & Hp & Hf) & Hh); [|lia].
  cbn [app] in Hp; rewrite Hp.
  split; [lia|split; [lia|split; [lia|assumption]]].
Qed.

Lemma footprint_offsets_stay_in_buffer_witness :
  4 <= 6 < len named_track /\
  6 <= 11 <= len named_track /\
  len [(u "Track", Track [] None)] <= 11 - 6 /\
  index named_track 11 = Ok 0.
Proof.
  apply (footprint_offsets_stay_in_buffer
           named_track (u "A") 6
           {| how := Done; final_offset := 11;
              primitives := [(u "Track", Track [] None)] |}).
  reflexivity.
Defined.

(** *** The errors of the primitive loop *)

Lemma int_of_double_raises bits e :
  int_of_double bits = Raise e -> conversion_error e.
Proof.
  generalize (int_of_double_cases bits); destruct (is_finite bits).
  - intros (z & ->); discriminate.
  - intros (e' & -> & He) [= <-]; exact He.
Qed.

Lemma read_vertices_raises block1 indices e :
  Forall (fun i => 0 <= i) indices ->
  read_vertices block1 indices = Raise e -> conversion_error e.
Proof.
  induction 1 as [|i rest H0 _ IH]; cbn [read_vertices]; [discriminate|].
  destruct (Z.leb_spec (4 + i * 16 + 16) (len block1)); [|assumption].
  rewrite !unpack_from_d by lia; cbn [bind].
  destruct (int_of_double (double_at block1 (4 + i * 16))) as [ix|ex] eqn:Ex;
    cbn [bind];
    [|intros [= <-]; exact (int_of_double_raises _ _ Ex)].
  destruct (int_of_double (double_at block1 (4 + i * 16 + 8))) as [iy|ey]
    eqn:Ey; cbn [bind];
    [|intros [= <-]; exact (int_of_double_raises _ _ Ey)].
  destruct (read_vertices block1 rest) as [vs|er]; cbn [bind];
    [discriminate|assumption].
Qed.

Lemma range_nonneg n : Forall (fun i => 0 <= i) (range n).
Proof. apply Forall_forall; intros i Hi; apply In_range in Hi; lia. Qed.

Lemma parse_region_vertices_raises block1 e :
  parse_region_vertices block1 = Raise e -> conversion_error e.
Proof.
  unfold parse_region_vertices.
  destruct (Z.geb_spec (len block1) 4); [|discriminate].
  rewrite unpack_from_I by lia; cbn [bind].
  destruct (read_vertices _ _) as [vs|er] eqn:Ev; cbn [bind]; [discriminate|].
  intros [= <-]; eapply read_vertices_raises; [apply range_nonneg|exact Ev].
Qed.

Lemma parse_region_blocks_raises data offset e :
  0 <= offset ->
  parse_region_blocks data offset = Raise e -> conversion_error e.
Proof.
  intros H0; unfold parse_region_blocks.
  read_next; then_total region_layer_total.
  read_next.
  destruct (parse_region_vertices block0) as [[vc vs]|er] eqn:Ev; cbn [bind];
    [discriminate|].
  intros [= <-]; exact (parse_region_vertices_raises _ _ Ev).
Qed.

(** A pass of the loop raises only in a Region, and then a conversion
    error. *)
Lemma primitive_step_raises data offset e :
  0 <= offset ->
  primitive_step data offset = Raise e ->
  conversion_error e /\ index data offset = Ok 11.
Proof.
  intros H0; unfold primitive_step.
  destruct (Z.ltb_spec offset (len data)); [|discriminate].
  destruct (index_ok data offset) as (v & E & _); [lia|].
  rewrite E; cbn [bind].
  destruct (v =? 0); [discriminate|].
  destruct (block_parser v) as [parse_blocks|] eqn:Hp; [|discriminate].
  destruct (Z.eq_dec v 11) as [->|Hne].
  - injection Hp as <-.
    destruct (parse_region_blocks data (offset + 1)) as [[p o]|er] eqn:Er;
      cbn [bind]; [discriminate|].
    intros [= <-]; split; [|reflexivity].
    apply (parse_region_blocks_raises data (offset + 1)); [lia|assumption].
  - destruct (block_parser_returns _ _ Hp Hne data (offset + 1))
      as (p & o & -> & _); [lia|discriminate].
Qed.

Lemma primitive_loop_raises fuel data offset prims e :
  0 <= offset ->
  primitive_loop fuel data offset prims = Some (Raise e) ->
  conversion_error e /\ exists at_, index data at_ = Ok 11.
Proof.
  revert offset prims; induction fuel as [|fuel IH]; intros offset prims H0;
    cbn [primitive_loop]; [discriminate|].
  destruct (primitive_step data offset) as [[h off|rname p off]|er] eqn:Es.
  - discriminate.
  - apply primitive_step_next_inv in Es; [|assumption].
    apply IH; lia.
  - intros [= <-]; apply primitive_step_raises in Es as [He Hi];
      [|assumption].
    split; [assumption|exists offset; assumption].
Qed.

Lemma parse_footprint_data_raises data e :
  parse_footprint_data data = Some (Raise e) ->
  conversion_error e /\ In x0b data.
Proof.
  unfold parse_footprint_data.
  destruct (Z.ltb_spec (len data) 5); [discriminate|].
  rewrite unpack_from_I by lia; change (0 + 4) with 4.
  pose proof (le_combine_range (slice data 0 4)) as [Hb _].
  destruct (_ >? len data); [discriminate|].
  destruct (index_ok data 4) as (name_len & -> & _); [lia|].
  cbv zeta.
  destruct (_ >=? len data); [discriminate|].
  destruct (parse_primitives data (4 + le_combine (slice data 0 4)))
    as [[r|e']|] eqn:Hr; try discriminate.
  intros [= <-].
  apply primitive_loop_raises in Hr as (He & at_ & Hi); [|lia].
  split; [assumption|].
  unfold index in Hi.
  destruct ((0 <=? at_) && (at_ <? len data)); [|discriminate].
  destruct (nth_error data (Z.to_nat at_)) as [b|] eqn:En; [|discriminate].
  injection Hi as Hi.
  apply nth_error_In in En.
  rewrite <- (byte_of_val b), Hi in En; exact En.
Qed.

(** X15: on a standard output that takes every report line (the
    embedding leaves the report lines out; a [print] fails, for one, where
    the output cannot encode a character of the line),
    [parse_footprint_data] comes to an end on every buffer and no read of
    it goes out of range: the only errors it can end with are the two of
    [int(x)], a ValueError and an OverflowError, and then the buffer holds
    a byte 0x0B, the tag of a Region. *)
Theorem footprint_errors_are_conversion_errors (data : bytes) :
  exists r,
    parse_footprint_data data = Some r /\
    forall e, r = Raise e -> conversion_error e /\ In x0b data.
Proof.
  destruct (parse_footprint_data_terminates data) as (r & Hr).
  exists r; split; [assumption|].
  intros e ->; exact (parse_footprint_data_raises _ _ Hr).
Qed.

(** ** The parameters of a ComponentBody *)

Lemma rstrip_last c s d : d <> c -> last (rstrip c s) d <> c.
Proof.
  intros Hd; induction s as [|x t IH]; cbn [rstrip]; [exact Hd|].
  destruct (rstrip c t) as [|y r].
  - destruct (N.eqb_spec x c); [exact Hd|exact n].
  - exact IH.
Qed.

Lemma rstrip_fixed c s d : last s d <> c -> s <> [] -> rstrip c s = s.
Proof.
  induction s as [|x t IH]; [contradiction|].
  intros Hl _; destruct t as [|y t'].
  - cbn [rstrip last] in *.
    destruct (N.eqb_spec x c); [contradiction|reflexivity].
  - change (rstrip c (x :: y :: t'))
      with (match rstrip c (y :: t') with
            | [] => if (x =? c)%N then [] else [x]
            | r => x :: r
            end).
    rewrite IH; [reflexivity|exact Hl|discriminate].
Qed.

Lemma contains_rstrip c' c s :
  contains c' (rstrip c s) = true -> contains c' s = true.
Proof.
  induction s as [|x t IH]; cbn [rstrip]; [auto|].
  rewrite (contains_cons c' x t).
  destruct (rstrip c t) as [|y r].
  - destruct (x =? c)%N; [discriminate|].
    rewrite contains_cons; cbn [contains existsb]; rewrite orb_false_r.
    intros ->; reflexivity.
  - rewrite contains_cons; intros H.
    apply orb_true_iff in H as [->|H]; [reflexivity|].
    rewrite (IH H); apply orb_true_r.
Qed.

Lemma add_pairs_puts pairs params :
  add_pairs params pairs = Ok (fold_left put_pair pairs params).
Proof.
  revert params; induction pairs as [|pair_ rest IH]; intros params;
    cbn [add_pairs fold_left]; [reflexivity|].
  unfold add_pair, put_pair at 2.
  destruct (contains 61 pair_) eqn:E; cbn [bind]; [|apply IH].
  rewrite (split1_contains _ _ E); cbn [unpack2 bind]; apply IH.
Qed.

Lemma put_pairs_entries pieces acc :
  Forall (fun piece => contains 124 piece = false) pieces ->
  NoDup (map fst acc) /\ Forall body_param_entry acc ->
  NoDup (map fst (fold_left put_pair pieces acc)) /\
  Forall body_param_entry (fold_left put_pair pieces acc).
Proof.
  intros Hpieces; revert acc.
  induction Hpieces as [|piece rest Hp _ IH]; intros acc Hacc;
    cbn [fold_left]; [exact Hacc|].
  apply IH; unfold put_pair.
  destruct (contains 61 piece) eqn:E61; [|exact Hacc].
  destruct Hacc as [Hnd Hall]; split; [now apply dict_set_nodup|].
  apply dict_set_forall; [assumption|].
  intros k' ->; unfold body_param_entry, property_entry; cbn [fst snd].
  split; [split; [apply before_has_no_sep|split]|].
  - destruct (contains 124 (before 61 piece)) eqn:Ec; [|reflexivity].
    apply contains_before in Ec; congruence.
  - destruct (contains 124 (rstrip 0 (after 61 piece))) eqn:Ec;
      [|reflexivity].
    apply contains_rstrip, contains_after in Ec; congruence.
  - apply rstrip_last; discriminate.
Qed.

(** X16: [parse_component_body_params] returns a map for every block; in
    it the keys are pairwise distinct, no key holds an ["="] or a ["|"],
    no value holds a ["|"] and no value ends in a NUL character; and a
    block whose text has no [V7_LAYER] gives the empty map. *)
Theorem parse_component_body_params_entries (block : bytes) :
  exists params,
    parse_component_body_params block = Ok params /\
    NoDup (map fst params) /\
    Forall body_param_entry params /\
    (find (decode_latin1 block) (u "V7_LAYER") < 0 -> params = []).
Proof.
  unfold parse_component_body_params.
  destruct (Z.geb_spec (find (decode_latin1 block) (u "V7_LAYER")) 0)
    as [Hfound|Hnone].
  - rewrite add_pairs_puts; cbn [try_except].
    eexists; split; [reflexivity|].
    destruct (split_pieces 124 (slice_from (decode_latin1 block)
                (find (decode_latin1 block) (u "V7_LAYER"))))
      as [_ Hpieces].
    assert (Hpieces' : Forall (fun piece => contains 124 piece = false)
                         (split 124 (slice_from (decode_latin1 block)
                            (find (decode_latin1 block) (u "V7_LAYER"))))).
    { eapply Forall_impl; [|exact Hpieces]; intros piece [H _]; exact H. }
    destruct (put_pairs_entries _ [] Hpieces') as [Hnd Hall];
      [split; constructor|].
    split; [exact Hnd|split; [exact Hall|lia]].
  - cbn [try_except]; exists []; repeat split; constructor.
Qed.

(** [find] on a text that is extended at its end. *)
Lemma startswith_app s r p :
  startswith s p = true -> startswith (s ++ r) p = true.
Proof.
  revert s; induction p as [|x p IH]; intros s;
    [destruct s, r; reflexivity|].
  destruct s as [|y s]; cbn [startswith app]; [discriminate|].
  intros H; apply andb_true_iff in H as [-> H]; cbn [andb]; auto.
Qed.

Lemma startswith_app_long s r p :
  len p <= len s -> startswith (s ++ r) p = startswith s p.
Proof.
  revert s; induction p as [|x p IH]; intros s;
    [destruct s, r; reflexivity|].
  destruct s as [|y s]; rewrite ?len_cons; cbn [startswith app].
  - pose proof (len_nonneg p); change (len (@nil N)) with 0; lia.
  - intros H; rewrite IH by lia; reflexivity.
Qed.

Lemma startswith_split s p :
  startswith s p = true -> exists rest, s = (p ++ rest)%list.
Proof.
  revert s; induction p as [|x p IH]; intros s; [exists s; reflexivity|].
  destruct s as [|y s]; cbn [startswith]; [discriminate|].
  intros H; apply andb_true_iff in H as [Hx H].
  apply N.eqb_eq in Hx as ->.
  destruct (IH _ H) as (rest & ->); exists rest; reflexivity.
Qed.

Lemma startswith_fits s p : startswith s p = true -> len p <= len s.
Proof.
  intros H; destruct (startswith_split _ _ H) as (rest & ->).
  rewrite len_app; pose proof (len_nonneg rest); lia.
Qed.

Lemma find_fits s p : 0 <= find s p -> find s p + len p <= len s.
Proof.
  induction s as [|c t IH]; cbn [find].
  - destruct (startswith [] p) eqn:E; [|lia].
    intros _; apply startswith_fits in E; lia.
  - destruct (startswith (c :: t) p) eqn:E.
    + intros _; apply startswith_fits in E; lia.
    + cbv zeta; destruct (Z.ltb_spec (find t p) 0); [lia|].
      intros _; rewrite len_cons; lia.
Qed.

Lemma find_app s r p : 0 <= find s p -> find (s ++ r) p = find s p.
Proof.
  induction s as [|c t IH].
  - cbn [find app]; destruct (startswith [] p) eqn:E; [|lia].
    intros _; destruct p; [destruct r; reflexivity|discriminate E].
  - cbn [find app].
    destruct (startswith (c :: t) p) eqn:E.
    + intros _; change (c :: t ++ r)%list with ((c :: t) ++ r)%list.
      rewrite (startswith_app _ r _ E); reflexivity.
    + cbv zeta; destruct (Z.ltb_spec (find t p) 0) as [|Hf]; [lia|].
      intros _; pose proof (find_fits _ _ Hf) as Hfit.
      change (c :: t ++ r)%list with ((c :: t) ++ r)%list.
      rewrite startswith_app_long, E
        by (rewrite len_cons; pose proof (len_nonneg t); lia).
      rewrite (IH Hf).
      destruct (Z.ltb_spec (find t p) 0); [lia|reflexivity].
Qed.

Lemma decode_encode_latin1 s :
  latin1_str s -> decode_latin1 (encode_latin1 s) = s.
Proof.
  unfold decode_latin1, encode_latin1.
  induction 1 as [|c s Hc _ IH]; [reflexivity|].
  cbn [map]; rewrite IH; f_equal.
  pose proof (byte_val_of_small (Z.of_N c)) as Hv.
  unfold byte_val in Hv; lia.
Qed.

Lemma slice_from_app {A} (a b : list A) : slice_from (a ++ b) (len a) = b.
Proof.
  unfold slice_from, len; rewrite Nat2Z.id, skipn_app, skipn_all, Nat.sub_diag.
  reflexivity.
Qed.

Lemma put_pairs_formatted props acc :
  Forall body_param_entry props ->
  NoDup (map fst acc ++ map fst props) ->
  fold_left put_pair (map format_property props) acc = (acc ++ props)%list.
Proof.
  intros Hall; revert acc; induction Hall as [|[k v] props Hkv _ IH];
    intros acc Hnd; cbn [map fold_left]; [now rewrite app_nil_r|].
  destruct Hkv as ((Hk & _ & _) & Hv); cbn [fst snd] in *.
  unfold put_pair at 2, format_property; cbn [fst snd].
  rewrite contains_app, contains_cons, N.eqb_refl, orb_true_r.
  rewrite before_fresh, after_fresh by assumption.
  assert (Hs : rstrip 0 v = v).
  { destruct v as [|c v']; [reflexivity|].
    apply (rstrip_fixed _ _ 1%N); [exact Hv|discriminate]. }
  rewrite Hs, dict_set_fresh.
  - rewrite IH; [rewrite <- app_assoc; reflexivity|].
    rewrite map_app, <- app_assoc; exact Hnd.
  - apply NoDup_remove_2 in Hnd; intros Hin; apply Hnd, in_or_app; auto.
Qed.

(** X17: a block that holds some bytes, in which [V7_LAYER] does not
    begin, and then the text of a map written as [key=value] pieces joined
    by ["|"], the first key beginning with [V7_LAYER], is read back by
    [parse_component_body_params] as that map, entry for entry and in
    order, when the keys are pairwise distinct, no key holds an ["="] or a
    ["|"], no value holds a ["|"] or ends in a NUL character, and all
    characters are Latin-1; a value may hold ["="]. *)
Theorem parse_component_body_params_reads_back
        (head : str) (props : dict str) :
  NoDup (map fst props) ->
  Forall body_param_entry props ->
  startswith (format_properties props) (u "V7_LAYER") = true ->
  find (head ++ u "V7_LAYER") (u "V7_LAYER") = len head ->
  latin1_str (head ++ format_properties props) ->
  parse_component_body_params
    (encode_latin1 (head ++ format_properties props))
  = Ok props.
Proof.
  intros Hnd Hall Hstart Hfind Hlatin.
  unfold parse_component_body_params.
  rewrite (decode_encode_latin1 _ Hlatin).
  destruct (startswith_split _ _ Hstart) as (rest & Htext).
  assert (Hat : find (head ++ format_properties props) (u "V7_LAYER")
                = len head).
  { rewrite Htext, app_assoc, find_app; [exact Hfind|].
    rewrite Hfind; apply len_nonneg. }
  rewrite Hat, slice_from_app.
  destruct (Z.geb_spec (len head) 0) as [_|Hneg];
    [|pose proof (len_nonneg head); lia].
  rewrite add_pairs_puts; cbn [try_except]; f_equal.
  unfold format_properties.
  destruct props as [|kv props]; [discriminate Hstart|].
  rewrite split_join;
    [apply (put_pairs_formatted (kv :: props) []); assumption
    |discriminate|].
  apply Forall_map; eapply Forall_impl; [|exact Hall].
  intros [k v] ((H1 & H2 & H3) & _); unfold format_property;
    cbn [fst snd] in *.
  rewrite contains_app, contains_cons, H2, H3; reflexivity.
Qed.

Lemma parse_component_body_params_reads_back_witness :
  parse_component_body_params
    (encode_latin1
       (repeat 1%N 41 ++
        format_properties
          [(u "V7_LAYER", u "MECHANICAL1"); (u "MODEL.NAME", u "a=b")]))
  = Ok [(u "V7_LAYER", u "MECHANICAL1"); (u "MODEL.NAME", u "a=b")].
Proof.
  apply (parse_component_body_params_reads_back
           (repeat 1%N 41)
           [(u "V7_LAYER", u "MECHANICAL1"); (u "MODEL.NAME", u "a=b")]).
  - repeat constructor; cbn; intuition discriminate.
  - repeat constructor; discriminate.
  - reflexivity.
  - reflexivity.
  - repeat constructor.
Defined.

(** ** The footprints of a library *)

Lemma footprint_loop_selects ole entries footprint_count found a :
  0 <= footprint_count < 5 ->
  footprint_loop ole entries footprint_count found = Some (Finished a) ->
  exists new,
    footprints a = (found ++ new)%list /\
    map data_entry new
    = firstn (Z.to_nat (5 - footprint_count))
             (filter (is_footprint ole) entries) /\
    more_footprints a
    = (5 - footprint_count <=? len (filter (is_footprint ole) entries)) /\
    Forall (analysed_from ole) new.
Proof.
  revert footprint_count found.
  induction entries as [|entry rest IH]; intros footprint_count found Hc;
    cbn [footprint_loop filter].
  - intros [= <-]; exists []; cbn [footprints more_footprints].
    rewrite app_nil_r, firstn_nil.
    repeat split; [|constructor].
    symmetry; apply Z.leb_gt; change (len (@nil (list str))) with 0; lia.
  - assert (Hskip : is_footprint ole entry = false ->
                    footprint_loop ole rest footprint_count found
                    = Some (Finished a) ->
                    exists new,
                      footprints a = (found ++ new)%list /\
                      map data_entry new
                      = firstn (Z.to_nat (5 - footprint_count))
                          (if is_footprint ole entry
                           then entry :: filter (is_footprint ole) rest
                           else filter (is_footprint ole) rest) /\
                      more_footprints a
                      = (5 - footprint_count
                         <=? len (if is_footprint ole entry
                                  then entry :: filter (is_footprint ole) rest
                                  else filter (is_footprint ole) rest)) /\
                      Forall (analysed_from ole) new).
    { intros -> Hl; exact (IH _ _ Hc Hl). }
    destruct entry as [|name [|second [|third entry]]];
      try (apply Hskip; reflexivity).
    destruct (str_eqb_spec second (u "Data")) as [->|Hne];
      [|apply Hskip; cbn [is_footprint];
        destruct (str_eqb_spec second (u "Data")); [contradiction|reflexivity]].
    cbn [existsb]; rewrite orb_false_r.
    assert (Hnames :
              is_footprint ole [name; u "Data"]
              = negb (str_eqb name (u "Library")
                      || str_eqb name (u "FileVersionInfo"))
                && exists_ ole [name; u "Parameters"]).
    { cbn [is_footprint]; rewrite str_eqb_refl, negb_orb; reflexivity. }
    destruct (str_eqb name (u "Library") || str_eqb name (u "FileVersionInfo"));
      [apply Hskip; rewrite Hnames; reflexivity|].
    cbv zeta.
    destruct (exists_ ole [name; u "Parameters"]) eqn:Hex;
      [|apply Hskip; rewrite Hnames; reflexivity].
    rewrite Hnames; cbn [negb andb]; clear Hskip Hnames.
    destruct (openstream ole [name; u "Parameters"]) as [params_data|] eqn:Ep;
      [|discriminate].
    destruct (openstream ole [name; u "Data"]) as [data|] eqn:Ed;
      [|discriminate].
    destruct (parse_footprint_data data) as [[r|e]|] eqn:Er; try discriminate.
    set (f := {| storage_name := name;
                 params_str := slice (decode_ascii_ignore params_data) 0 200;
                 report := r |}).
    assert (Hf : analysed_from ole f)
      by (exists params_data, data; repeat split; assumption).
    pose proof (len_nonneg (filter (is_footprint ole) rest)) as Hn.
    rewrite len_cons.
    destruct (Z.geb_spec (footprint_count + 1) 5) as [Hlast|Hmore].
    + intros [= <-]; exists [f]; cbn [footprints more_footprints].
      replace (Z.to_nat (5 - footprint_count)) with 1%nat by lia.
      repeat split; [|repeat constructor; assumption].
      symmetry; apply Z.leb_le; lia.
    + intros Hl; apply IH in Hl as (new & Hfs & Hnew & Hmsg & Hall); [|lia].
      exists (f :: new); rewrite Hfs, <- app_assoc.
      replace (Z.to_nat (5 - footprint_count))
        with (S (Z.to_nat (5 - (footprint_count + 1)))) by lia.
      cbn [map firstn app]; rewrite Hnew, Hmsg.
      repeat split; [|constructor; assumption].
      destruct (Z.leb_spec (5 - (footprint_count + 1))
                           (len (filter (is_footprint ole) rest)));
        symmetry; [apply Z.leb_le|apply Z.leb_gt]; lia.
Qed.

(** X18: when the loop of [analyze_pcblib] over the listing comes to its
    end, the footprints it has analysed are the first five entries of the
    listing, in order, that are a [Data] stream of a storage other than
    [Library] and [FileVersionInfo] with a [Parameters] path beside it, or
    all of them when there are fewer; each is shown with the first 200
    ASCII characters of its [Parameters] stream and the result of
    [parse_footprint_data] on its [Data] stream; and the line that tells
    of more footprints is printed exactly when there are five such entries
    or more, also when there are just five. *)
Theorem analyze_footprints_takes_first_five (ole : ole_file) (a : analysis) :
  analyze_footprints ole = Some (Finished a) ->
  map data_entry (footprints a)
  = firstn 5 (filter (is_footprint ole) (listdir ole)) /\
  more_footprints a = (5 <=? len (filter (is_footprint ole) (listdir ole))) /\
  Forall (analysed_from ole) (footprints a).
Proof.
  intros H; apply footprint_loop_selects in H as (new & -> & Hn & Hm & Ha);
    [|lia].
  cbn [app]; auto.
Qed.

Lemma analyze_footprints_takes_first_five_witness :
  map data_entry (footprints sample_analysis)
  = firstn 5 (filter (is_footprint sample_library) (listdir sample_library)) /\
  more_footprints sample_analysis
  = (5 <=? len (filter (is_footprint sample_library)
                       (listdir sample_library))) /\
  Forall (analysed_from sample_library) (footprints sample_analysis).
Proof.
  apply (analyze_footprints_takes_first_five sample_library sample_analysis).
  reflexivity.
Defined.

Lemma footprint_loop_ends ole entries footprint_count found :
  exists r,
    footprint_loop ole entries footprint_count found = Some r /\
    (forall path,
        r = OpenFailed path ->
        openstream ole path = None /\
        exists name,
          In [name; u "Data"] entries /\
          exists_ ole [name; u "Parameters"] = true /\
          (path = [name; u "Parameters"] \/
           path = [name; u "Data"] /\
           openstream ole [name; u "Parameters"] <> None)) /\
    (forall name e,
        r = FootprintFailed name e ->
        conversion_error e /\
        In [name; u "Data"] entries /\
        exists data,
          openstream ole [name; u "Data"] = Some data /\
          parse_footprint_data data = Some (Raise e)).
Proof.
  revert footprint_count found.
  induction entries as [|entry rest IH]; intros footprint_count found;
    cbn [footprint_loop].
  - eexists; split; [reflexivity|split; discriminate].
  - assert (Hskip : exists r,
               footprint_loop ole rest footprint_count found = Some r /\
               (forall path,
                   r = OpenFailed path ->
                   openstream ole path = None /\
                   exists name,
                     In [name; u "Data"] (entry :: rest) /\
                     exists_ ole [name; u "Parameters"] = true /\
                     (path = [name; u "Parameters"] \/
                      path = [name; u "Data"] /\
                      openstream ole [name; u "Parameters"] <> None)) /\
               (forall name e,
                   r = FootprintFailed name e ->
                   conversion_error e /\
                   In [name; u "Data"] (entry :: rest) /\
                   exists data,
                     openstream ole [name; u "Data"] = Some data /\
                     parse_footprint_data data = Some (Raise e))).
    { destruct (IH footprint_count found) as (r & E & Hopen & Hfail).
      exists r; split; [exact E|split].
      - intros path Hr; destruct (Hopen path Hr) as (Hn & name & Hin & H).
        split; [exact Hn|exists name; split; [right; exact Hin|exact H]].
      - intros name e Hr; destruct (Hfail name e Hr) as (He & Hin & H).
        split; [exact He|split; [right; exact Hin|exact H]]. }
    destruct entry as [|name [|second [|third entry]]]; try exact Hskip.
    destruct (str_eqb_spec second (u "Data")) as [->|Hne]; [|exact Hskip].
    destruct (existsb _ _); [exact Hskip|]; cbv zeta.
    destruct (exists_ ole [name; u "Parameters"]) eqn:Hex; [|exact Hskip].
    destruct (openstream ole [name; u "Parameters"]) as [params_data|] eqn:Ep.
    2:{ eexists; split; [reflexivity|split; [|discriminate]].
        intros path [= <-]; split; [assumption|].
        exists name; split; [left; reflexivity|split; [assumption|]].
        left; reflexivity. }
    destruct (openstream ole [name; u "Data"]) as [data|] eqn:Ed.
    2:{ eexists; split; [reflexivity|split; [|discriminate]].
        intros path [= <-]; split; [assumption|].
        exists name; split; [left; reflexivity|split; [assumption|]].
        right; split; [reflexivity|congruence]. }
    destruct (parse_footprint_data_terminates data) as ([r|e] & Hr);
      rewrite Hr.
    + destruct (_ >=? 5).
      * eexists; split; [reflexivity|split; discriminate].
      * clear Hskip.
        destruct (IH (footprint_count + 1)
                     (found ++ [{| storage_name := name;
                                   params_str :=
                                     slice (decode_ascii_ignore params_data)
                                           0 200;
                                   report := r |}])%list)
          as (r' & E & Hopen & Hfail).
        exists r'; split; [exact E|split].
        -- intros path Hp; destruct (Hopen path Hp) as (Hn & n' & Hin & H).
           split; [exact Hn|exists n'; split; [right; exact Hin|exact H]].
        -- intros n' e Hp; destruct (Hfail n' e Hp) as (He & Hin & H).
           split; [exact He|split; [right; exact Hin|exact H]].
    + eexists; split; [reflexivity|split; [discriminate|]].
      intros name' e' [= <- <-]; split; [|split; [left; reflexivity|]].
      * exact (proj1 (parse_footprint_data_raises _ _ Hr)).
      * exists data; split; assumption.
Qed.

(** X19: on a standard output that takes every report line (the
    embedding leaves the report lines out; a [print] fails, for one, where
    the output cannot encode a character of the line), the loop of
    [analyze_pcblib] over the listing comes to an end for every
    library.  It ends with an error only at a [Data] stream of
    the listing that has a [Parameters] path beside it: where that
    [Parameters] stream does not open, or it opens and the [Data] stream
    does not, or both open and [parse_footprint_data] raises on the
    [Data] stream, and that is a ValueError or an OverflowError of
    [int(x)]. *)
Theorem analyze_footprints_ends (ole : ole_file) :
  exists r,
    analyze_footprints ole = Some r /\
    (forall path,
        r = OpenFailed path ->
        openstream ole path = None /\
        exists name,
          In [name; u "Data"] (listdir ole) /\
          exists_ ole [name; u "Parameters"] = true /\
          (path = [name; u "Parameters"] \/
           path = [name; u "Data"] /\
           openstream ole [name; u "Parameters"] <> None)) /\
    (forall name e,
        r = FootprintFailed name e ->
        conversion_error e /\
        In [name; u "Data"] (listdir ole) /\
        exists data,
          openstream ole [name; u "Data"] = Some data /\
          parse_footprint_data data = Some (Raise e)).
Proof. apply footprint_loop_ends. Qed.

(** ** Footprint streams that do not end in a 0 tag *)

(** The loop reads through well-formed primitives and goes on with what
    follows them. *)
Lemma primitive_loop_through rs :
  Forall well_formed rs ->
  Forall finite_region rs ->
  exists ps,
    decodes_to rs ps /\
    forall fuel pre tail acc,
      primitive_loop (length rs + fuel) (pre ++ encode_primitives rs ++ tail)
                     (len pre) acc
      = primitive_loop fuel (pre ++ encode_primitives rs ++ tail)
                       (len (pre ++ encode_primitives rs)) (acc ++ ps).
Proof.
  induction 1 as [|r rs Hr _ IH]; intros Hfin.
  - exists []; split; [constructor|].
    intros fuel pre tail acc.
    cbn [encode_primitives flat_map app length Nat.add].
    rewrite !app_nil_r; reflexivity.
  - apply Forall_cons_iff in Hfin as [Hf1 Hfin].
    destruct (IH Hfin) as (ps & Hps & IH').
    destruct (decode_raw_finite r Hf1) as (p & Hp).
    exists ((rname_of (byte_val (raw_tag r)), p) :: ps); split.
    { constructor; [split; [reflexivity|exact Hp]|exact Hps]. }
    intros fuel pre tail acc.
    cbn [length Nat.add encode_primitives flat_map primitive_loop].
    fold (encode_primitives rs).
    rewrite <- (app_assoc (encode_primitive r)).
    rewrite (primitive_step_encoded r pre _ p Hr Hp).
    rewrite (app_assoc pre (encode_primitive r)).
    rewrite IH'.
    rewrite <- !app_assoc; reflexivity.
Qed.

Lemma primitive_step_at_end data :
  primitive_step data (len data) = Ok (PStop EndOfData (len data)).
Proof.
  unfold primitive_step; destruct (Z.ltb_spec (len data) (len data));
    [lia|reflexivity].
Qed.

(** X20: on a footprint buffer that holds N well-formed primitives, the
    coordinates read of every Region among them finite, and ends there
    without a 0 tag, the loop raises nothing: it ends by its condition, in
    the EndOfData state and not in Done, with the final offset at the end
    of the buffer and the N primitives decoded.  When a tag without a
    block parser follows the N primitives, the loop ends right after that
    tag, in the Aborted state, with the N primitives decoded; what follows
    the tag is not read. *)
Theorem unterminated_footprint_completes (rs : list raw_primitive) :
  Forall well_formed rs ->
  Forall finite_region rs ->
  exists ps,
    decodes_to rs ps /\
    (forall pre,
        parse_primitives (pre ++ encode_primitives rs) (len pre)
        = Some (Ok {| how := EndOfData;
                      final_offset := len (pre ++ encode_primitives rs);
                      primitives := ps |})) /\
    (forall pre tag rest,
        byte_val tag <> 0 ->
        block_parser (byte_val tag) = None ->
        parse_primitives (pre ++ encode_primitives rs ++ tag :: rest)
                         (len pre)
        = Some (Ok {| how := Aborted (rname_of (byte_val tag)) (byte_val tag);
                      final_offset := len (pre ++ encode_primitives rs) + 1;
                      primitives := ps |})).
Proof.
  intros Hwf Hfin.
  destruct (primitive_loop_through rs Hwf Hfin) as (ps & Hps & Hloop).
  exists ps; split; [exact Hps|].
  pose proof (length_encode_primitives rs) as Hlen.
  split.
  - intros pre; unfold parse_primitives, primitive_fuel.
    rewrite len_app.
    replace (S (Z.to_nat (len pre + len (encode_primitives rs) - len pre)))
      with (length rs + S (length (encode_primitives rs) - length rs))%nat
      by (unfold len; lia).
    specialize (Hloop (S (length (encode_primitives rs) - length rs)) pre []
                      []).
    rewrite !app_nil_r in Hloop; rewrite Hloop.
    cbn [primitive_loop app]; rewrite <- len_app, primitive_step_at_end.
    reflexivity.
  - intros pre tag rest Hnz Hnone; unfold parse_primitives, primitive_fuel.
    rewrite !len_app, len_cons.
    pose proof (len_nonneg rest).
    replace (S (Z.to_nat (len pre + (len (encode_primitives rs)
                                     + (1 + len rest)) - len pre)))
      with (length rs + S (S (length (encode_primitives rs) - length rs
                              + length rest)))%nat
      by (unfold len in *; lia).
    rewrite Hloop; cbn [primitive_loop app].
    rewrite app_assoc.
    rewrite (primitive_step_at _ _ tag);
      [|apply len_nonneg|apply nth_error_after].
    destruct (Z.eqb_spec (byte_val tag) 0); [contradiction|].
    rewrite Hnone, len_app; reflexivity.
Qed.

Lemma unterminated_footprint_completes_witness :
  exists ps,
    decodes_to two_primitives ps /\
    (forall pre,
        parse_primitives (pre ++ encode_primitives two_primitives) (len pre)
        = Some (Ok {| how := EndOfData;
                      final_offset :=
                        len (pre ++ encode_primitives two_primitives);
                      primitives := ps |})) /\
    (forall pre tag rest,
        byte_val tag <> 0 ->
        block_parser (byte_val tag) = None ->
        parse_primitives
          (pre ++ encode_primitives two_primitives ++ tag :: rest) (len pre)
        = Some (Ok {| how := Aborted (rname_of (byte_val tag)) (byte_val tag);
                      final_offset :=
                        len (pre ++ encode_primitives two_primitives) + 1;
                      primitives := ps |})).
Proof.
  apply (unterminated_footprint_completes two_primitives).
  - repeat constructor; cbn; lia.
  - repeat constructor.
Defined.

(** ** Geometry written out and read back *)

Lemma unpack_from_i buf off :
  0 <= off -> off + 4 <= len buf ->
  unpack_from fmt_i buf off
  = Ok (int_from_bytes (slice buf off (off + 4)) little true).
Proof.
  intros; unfold unpack_from; cbn [calcsize].
  zcompare; reflexivity.
Qed.

Lemma i32_read_back v :
  int32 v ->
  int_from_bytes [byte_of v; byte_of (v / 256); byte_of (v / 256 / 256);
                  byte_of (v / 256 / 256 / 256)] little true = v.
Proof. exact (from_bytes_4_signed v). Qed.

Lemma f64_read_back v :
  bits64 v ->
  le_combine [byte_of v; byte_of (v / 256); byte_of (v / 256 / 256);
              byte_of (v / 256 / 256 / 256);
              byte_of (v / 256 / 256 / 256 / 256);
              byte_of (v / 256 / 256 / 256 / 256 / 256);
              byte_of (v / 256 / 256 / 256 / 256 / 256 / 256);
              byte_of (v / 256 / 256 / 256 / 256 / 256 / 256 / 256)] = v.
Proof. intros Hv; exact (le_combine_to_bytes 8 v Hv). Qed.

(** The bytes of a field of a block that is written out byte by byte. *)
Ltac field_bytes :=
  unfold slice;
  repeat match goal with
         | |- context [Z.to_nat ?e] =>
             let n := eval vm_compute in (Z.to_nat e) in
             change (Z.to_nat e) with n
         end;
  cbn [firstn skipn].

(** The length of such a block, and the guards that compare it. *)
Ltac block_length Hlen :=
  match goal with
  | |- context [len ?l] =>
      assert (Hlen : len l = Z.of_nat (length l)) by reflexivity;
      cbn [length] in Hlen
  end.

Ltac length_guards Hlen :=
  repeat match goal with
         | |- context [?a >? ?b] => rewrite (Z.gtb_ltb a b)
         | |- context [?a >=? ?b] => rewrite (Z.geb_leb a b)
         | |- context [?a <? ?b] =>
             destruct (Z.ltb_spec a b); try (exfalso; lia)
         | |- context [?a <=? ?b] =>
             destruct (Z.leb_spec a b); try (exfalso; lia)
         end.

(** The fields of such a block, read one after the other. *)
Ltac read_byte :=
  match goal with
  | |- context [index ?l ?i] =>
      let n := eval vm_compute in (Z.to_nat i) in
      let x := eval cbn [nth_error] in (nth_error l n) in
      match x with
      | Some ?b =>
          let H := fresh "H" in
          assert (H : 0 <= i) by lia;
          rewrite (proj1 (index_nth l i b H eq_refl)); clear H
      end
  end.

Ltac read_fields Hlen :=
  repeat first
    [ rewrite unpack_from_i by lia
    | rewrite unpack_from_d by lia
    | read_byte ];
  cbn [bind]; unfold double_at; field_bytes.

Ltac fields_read_back :=
  rewrite ?i32_read_back, ?f64_read_back, ?byte_val_of_small by assumption.

(** X21: the geometry block of a Pad, written out as the layer byte, 12
    bytes that are not read, the location, the three sizes and the hole
    size as signed 32-bit fields, then the three shape bytes if the pad
    has shapes, then the rotation as a double if it has one, is read back
    by [parse_pad_geometry] field for field; a block that ends after the
    hole size or after the shapes gives a geometry without the parts that
    are missing, and after a block that has them all, more bytes can
    follow. *)
Theorem parse_pad_geometry_reads_back
        (head : bytes) (g : pad_geometry) :
  length head = 12%nat ->
  pad_in_range g ->
  parse_pad_geometry (encode_pad_geometry head g) = Ok (Some g) /\
  (pad_rotation g <> None ->
   forall extra,
     parse_pad_geometry (encode_pad_geometry head g ++ extra) = Ok (Some g)).
Proof.
  intros Hhead Hg.
  do 13 (destruct head as [|? head]; try discriminate Hhead); clear Hhead.
  destruct g as [layer lx ly tx ty mx my bx by_ hole shapes rotation].
  destruct Hg as (Hl & Hlx & Hly & Htx & Hty & Hmx & Hmy & Hbx & Hby & Hh
                  & Hs & Hr);
    cbn [pad_layer loc_x loc_y size_top_x size_top_y size_mid_x size_mid_y
         size_bot_x size_bot_y hole_size pad_shapes pad_rotation] in *.
  assert (Hbyte : byte_val (byte_of layer) = layer)
    by (apply byte_val_of_small; exact Hl).
  unfold encode_pad_geometry, i32, f64;
    cbn [pad_layer loc_x loc_y size_top_x size_top_y size_mid_x size_mid_y
         size_bot_x size_bot_y hole_size pad_shapes pad_rotation].
  destruct shapes as [[[top mid] bot]|]; [destruct Hs as (Ht & Hm & Hb)|];
    destruct rotation as [r|]; try discriminate Hs;
    (split; [|intros Hrot extra; try contradiction]);
    cbn [to_bytes_le app]; unfold parse_pad_geometry;
    block_length Hlen; pose proof (len_nonneg (@nil byte));
    try pose proof (len_nonneg extra);
    length_guards Hlen; read_fields Hlen; fields_read_back; reflexivity.
Qed.

Lemma parse_pad_geometry_reads_back_witness :
  parse_pad_geometry (encode_pad_geometry (repeat x00 12) sample_pad)
  = Ok (Some sample_pad) /\
  (pad_rotation sample_pad <> None ->
   forall extra,
     parse_pad_geometry
       (encode_pad_geometry (repeat x00 12) sample_pad ++ extra)
     = Ok (Some sample_pad)).
Proof.
  apply (parse_pad_geometry_reads_back (repeat x00 12) sample_pad).
  - reflexivity.
  - unfold pad_in_range, sample_pad, uint8, int32, bits64; cbn; lia.
Defined.

(** X22: the blocks of a Track, an Arc, a Text and a Fill, written out as
    the layer byte, 12 bytes that are not read and the fields of the
    primitive, signed 32-bit for the lengths and doubles for the angles,
    are read back field for field once the block is as long as its
    decoder asks: 45 bytes for a Track and an Arc, whose fields end at 33
    and 41.  A Text has its rotation at 27 and it is read only when a byte
    follows it; a Text block of at most 35 bytes gives no rotation.  A
    Fill that is decoded always has its rotation. *)
Theorem geometry_blocks_read_back (head gap : bytes) :
  length head = 12%nat ->
  length gap = 2%nat ->
  (forall g tail,
      track_in_range g -> 12 <= len tail ->
      track_fields (encode_track head g ++ tail) = Ok (Some g)) /\
  (forall g tail,
      arc_in_range g -> 4 <= len tail ->
      arc_fields (encode_arc head g ++ tail) = Ok (Some g)) /\
  (forall g tail,
      text_in_range g ->
      match text_rotation g with
      | Some _ => 1 <= len tail
      | None => len tail <= 10
      end ->
      text_fields (encode_text head gap g ++ tail) = Ok (Some g)) /\
  (forall g tail,
      fill_in_range g ->
      fill_fields (encode_fill head g ++ tail) = Ok (Some g)) /\
  (forall block g,
      fill_fields block = Ok (Some g) -> fill_rotation g <> None).
Proof.
  intros Hhead Hgap.
  do 13 (destruct head as [|? head]; try discriminate Hhead); clear Hhead.
  do 3 (destruct gap as [|? gap]; try discriminate Hgap); clear Hgap.
  split; [|split; [|split; [|split]]].
  - intros [layer x1 y1 x2 y2 width] tail (Hl & H1 & H2 & H3 & H4 & H5) Ht;
      cbn [track_layer track_x1 track_y1 track_x2 track_y2 track_width] in *.
    unfold encode_track, i32;
      cbn [track_layer track_x1 track_y1 track_x2 track_y2 track_width
           to_bytes_le app].
    unfold track_fields.
    block_length Hlen; unfold len in Ht.
    length_guards Hlen; read_fields Hlen; fields_read_back; reflexivity.
  - intros [layer cx cy radius sa ea] tail (Hl & H1 & H2 & H3 & H4 & H5) Ht;
      cbn [arc_layer arc_cx arc_cy arc_radius start_angle end_angle] in *.
    unfold encode_arc, i32, f64;
      cbn [arc_layer arc_cx arc_cy arc_radius start_angle end_angle
           to_bytes_le app].
    unfold arc_fields.
    block_length Hlen; unfold len in Ht.
    length_guards Hlen; read_fields Hlen; fields_read_back; reflexivity.
  - intros [layer x y height rotation] tail (Hl & H1 & H2 & H3 & H4) Ht;
      cbn [text_layer text_x text_y text_height text_rotation] in *.
    unfold encode_text, i32, f64;
      cbn [text_layer text_x text_y text_height text_rotation].
    unfold text_fields.
    destruct rotation as [r|]; cbn [to_bytes_le app];
      block_length Hlen; unfold len in Ht;
      length_guards Hlen; read_fields Hlen; fields_read_back; reflexivity.
  - intros [layer x1 y1 x2 y2 rotation] tail (Hl & H1 & H2 & H3 & H4 & H5);
      cbn [fill_layer fill_x1 fill_y1 fill_x2 fill_y2 fill_rotation] in *.
    destruct rotation as [r|]; [|contradiction].
    unfold encode_fill, i32, f64;
      cbn [fill_layer fill_x1 fill_y1 fill_x2 fill_y2 fill_rotation
           to_bytes_le app].
    unfold fill_fields.
    block_length Hlen.
    length_guards Hlen; read_fields Hlen; fields_read_back; reflexivity.
  - intros block g; unfold fill_fields.
    destruct (Z.geb_spec (len block) 37); [|discriminate].
    destruct (Z.gtb_spec (len block) 36); [|lia].
    repeat known_field.
    intros [= <-]; discriminate.
Qed.

Lemma geometry_blocks_read_back_witness :
  (forall g tail,
      track_in_range g -> 12 <= len tail ->
      track_fields (encode_track (repeat x00 12) g ++ tail) = Ok (Some g)) /\
  (forall g tail,
      arc_in_range g -> 4 <= len tail ->
      arc_fields (encode_arc (repeat x00 12) g ++ tail) = Ok (Some g)) /\
  (forall g tail,
      text_in_range g ->
      match text_rotation g with
      | Some _ => 1 <= len tail
      | None => len tail <= 10
      end ->
      text_fields (encode_text (repeat x00 12) [x00; x00] g ++ tail)
      = Ok (Some g)) /\
  (forall g tail,
      fill_in_range g ->
      fill_fields (encode_fill (repeat x00 12) g ++ tail) = Ok (Some g)) /\
  (forall block g,
      fill_fields block = Ok (Some g) -> fill_rotation g <> None).
Proof.
  apply (geometry_blocks_read_back (repeat x00 12) [x00; x00]); reflexivity.
Defined.

(** ** The name block of a footprint *)

Lemma decode_ascii_replace_only s :
  ascii_only s -> decode_ascii_replace s = ascii_text s.
Proof.
  unfold decode_ascii_replace, ascii_text.
  induction 1 as [|b t Hb _ IH]; [reflexivity|].
  cbn [map]; rewrite IH.
  destruct (N.ltb_spec (Byte.to_N b) 128); [reflexivity|lia].
Qed.

(** X23: a footprint buffer that begins with a name block, holding the
    length byte of an ASCII name of at most 255 bytes, the name and
    possibly more bytes, is never reported as too short or as having an
    invalid block length.  When nothing follows the name block the report
    is that of a footprint without primitives; otherwise the primitives
    start right after the name block; either way the component name is
    the name written. *)
Theorem footprint_name_reads_back
        (name more rest : bytes) (report : footprint_report) :
  len name <= 255 ->
  ascii_only name ->
  len more < 2 ^ 31 ->
  parse_footprint_data
    (encode_block (byte_of (len name) :: name ++ more) ++ rest)
  = Some (Ok report) ->
  match report with
  | NoPrimitives comp_name => comp_name = ascii_text name /\ rest = []
  | Primitives comp_name start _ =>
      comp_name = ascii_text name /\
      start = 5 + len name + len more /\ rest <> []
  | _ => False
  end.
Proof.
  intros Hname Hascii Hmore.
  pose proof (len_nonneg name) as Hn1.
  pose proof (len_nonneg more) as Hn2.
  pose proof (len_nonneg rest) as Hn3.
  set (block := byte_of (len name) :: name ++ more).
  assert (Hblock : len block = 1 + len name + len more)
    by (unfold block; rewrite len_cons, len_app; lia).
  set (data := encode_block block ++ rest).
  assert (Hlen : len data = 4 + len block + len rest)
    by (unfold data; rewrite len_app, len_encode_block; lia).
  assert (Hbl : unpack_from fmt_I data 0 = Ok (len block)).
  { pose proof (unpack_length_prefix [] block rest) as Hu.
    cbn [app] in Hu; apply Hu; lia. }
  assert (Hidx : index data 4 = Ok (len name)).
  { pose proof (index_nth data 4 (byte_of (len name))) as Hi.
    destruct Hi as [Hi _]; [lia|reflexivity|].
    rewrite Hi, byte_val_of_small by lia; reflexivity. }
  assert (Hslice : slice data 5 (5 + len name) = name).
  { unfold data, encode_block, block.
    change (to_bytes_le 4 (len (byte_of (len name) :: name ++ more)))
      with ([byte_of (len (byte_of (len name) :: name ++ more));
             byte_of (len (byte_of (len name) :: name ++ more) / 256);
             byte_of (len (byte_of (len name) :: name ++ more) / 256 / 256);
             byte_of (len (byte_of (len name) :: name ++ more)
                      / 256 / 256 / 256)]).
    cbn [app]; rewrite <- app_assoc.
    match goal with
    | |- slice (?a :: ?b :: ?c :: ?d :: ?e :: name ++ ?r) _ _ = _ =>
        apply (slice_middle [a; b; c; d; e] name r); [reflexivity|lia]
    end. }
  unfold parse_footprint_data.
  destruct (Z.ltb_spec (len data) 5); [lia|].
  rewrite Hbl, Hidx, Hslice, decode_ascii_replace_only by assumption.
  destruct (Z.gtb_spec (len block + 4) (len data)); [lia|].
  cbv zeta; remember (4 + len block) as offset eqn:Hoff.
  destruct (Z.geb_spec offset (len data)).
  - intros [= <-]; split; [reflexivity|].
    destruct rest as [|b rest']; [reflexivity|].
    pose proof (len_nonneg rest'); rewrite len_cons in Hlen; lia.
  - destruct (parse_primitives data offset) as [[r|e]|];
      try discriminate.
    intros [= <-]; split; [reflexivity|split; [lia|]].
    intros ->; change (len (@nil byte)) with 0 in *; lia.
Qed.

Lemma footprint_name_reads_back_witness :
  ascii_text [x52; x31] = ascii_text [x52; x31] /\
  4 + 3 = 5 + len [x52; x31] + len (@nil byte) /\
  [x04; x00; x00; x00; x00; x00] <> [].
Proof.
  apply (footprint_name_reads_back
           [x52; x31] [] [x04; x00; x00; x00; x00; x00]
           (Primitives (ascii_text [x52; x31]) (4 + 3)
              {| how := Done; final_offset := 12;
                 primitives := [(u "Track", Track [] None)] |})).
  - cbn; lia.
  - repeat constructor.
  - cbn; lia.
  - reflexivity.
Defined.

(** ** Records of a type that is neither text nor pin *)

Lemma u_inj s t : u s = u t -> s = t.
Proof.
  unfold u; intros H.
  rewrite <- (string_of_list_ascii_of_string s),
          <- (string_of_list_ascii_of_string t); f_equal.
  revert H; generalize (list_ascii_of_string t) as b;
    generalize (list_ascii_of_string s) as a.
  induction a as [|x a IH]; intros [|y b]; cbn [map]; try discriminate;
    [reflexivity|].
  intros [= Hxy Hab]; f_equal; [|apply IH; assumption].
  rewrite <- (ascii_N_embedding x), <- (ascii_N_embedding y), Hxy.
  reflexivity.
Qed.

Lemma to_int_not_nil z :
  Z.to_int z <> Decimal.Pos Decimal.Nil /\
  Z.to_int z <> Decimal.Neg Decimal.Nil.
Proof.
  assert (H : forall p, Pos.to_uint p <> Decimal.Nil).
  { intros p E.
    pose proof (DecimalPos.Unsigned.of_to p) as Hp.
    rewrite E in Hp; discriminate Hp. }
  destruct z as [|p|p]; cbn [Z.to_int]; split; try discriminate;
    intros [= E]; exact (H _ E).
Qed.

(** [str(z)] tells the integers apart. *)
Lemma str_of_int_inj a b : str_of_int a = str_of_int b -> a = b.
Proof.
  unfold str_of_int; intros H; apply u_inj in H.
  apply DecimalZ.to_int_inj.
  destruct (to_int_not_nil a) as [Ha1 Ha2], (to_int_not_nil b) as [Hb1 Hb2].
  pose proof (NilZero.isi _ Ha1 Ha2) as Ea.
  pose proof (NilZero.isi _ Hb1 Hb2) as Eb.
  rewrite H in Ea; congruence.
Qed.

Lemma hex_digit_char n : (n < 16)%N -> hex_char (hex_digit n).
Proof.
  intros Hn; unfold hex_digit, hex_char.
  destruct (N.ltb_spec n 10); lia.
Qed.





(** ** The hex dump *)

Lemma hex_value_digit d rest acc :
  (d < 16)%N ->
  hex_value (hex_digit d :: rest) acc = hex_value rest (16 * acc + d).
Proof.
  intros Hd; unfold hex_digit; cbn [hex_value].
  destruct (N.ltb_spec d 10).
  - destruct (N.leb_spec 48 (48 + d)); [|lia].
    destruct (N.leb_spec (48 + d) 57); [|lia].
    cbn [andb]; f_equal; lia.
  - destruct (N.leb_spec 48 (87 + d)); [|lia].
    destruct (N.leb_spec (87 + d) 57); [lia|].
    destruct (N.leb_spec 97 (87 + d)); [|lia].
    destruct (N.leb_spec (87 + d) 102); [|lia].
    cbn [andb]; f_equal; lia.
Qed.

(** The fuel of [format_x] is enough: the digits write the number, and a
    number below [16 ^ k] has [k] digits at most. *)
Lemma hex_digits_value fuel n acc :
  (n < 2 ^ N.of_nat (S fuel))%N ->
  exists k,
    (0 < k)%nat /\
    length (hex_digits (S fuel) n acc) = (k + length acc)%nat /\
    (forall j, (0 < j)%nat -> (n < 16 ^ N.of_nat j)%N -> (k <= j)%nat) /\
    forall a,
      hex_value (hex_digits (S fuel) n acc) a
      = hex_value acc (a * 16 ^ N.of_nat k + n)%N.
Proof.
  revert n acc; induction fuel as [|fuel IH]; intros n acc Hn.
  - change (2 ^ N.of_nat 1)%N with 2%N in Hn.
    cbn [hex_digits].
    replace (n / 16)%N with 0%N by (symmetry; apply N.div_small; lia).
    cbn [N.eqb]; exists 1%nat; split; [lia|split; [reflexivity|split]].
    + intros; lia.
    + intros a; rewrite N.mod_small by lia.
      rewrite hex_value_digit by lia.
      change (16 ^ N.of_nat 1)%N with 16%N; f_equal; lia.
  - change (hex_digits (S (S fuel)) n acc)
      with (if (n / 16 =? 0)%N then hex_digit (n mod 16) :: acc
            else hex_digits (S fuel) (n / 16) (hex_digit (n mod 16) :: acc)).
    assert (Hmod : (n mod 16 < 16)%N) by (apply N.mod_lt; lia).
    pose proof (N.div_mod n 16) as Hdm.
    destruct (N.eqb_spec (n / 16) 0) as [Hz|Hnz].
    + exists 1%nat; split; [lia|split; [reflexivity|split]].
      * intros; lia.
      * intros a; rewrite hex_value_digit by assumption.
        change (16 ^ N.of_nat 1)%N with 16%N; f_equal; lia.
    + destruct (IH (n / 16)%N (hex_digit (n mod 16) :: acc))
        as (k & Hk & Hlen & Hmin & Hval).
      { rewrite Nnat.Nat2N.inj_succ, N.pow_succ_r' in Hn.
        apply N.Div0.div_lt_upper_bound; lia. }
      exists (S k); split; [lia|split; [|split]].
      * rewrite Hlen; cbn [length]; lia.
      * intros j Hj Hnj.
        destruct j as [|[|j]]; [lia| |].
        { change (16 ^ N.of_nat 1)%N with 16%N in Hnj.
          exfalso; apply Hnz, N.div_small; assumption. }
        apply le_n_S, Hmin; [lia|].
        rewrite (Nnat.Nat2N.inj_succ (S j)), N.pow_succ_r' in Hnj.
        apply N.Div0.div_lt_upper_bound; lia.
      * intros a; rewrite Hval, hex_value_digit by assumption.
        rewrite Nnat.Nat2N.inj_succ, N.pow_succ_r'; f_equal; lia.
Qed.

Lemma format_x_value n :
  exists k,
    (0 < k)%nat /\ length (format_x n) = k /\
    (forall j, (0 < j)%nat -> (n < 16 ^ N.of_nat j)%N -> (k <= j)%nat) /\
    hex_value (format_x n) 0 = Some n.
Proof.
  destruct (hex_digits_value (N.to_nat (N.log2 n)) n []) as (k & H1 & H2 & H3 & H4).
  { rewrite Nnat.Nat2N.inj_succ, Nnat.N2Nat.id.
    destruct n as [|p]; [reflexivity|].
    apply N.log2_spec; lia. }
  exists k; unfold format_x; split; [assumption|split; [|split]].
  - rewrite H2; cbn [length]; lia.
  - assumption.
  - rewrite H4; cbn [hex_value]; f_equal; lia.
Qed.

Lemma hex_char_printable c : hex_char c -> printable c.
Proof. unfold hex_char, printable; lia. Qed.

Lemma hex_digits_printable fuel n acc :
  Forall printable acc -> Forall printable (hex_digits fuel n acc).
Proof.
  revert n acc; induction fuel as [|fuel IH]; intros n acc Hacc;
    cbn [hex_digits]; [assumption|].
  assert (Hd : printable (hex_digit (n mod 16)))
    by (apply hex_char_printable, hex_digit_char, N.mod_lt; lia).
  destruct (n / 16 =? 0)%N; [|apply IH]; constructor; assumption.
Qed.

Lemma repeat_printable c n : printable c -> Forall printable (repeat c n).
Proof. intros Hc; induction n; cbn [repeat]; constructor; assumption. Qed.

Lemma format_04x_printable z : Forall printable (format_04x z).
Proof.
  unfold format_04x, zfill, format_x.
  destruct (z <? 0); [constructor; [unfold printable; lia|]|];
    (apply Forall_app; split;
     [apply repeat_printable; unfold printable; lia
     |apply hex_digits_printable; constructor]).
Qed.

Lemma join_printable sep pieces :
  printable sep -> Forall (Forall printable) pieces ->
  Forall printable (join sep pieces).
Proof.
  intros Hsep; induction 1 as [|piece rest Hp Hrest IH]; [constructor|].
  destruct rest as [|piece' rest]; [exact Hp|].
  change (join sep (piece :: piece' :: rest))
    with (piece ++ sep :: join sep (piece' :: rest))%list.
  apply Forall_app; split; [exact Hp|constructor; assumption].
Qed.

Lemma hex_part_printable chunk : Forall printable (hex_part chunk).
Proof.
  apply join_printable; [unfold printable; lia|].
  apply Forall_map, Forall_forall; intros b _.
  pose proof (byte_val_range b).
  unfold hex2; constructor; [|constructor; [|constructor]];
    apply hex_char_printable, hex_digit_char.
  - apply N.Div0.div_lt_upper_bound; lia.
  - apply N.mod_lt; lia.
Qed.

Lemma ascii_part_printable chunk : Forall printable (ascii_part chunk).
Proof.
  apply Forall_map, Forall_forall; intros b _; cbv zeta.
  destruct (N.leb_spec 32 (Byte.to_N b)); cbn [andb];
    [|unfold printable; lia].
  destruct (N.ltb_spec (Byte.to_N b) 127); unfold printable; lia.
Qed.

Lemma literal_printable s :
  forallb (fun c => (32 <=? c)%N && (c <? 127)%N) s = true ->
  Forall printable s.
Proof.
  intros H; apply Forall_forall; intros c Hc.
  rewrite forallb_forall in H; specialize (H c Hc).
  apply andb_true_iff in H as [H1 H2].
  apply N.leb_le in H1; apply N.ltb_lt in H2; split; assumption.
Qed.

Lemma hex_line_printable offset i chunk :
  Forall printable (hex_line offset i chunk).
Proof.
  unfold hex_line, ljust.
  apply Forall_app; split; [apply literal_printable; reflexivity|].
  apply Forall_app; split; [apply format_04x_printable|].
  apply Forall_app; split; [apply literal_printable; reflexivity|].
  apply Forall_app; split.
  { apply Forall_app; split; [apply hex_part_printable|].
    apply repeat_printable; unfold printable; lia. }
  apply Forall_app; split; [apply literal_printable; reflexivity|].
  apply Forall_app; split; [apply ascii_part_printable|].
  apply literal_printable; reflexivity.
Qed.

(** X25: whatever the bytes, a hex dump holds nothing but characters that
    print as they are, from the space to the tilde, and the line feeds
    between its lines: a byte outside that range shows as a dot in the
    text column. *)
Theorem hex_dump_is_printable (data : bytes) (offset length : Z) :
  Forall (fun c => c = 10%N \/ printable c) (hex_dump data offset length).
Proof.
  unfold hex_dump.
  assert (Hlines : Forall (Forall printable)
                          (hex_dump_lines data offset length))
    by (apply Forall_map, Forall_forall; intros i _;
        apply hex_line_printable).
  induction Hlines as [|line rest Hline _ IH]; [constructor|].
  assert (Hl : Forall (fun c => c = 10%N \/ printable c) line)
    by (eapply Forall_impl; [|exact Hline]; auto).
  destruct rest as [|line' rest]; [exact Hl|].
  change (join 10 (line :: line' :: rest))
    with (line ++ 10%N :: join 10 (line' :: rest))%list.
  apply Forall_app; split; [exact Hl|constructor; auto].
Qed.

Lemma printable_has_no_newline s :
  Forall printable s -> contains 10 s = false.
Proof.
  unfold contains; induction 1 as [|c s Hc _ IH]; cbn [existsb];
    [reflexivity|].
  rewrite IH; destruct (N.eqb_spec 10 c) as [<-|]; [|reflexivity].
  unfold printable in Hc; lia.
Qed.

Lemma len_repeat {A} (x : A) n : len (repeat x n) = Z.of_nat n.
Proof. unfold len; rewrite repeat_length; reflexivity. Qed.

Lemma len_hex_part chunk :
  len (hex_part chunk) = Z.max 0 (3 * len chunk - 1).
Proof.
  unfold hex_part; induction chunk as [|b chunk IH]; [reflexivity|].
  destruct chunk as [|b' chunk]; [reflexivity|].
  pose proof (len_nonneg chunk).
  change (join 32 (map (fun b => hex2 (byte_val b)) (b :: b' :: chunk)))
    with (hex2 (byte_val b) ++
          32%N :: join 32 (map (fun b => hex2 (byte_val b)) (b' :: chunk)))%list.
  rewrite len_app, len_cons, IH.
  change (len (hex2 (byte_val b))) with 2.
  rewrite (len_cons b), (len_cons b'); lia.
Qed.

Lemma len_ljust s width :
  len s <= Z.of_nat width -> len (ljust width s) = Z.of_nat width.
Proof.
  unfold ljust; intros H; rewrite len_app, len_repeat; unfold len in *; lia.
Qed.

Lemma len_ascii_part chunk : len (ascii_part chunk) = len chunk.
Proof. unfold ascii_part, len; rewrite length_map; reflexivity. Qed.

Lemma hex_value_zeros n digits :
  hex_value (repeat 48%N n ++ digits) 0 = hex_value digits 0.
Proof. induction n as [|n IH]; [reflexivity|exact IH]. Qed.

(** The label of a row that begins below 65536: four digits, which write
    the offset of the row. *)
Lemma format_04x_label z :
  0 <= z < 65536 ->
  len (format_04x z) = 4 /\ hex_value (format_04x z) 0 = Some (Z.to_N z).
Proof.
  intros Hz; unfold format_04x.
  destruct (Z.ltb_spec z 0); [lia|].
  destruct (format_x_value (Z.to_N z)) as (k & Hk & Hlen & Hmin & Hval).
  assert (k <= 4)%nat by (apply Hmin; [lia|change (16 ^ N.of_nat 4)%N with 65536%N; lia]).
  unfold zfill; rewrite hex_value_zeros, len_app, len_repeat.
  split; [unfold len; lia|assumption].
Qed.

Lemma len_slice_end {A} (l : list A) a b :
  0 <= a -> a <= b -> a <= len l ->
  len (slice l a b) = Z.min (b - a) (len l - a).
Proof.
  unfold len, slice; intros.
  rewrite length_firstn, length_skipn; lia.
Qed.

Lemma nth_error_range16 stop k :
  0 <= k < (stop + 15) / 16 ->
  nth_error (range16 stop) (Z.to_nat k) = Some (16 * k).
Proof.
  intros Hk; unfold range16.
  rewrite nth_error_map, nth_error_seq.
  destruct (Nat.ltb_spec (Z.to_nat k) (Z.to_nat ((stop + 15) / 16))); [|lia].
  cbn [option_map Nat.add]; f_equal; lia.
Qed.

(** The parts of a line: the label, the hex column and the text. *)
Lemma hex_line_parts offset i chunk :
  0 <= offset + i < 65536 -> len chunk <= 16 ->
  exists label column,
    hex_line offset i chunk
    = ([32; 32]%N ++ label ++ column ++ ascii_part chunk ++ [124%N])%list /\
    len label = 4 /\ len column = 52 /\
    hex_value label 0 = Some (Z.to_N (offset + i)).
Proof.
  intros Hoff Hchunk.
  destruct (format_04x_label _ Hoff) as [Hlen Hval].
  exists (format_04x (offset + i)),
         (u ": " ++ ljust 48 (hex_part chunk) ++ u " |")%list.
  split; [|split; [assumption|split; [|assumption]]].
  - unfold hex_line; rewrite <- !app_assoc; reflexivity.
  - pose proof (len_nonneg chunk).
    rewrite !len_app, len_ljust by (rewrite len_hex_part; lia).
    reflexivity.
Qed.

(** X26: the hex dump of a buffer, of which [length] bytes are asked for,
    has a line for every 16 of the bytes there are to show, the last one
    begun included.  When the offsets shown stay below 65536, every line
    is as wide as 59 characters and the bytes of its row; it begins, after
    two spaces, with the four digits of [offset] and the place of the row
    in the buffer; and its text column, from character 58 to the bar at
    the end, shows the bytes of the whole row, also those beyond
    [length], one character each. *)
Theorem hex_dump_rows (data : bytes) (offset length : Z) :
  0 < Z.min (len data) length ->
  0 <= offset ->
  offset + Z.min (len data) length <= 65536 ->
  len (split 10 (hex_dump data offset length))
  = (Z.min (len data) length + 15) / 16 /\
  forall k,
    0 <= k < (Z.min (len data) length + 15) / 16 ->
    exists line,
      nth_error (split 10 (hex_dump data offset length)) (Z.to_nat k)
      = Some line /\
      len line = 59 + Z.min 16 (len data - 16 * k) /\
      hex_value (slice line 2 6) 0 = Some (Z.to_N (offset + 16 * k)) /\
      slice line 58 (len line - 1)
      = ascii_part (slice data (16 * k) (16 * k + 16)).
Proof.
  intros Hshown Hoffset Hfit.
  set (shown := Z.min (len data) length) in *.
  assert (Hrows : 0 < (shown + 15) / 16) by div_lia.
  assert (Hsplit : split 10 (hex_dump data offset length)
                   = hex_dump_lines data offset length).
  { unfold hex_dump; apply split_join.
    - unfold hex_dump_lines, range16; fold shown.
      destruct (Z.to_nat ((shown + 15) / 16)) eqn:E; [lia|discriminate].
    - apply Forall_map, Forall_forall; intros i _.
      apply printable_has_no_newline, hex_line_printable. }
  rewrite Hsplit; split.
  - unfold hex_dump_lines, range16; fold shown.
    unfold len at 1; rewrite !length_map, length_seq; lia.
  - intros k Hk.
    set (chunk := slice data (16 * k) (16 * k + 16)).
    assert (Hin : 16 * k < shown) by div_lia.
    assert (Hchunk : len chunk = Z.min 16 (len data - 16 * k)).
    { unfold chunk; rewrite len_slice_end by lia; f_equal; lia. }
    destruct (hex_line_parts offset (16 * k) chunk)
      as (label & column & Hline & Hlabel & Hcolumn & Hvalue); [lia|lia|].
    exists (hex_line offset (16 * k) chunk).
    assert (Hwidth : len (hex_line offset (16 * k) chunk)
                     = 59 + Z.min 16 (len data - 16 * k)).
    { rewrite Hline, !len_app, len_ascii_part, Hlabel, Hcolumn, Hchunk.
      change (len [32%N; 32%N]) with 2; change (len [124%N]) with 1; lia. }
    split; [|split; [exact Hwidth|split]].
    + unfold hex_dump_lines; fold shown.
      rewrite nth_error_map, (nth_error_range16 shown k Hk); reflexivity.
    + rewrite Hline.
      rewrite (slice_middle [32%N; 32%N] label _ 2 6); [exact Hvalue| |];
        [reflexivity|lia].
    + rewrite Hwidth, Hline.
      rewrite (app_assoc [32%N; 32%N] label), (app_assoc _ column).
      apply slice_middle.
      * rewrite !len_app, Hlabel, Hcolumn; reflexivity.
      * rewrite len_ascii_part, Hchunk; lia.
Qed.

Lemma hex_dump_rows_witness :
  len (split 10 (hex_dump [x41; x00; x7f] 4 20))
  = (Z.min (len [x41; x00; x7f]) 20 + 15) / 16 /\
  forall k,
    0 <= k < (Z.min (len [x41; x00; x7f]) 20 + 15) / 16 ->
    exists line,
      nth_error (split 10 (hex_dump [x41; x00; x7f] 4 20)) (Z.to_nat k)
      = Some line /\
      len line = 59 + Z.min 16 (len [x41; x00; x7f] - 16 * k) /\
      hex_value (slice line 2 6) 0 = Some (Z.to_N (4 + 16 * k)) /\
      slice line 58 (len line - 1)
      = ascii_part (slice [x41; x00; x7f] (16 * k) (16 * k + 16)).
Proof.
  apply (hex_dump_rows [x41; x00; x7f] 4 20); cbn; lia.
Defined.

(** ** The header of a schematic library *)

Lemma str_of_int_digits z : 0 <= z -> Forall decimal_digit (str_of_int z).
Proof.
  intros Hz.
  assert (Hd : forall d, Forall decimal_digit
                           (u (NilEmpty.string_of_uint d))).
  { induction d; cbn [NilEmpty.string_of_uint]; unfold u in *;
      cbn [list_ascii_of_string map]; constructor;
      try assumption; unfold decimal_digit; cbn; lia. }
  unfold str_of_int.
  destruct z as [|p|p]; [| |lia]; cbn [Z.to_int NilZero.string_of_int].
  - repeat constructor; unfold decimal_digit; cbn; lia.
  - unfold NilZero.string_of_uint.
    destruct (Pos.to_uint p) eqn:E; try (rewrite <- E; apply Hd).
    repeat constructor; unfold decimal_digit; cbn; lia.
Qed.

Lemma decimal_int_of_str n : decimal_int (str_of_int n) = Ok n.
Proof.
  unfold decimal_int, str_of_int, u.
  rewrite map_map.
  rewrite (map_ext _ (fun a => a)) by apply ascii_N_embedding.
  rewrite map_id, string_of_list_ascii_of_string.
  destruct (to_int_not_nil n) as [H1 H2].
  rewrite (NilZero.isi _ H1 H2), DecimalZ.of_to; reflexivity.
Qed.

Lemma digits_lack c s :
  Forall decimal_digit s -> ~ decimal_digit c -> contains c s = false.
Proof.
  intros Hs Hc; induction Hs as [|x s Hx _ IH]; [reflexivity|].
  rewrite contains_cons, IH, orb_false_r.
  apply N.eqb_neq; intros ->; contradiction.
Qed.

Lemma libref_key_plain i c :
  0 <= i -> ~ decimal_digit c ->
  contains c (u "LibRef") = false ->
  contains c (u "LibRef" ++ str_of_int i) = false.
Proof.
  intros Hi Hc Hl; rewrite contains_app, Hl.
  apply digits_lack; [apply str_of_int_digits|]; assumption.
Qed.

Lemma libref_keys start names k :
  In k (map fst (libref_entries start names)) ->
  exists i, (start <= i)%nat /\ k = (u "LibRef" ++ str_of_int (Z.of_nat i))%list.
Proof.
  revert start; induction names as [|name rest IH]; intros start;
    cbn [libref_entries map fst In]; [contradiction|].
  intros [<-|Hin]; [exists start; split; [lia|reflexivity]|].
  destruct (IH _ Hin) as (i & Hi & ->); exists i; split; [lia|reflexivity].
Qed.

Lemma libref_key_inj i j :
  (u "LibRef" ++ str_of_int (Z.of_nat i))%list
  = (u "LibRef" ++ str_of_int (Z.of_nat j))%list -> i = j.
Proof.
  intros H; apply app_inv_head, str_of_int_inj in H; lia.
Qed.

Lemma libref_entries_nodup start names :
  NoDup (map fst (libref_entries start names)).
Proof.
  revert start; induction names as [|name rest IH]; intros start;
    cbn [libref_entries map fst]; constructor; [|apply IH].
  intros Hin; apply libref_keys in Hin as (i & Hi & E).
  apply libref_key_inj in E; lia.
Qed.

Lemma libref_entries_plain start names :
  Forall (fun name => contains 124 name = false) names ->
  Forall property_entry (libref_entries start names).
Proof.
  intros Hnames; revert start; induction Hnames as [|name rest Hn _ IH];
    intros start; cbn [libref_entries]; constructor; [|apply IH].
  unfold property_entry; cbn [fst snd].
  repeat split; [| |assumption];
    (apply libref_key_plain;
     [lia|unfold decimal_digit; lia|reflexivity]).
Qed.

Lemma dict_get_app_fresh {V} (a b : dict V) k :
  ~ In k (map fst a) -> dict_get (a ++ b) k = dict_get b k.
Proof.
  induction a as [|[k0 v0] a IH]; cbn [app map fst In dict_get];
    [reflexivity|].
  intros Hn; destruct (str_eqb_spec k0 k); [tauto|apply IH; tauto].
Qed.

Lemma dict_get_libref start names j :
  dict_get (libref_entries start names)
           (u "LibRef" ++ str_of_int (Z.of_nat (start + j)))
  = nth_error names j.
Proof.
  revert start j; induction names as [|name rest IH]; intros start j;
    cbn [libref_entries dict_get]; [destruct j; reflexivity|].
  destruct j as [|j].
  - rewrite Nat.add_0_r, str_eqb_refl; reflexivity.
  - destruct (str_eqb_spec (u "LibRef" ++ str_of_int (Z.of_nat start))%list
                (u "LibRef" ++ str_of_int (Z.of_nat (start + S j)))%list)
      as [E|_]; [apply libref_key_inj in E; lia|].
    rewrite <- Nat.add_succ_comm; apply IH.
Qed.

Lemma map_indices {A} (g : nat -> A) names start :
  (forall j x, nth_error names j = Some x -> g (start + j)%nat = x) ->
  map g (seq start (length names)) = names.
Proof.
  revert start; induction names as [|name rest IH]; intros start Hg;
    cbn [length seq map]; [reflexivity|].
  f_equal.
  - rewrite <- (Nat.add_0_r start); apply Hg; reflexivity.
  - apply IH; intros j x Hj.
    rewrite Nat.add_succ_comm; apply Hg; exact Hj.
Qed.

Lemma header_entries_valid others names :
  NoDup (map fst others) ->
  Forall property_entry others ->
  Forall other_property others ->
  Forall (fun name => contains 124 name = false) names ->
  NoDup (map fst (header_entries others names)) /\
  Forall property_entry (header_entries others names) /\
  forall k, In k (u "CompCount" :: map fst (libref_entries 0 names)) ->
            ~ In k (map fst others).
Proof.
  intros Hnd Hall Hother Hnames.
  assert (Hfresh : forall k,
             In k (u "CompCount" :: map fst (libref_entries 0 names)) ->
             ~ In k (map fst others)).
  { intros k Hk Hin; apply in_map_iff in Hin as (kv & <- & Hkv).
    rewrite Forall_forall in Hother; destruct (Hother kv Hkv) as [H1 H2].
    destruct Hk as [Hk|Hk]; [congruence|].
    apply libref_keys in Hk as (i & _ & E).
    rewrite E, (startswith_app (u "LibRef") _ (u "LibRef") eq_refl) in H2.
    discriminate H2. }
  unfold header_entries; split; [|split; [|exact Hfresh]].
  - rewrite map_app; cbn [map fst].
    apply NoDup_app; [assumption| |].
    + constructor; [|apply libref_entries_nodup].
      intros Hin; apply libref_keys in Hin as (i & _ & E); discriminate E.
    + intros k Hin Hk; exact (Hfresh k Hk Hin).
  - apply Forall_app; split; [assumption|constructor].
    + unfold property_entry; cbn [fst snd].
      repeat split; try reflexivity.
      apply digits_lack; [apply str_of_int_digits, len_nonneg|].
      unfold decimal_digit; lia.
    + apply libref_entries_plain; assumption.
Qed.

(** X27: the header of a schematic library, written as the 4-byte length
    of its text and the text, in which the properties [CompCount], the
    number of the components, and [LibRef0], [LibRef1], ... with their
    names come after properties of other names, is read back as the list
    of the names, in order, by an [int] that reads a count as [str]
    writes it; what follows the text in the stream has no part in it. *)
Theorem header_components_read_back
        (int : str -> result Z) (others : dict str) (names : list str)
        (rest : bytes) :
  (forall n, 0 <= n -> int (str_of_int n) = Ok n) ->
  NoDup (map fst others) ->
  Forall property_entry others ->
  Forall other_property others ->
  Forall (fun name => contains 124 name = false) names ->
  ascii_str (format_properties (header_entries others names)) ->
  len (format_properties (header_entries others names)) < 2 ^ 32 ->
  read_components int (encode_header (header_entries others names) ++ rest)
  = Ok names.
Proof.
  intros Hint Hnd Hall Hother Hnames Hascii Hlen.
  destruct (header_entries_valid others names Hnd Hall Hother Hnames)
    as (Hnd' & Hall' & Hfresh).
  set (props := header_entries others names) in *.
  set (text := format_properties props) in *.
  pose proof (len_nonneg text) as Htext.
  assert (Hbytes : len (encode_ascii text) = len text)
    by (unfold encode_ascii, len; rewrite length_map; reflexivity).
  assert (Hprops : header_props (encode_header props ++ rest) = Ok props).
  { unfold header_props, encode_header; fold text; cbv zeta.
    rewrite <- app_assoc.
    assert (Hprefix : 4 = 0 + len (to_bytes_le 4 (len text)))
      by (rewrite len_to_bytes_le; reflexivity).
    pose proof (slice_middle [] (to_bytes_le 4 (len text))
                  (encode_ascii text ++ rest) 0 4 eq_refl Hprefix) as Hs.
    rewrite app_nil_l in Hs; rewrite Hs; clear Hs Hprefix.
    rewrite int_from_bytes_unsigned, le_combine_to_bytes
      by (change (256 ^ Z.of_nat 4) with (2 ^ 32); lia).
    rewrite (slice_middle (to_bytes_le 4 (len text)) (encode_ascii text) rest)
      by (rewrite ?len_to_bytes_le, ?Hbytes; reflexivity).
    rewrite (parse_properties_decoded _ _ (decode_encode_ascii _ Hascii)).
    f_equal; unfold text, format_properties.
    destruct props as [|kv props'] eqn:Eprops;
      [unfold props, header_entries in Eprops;
       destruct others; discriminate Eprops|].
    rewrite split_join;
      [apply (put_formatted (kv :: props') []); assumption|discriminate|].
    apply Forall_map; eapply Forall_impl; [|exact Hall'].
    intros [k v] (H1 & H2 & H3); unfold format_property; cbn [fst snd] in *.
    rewrite contains_app, contains_cons, H2, H3; reflexivity. }
  unfold read_components; rewrite Hprops; cbn [bind].
  assert (Hcount : comp_count int props = Ok (len names)).
  { unfold comp_count, props, header_entries.
    rewrite dict_get_app_fresh by (apply Hfresh; left; reflexivity).
    cbn [dict_get]; rewrite str_eqb_refl.
    apply Hint, len_nonneg. }
  rewrite Hcount; cbn [bind]; f_equal.
  unfold comp_names, len; rewrite Nat2Z.id, map_map.
  apply map_indices; intros j x Hj; cbn [Nat.add].
  unfold dict_get_default, props, header_entries.
  rewrite dict_get_app_fresh.
  - cbn [dict_get].
    destruct (str_eqb_spec (u "CompCount")
                (u "LibRef" ++ str_of_int (Z.of_nat j))%list) as [E|_];
      [discriminate E|].
    pose proof (dict_get_libref 0 names j) as Hg.
    rewrite Nat.add_0_l in Hg; rewrite Hg, Hj; reflexivity.
  - apply Hfresh; right.
    apply in_map_iff.
    exists ((u "LibRef" ++ str_of_int (Z.of_nat j))%list, x); split;
      [reflexivity|].
    clear - Hj; change j with (0 + j)%nat at 1.
    generalize 0%nat as start; revert j Hj.
    induction names as [|name rest' IH]; intros j Hj start;
      [destruct j; discriminate Hj|].
    destruct j as [|j]; cbn [libref_entries].
    + injection Hj as ->; left; rewrite Nat.add_0_r; reflexivity.
    + right; rewrite <- Nat.add_succ_comm; apply IH; exact Hj.
Qed.

Lemma header_components_read_back_witness :
  read_components decimal_int
    (encode_header
       (header_entries [(u "HEADER", u "Protel for Windows")]
                       [u "R_0603"; u "OPAMP"])
     ++ [x00; x00])
  = Ok [u "R_0603"; u "OPAMP"].
Proof.
  apply (header_components_read_back
           decimal_int [(u "HEADER", u "Protel for Windows")]
           [u "R_0603"; u "OPAMP"] [x00; x00]).
  - intros n _; apply decimal_int_of_str.
  - repeat constructor; cbn; intuition discriminate.
  - repeat constructor.
  - repeat constructor; discriminate.
  - repeat constructor.
  - unfold ascii_str; apply Forall_forall; intros c Hc.
    vm_compute in Hc; intuition (subst; reflexivity).
  - vm_compute; reflexivity.
Defined.

(** ** Component streams without an end marker *)

(** A pass of the record loop raises only in a binary pin record, with
    the error of its decoder. *)
Lemma record_step_raises_at data st e :
  record_step data st = Raise e ->
  offset st < len data - 4 /\
  record_length_at data (offset st) <> 0 /\
  record_type_at data (offset st) = 1 /\
  parse_binary_pin (record_data_at data (offset st)) = Raise e.
Proof.
  unfold record_step, record_data_at, record_type_at, record_length_at.
  destruct (Z.ltb_spec (offset st) (len data - 4)); [|discriminate].
  destruct (Z.eqb_spec
              (int_from_bytes (slice data (offset st) (offset st + 2))
                              little false) 0); [discriminate|].
  cbv zeta.
  match goal with
  | |- context [decode_record ?t ?d] =>
      destruct (Z.eq_dec t 1) as [Ht|Hne];
      [rewrite Ht, decode_record_pin; destruct (parse_binary_pin d) eqn:Ep
      |destruct (decode_record_not_pin t d Hne) as (props & rec_id & ->)]
  end; cbn [bind]; try discriminate.
  intros [= <-]; repeat split; assumption.
Qed.

Lemma record_loop_raises_at fuel data st e :
  0 <= offset st ->
  record_loop fuel data st = Some (Raise e) ->
  exists off,
    0 <= off < len data - 4 /\
    record_length_at data off <> 0 /\
    record_type_at data off = 1 /\
    parse_binary_pin (record_data_at data off) = Raise e.
Proof.
  revert st; induction fuel as [|fuel IH]; intros st H0; cbn [record_loop];
    [discriminate|].
  destruct (record_step data st) as [[h|st']|e'] eqn:E; [discriminate| |].
  - apply IH.
    apply record_step_next_inv in E as (_ & Hl & -> & _); lia.
  - intros [= <-]; apply record_step_raises_at in E as (H1 & H2 & H3 & H4).
    exists (offset st); repeat split; assumption || lia.
Qed.

(** The loop reads through well-formed records and goes on with what
    follows them. *)
Lemma record_loop_through rs :
  Forall record_ok rs ->
  forall fuel pre tail st,
    offset st = len pre ->
    exists st',
      record_loop (length rs + fuel) (pre ++ encode_records rs ++ tail) st
      = record_loop fuel (pre ++ encode_records rs ++ tail) st' /\
      offset st' = len (pre ++ encode_records rs) /\
      record_num st' = record_num st + Z.of_nat (length rs).
Proof.
  induction 1 as [|r rs Hr _ IH]; intros fuel pre tail st Ho;
    cbn [length Nat.add record_loop encode_records flat_map app].
  - exists st; rewrite app_nil_r; repeat split; lia.
  - fold (encode_records rs); rewrite <- app_assoc.
    destruct (record_step_encoded pre r (encode_records rs ++ tail) st Hr Ho)
      as (st1 & -> & Ho1 & Hn1).
    rewrite (app_assoc pre).
    destruct (IH fuel (pre ++ encode_record r) tail st1 Ho1)
      as (st' & -> & Ho' & Hn').
    exists st'; split; [reflexivity|split].
    + rewrite Ho', <- app_assoc; reflexivity.
    + rewrite Hn', Hn1; lia.
Qed.

Lemma length_encode_records rs :
  (length rs <= length (encode_records rs))%nat.
Proof.
  induction rs as [|[t p] rs IH]; [apply Nat.le_refl|].
  cbn [encode_records flat_map length]; fold (encode_records rs).
  rewrite length_app; unfold encode_record; cbn [fst snd].
  rewrite length_app; cbn [to_bytes_le length]; lia.
Qed.

(** C10, as amended: the record loop reads a record header only while at
    least 5 bytes remain past the cursor, and it always comes to an end.
    A component stream that ends without a 0-length terminator which the
    loop reads, also one whose 4-byte terminator is its last 4 bytes,
    completes by the loop condition with the records decoded so far
    whenever the decoder of each of its records returns: a stream of N
    well-formed records and fewer than 5 more bytes completes with N
    records counted.  Nothing reports a stream as truncated.  The one
    way a component does not complete is the error of a binary pin record
    whose text is not valid UTF-8. *)
Theorem unterminated_stream_completes_silently :
  (forall data st,
      record_step data st = Ok (Stop ConditionFalse)
      <-> len data - offset st < 5) /\
  (forall data, analyze_component data <> Diverged) /\
  (forall data e,
      analyze_component data = ErrorReadingDataStream e ->
      e = UnicodeDecodeError /\
      exists off,
        0 <= off < len data - 4 /\
        record_length_at data off <> 0 /\
        record_type_at data off = 1 /\
        parse_binary_pin (record_data_at data off) = Raise e) /\
  (forall data st,
      analyze_component data = Completed EndMarker st ->
      offset st + 5 <= len data) /\
  (forall rs tail,
      Forall record_ok rs ->
      len tail < 5 ->
      exists st,
        analyze_component (encode_records rs ++ tail)
        = Completed ConditionFalse st /\
        offset st = len (encode_records rs) /\
        record_num st = Z.of_nat (length rs)).
Proof.
  split; [|split; [|split; [|split]]].
  - intros data st; split.
    + intros H; apply record_step_stop_inv in H; lia.
    + intros H; apply record_step_exit; lia.
  - exact analyze_component_completes.
  - intros data e; unfold analyze_component.
    destruct (record_loop _ data initial_state) as [[[h s]|e']|] eqn:E;
      try discriminate.
    intros [= <-]; split; [eapply record_loop_raises; eassumption|].
    eapply record_loop_raises_at; [|eassumption].
    cbn [offset initial_state]; lia.
  - intros data st; unfold analyze_component.
    destruct (record_loop _ data initial_state) as [[[h s]|e]|] eqn:E;
      try discriminate.
    intros [= -> ->]; eapply record_loop_end_marker; eassumption.
  - intros rs tail Hrs Htail.
    pose proof (length_encode_records rs) as Hlen.
    pose proof (len_nonneg tail) as Hn.
    destruct (record_loop_through rs Hrs
                (S (length (encode_records rs) - length rs + length tail))
                [] tail initial_state eq_refl) as (st & E & Ho & Hnum).
    cbn [app] in E, Ho; cbn [record_num initial_state] in Hnum.
    exists st; unfold analyze_component, record_fuel.
    replace (S (Z.to_nat (len (encode_records rs ++ tail)
                          - offset initial_state)))
      with (length rs + S (length (encode_records rs) - length rs
                           + length tail))%nat
      by (rewrite len_app; cbn [offset initial_state]; unfold len; lia).
    rewrite E; cbn [record_loop].
    rewrite record_step_exit by (rewrite len_app, Ho; lia).
    repeat split; assumption || lia.
Qed.

Lemma unterminated_stream_completes_silently_witness :
  exists st,
    analyze_component
      (encode_records [(0, ascii_bytes "A=1"); (7, [x01; x02])]
       ++ [x00; x00; x00; x00])
    = Completed ConditionFalse st /\
    offset st = len (encode_records [(0, ascii_bytes "A=1"); (7, [x01; x02])])
    /\
    record_num st
    = Z.of_nat (length [(0, ascii_bytes "A=1"); (7, [x01; x02])]).
Proof.
  apply (proj2 (proj2 (proj2 (proj2 unterminated_stream_completes_silently)))
               [(0, ascii_bytes "A=1"); (7, [x01; x02])]
               [x00; x00; x00; x00]).
  - repeat constructor; cbn; lia.
  - cbn; lia.
Defined.

(** C10, as stated, fails at a stream that ends inside a binary pin
    record, in the middle of a character of the pin's name: it has no end
    marker, and the component ends with a decoding error and without its
    record. *)
Lemma unterminated_pin_stream_fails :
  len cut_pin_stream = 33 /\
  record_length_at cut_pin_stream 0 = 31 /\
  record_type_at cut_pin_stream 0 = 1 /\
  parse_binary_pin (record_data_at cut_pin_stream 0)
  = Raise UnicodeDecodeError /\
  record_step cut_pin_stream initial_state = Raise UnicodeDecodeError /\
  analyze_component cut_pin_stream
  = ErrorReadingDataStream UnicodeDecodeError.
Proof. repeat split. Qed.
